(** * Unit: amounts of HC and their conversions (lib/unit.js)

    A shallow embedding of [lib/unit.js] and of the parts of the ECMAScript
    language the module relies on: Number values (IEEE 754 binary64) with
    multiplication, division and comparison, [Number.prototype.toFixed],
    [parseInt], [parseFloat] and property lookup on the [UNITS] object
    literal.  The second half of the file states and proves properties of
    the module's constructor, factories, conversions and serializers. *)

From Stdlib Require Import ZArith Lia Bool List String Ascii Sorted.
From Stdlib Require Import QArith Qround Qabs.
From Stdlib Require Import Floats.SpecFloat.
Import ListNotations.

Local Open Scope Z_scope.

(** ** Number values

    A Number is a binary64 value.  The carrier is the standard library's
    [spec_float]: [S754_finite s m e] stands for [(-1)^s * m * 2^e].
    Arithmetic follows the language definition: the exact real result is
    computed as a ratio of integers and mapped back by "the Number value
    for x", that is rounding to nearest, ties to even (ECMAScript 6.1.6.1). *)

Module Number.

Definition number := spec_float.

Abbreviation NaN := S754_nan.
Abbreviation Infinity := S754_infinity.
Abbreviation Zero := S754_zero.
Abbreviation Finite := S754_finite.

Definition prec : Z := 53.
Definition emax : Z := 1024.
Definition emin : Z := -1074.
Definition emax_finite : Z := 971.

(** The non-negative ratio [a/b] divided by [2^e], as numerator and
    denominator. *)
Definition scale_num (a e : Z) : Z := if e <? 0 then a * 2 ^ (- e) else a.
Definition scale_den (b e : Z) : Z := if e <? 0 then b else b * 2 ^ e.

(** [ilog2_ratio a b] is the integer [l] with [2^l <= a/b < 2^(l+1)],
    for positive [a] and [b]. *)
Definition ilog2_ratio (a b : Z) : Z :=
  let l := Z.log2 a - Z.log2 b in
  if scale_den b l <=? scale_num a l then l else l - 1.

(** Nearest integer to [A/B], ties to even. *)
Definition round_nearest_even (A B : Z) : Z :=
  let m := A / B in
  match 2 * (A mod B) ?= B with
  | Lt => m
  | Gt => m + 1
  | Eq => if Z.even m then m else m + 1
  end.

(** The Number value for [(-1)^neg * a / b], with [0 <= a] and [0 < b]. *)
Definition of_ratio (neg : bool) (a b : Z) : number :=
  if a <=? 0 then Zero neg else
  let e := Z.max emin (ilog2_ratio a b - (prec - 1)) in
  let m := round_nearest_even (scale_num a e) (scale_den b e) in
  let e' := if m =? 2 ^ prec then e + 1 else e in
  let m' := if m =? 2 ^ prec then 2 ^ (prec - 1) else m in
  match m' with
  | Zpos p => if emax_finite <? e' then Infinity neg else Finite neg p e'
  | _ => Zero neg
  end.

(** The Number value for the integer [n]. *)
Definition of_Z (n : Z) : number := of_ratio (n <? 0) (Z.abs n) 1.

(** The Number value for the decimal literal [n / 10^k]. *)
Definition of_decimal (n : Z) (k : Z) : number :=
  of_ratio (n <? 0) (Z.abs n) (10 ^ k).

(** The magnitude [m * 2^e] as a ratio. *)
Definition mag_num (m : positive) (e : Z) : Z := scale_num (Zpos m) (- e).
Definition mag_den (e : Z) : Z := scale_den 1 (- e).

(** Number::multiply (ECMAScript 6.1.6.1.4). *)
Definition mul (x y : number) : number :=
  match x, y with
  | NaN, _ | _, NaN => NaN
  | Infinity _, Zero _ | Zero _, Infinity _ => NaN
  | Infinity sx, Infinity sy
  | Infinity sx, Finite sy _ _
  | Finite sx _ _, Infinity sy => Infinity (xorb sx sy)
  | Zero sx, Zero sy
  | Zero sx, Finite sy _ _
  | Finite sx _ _, Zero sy => Zero (xorb sx sy)
  | Finite sx mx ex, Finite sy my ey =>
      of_ratio (xorb sx sy) (mag_num (mx * my) (ex + ey)) (mag_den (ex + ey))
  end.

(** Number::divide (ECMAScript 6.1.6.1.5). *)
Definition div (x y : number) : number :=
  match x, y with
  | NaN, _ | _, NaN => NaN
  | Infinity _, Infinity _ | Zero _, Zero _ => NaN
  | Infinity sx, Zero sy
  | Infinity sx, Finite sy _ _
  | Finite sx _ _, Zero sy => Infinity (xorb sx sy)
  | Zero sx, Infinity sy
  | Zero sx, Finite sy _ _
  | Finite sx _ _, Infinity sy => Zero (xorb sx sy)
  | Finite sx mx ex, Finite sy my ey =>
      of_ratio (xorb sx sy) (mag_num mx ex * mag_den ey)
                            (mag_den ex * mag_num my ey)
  end.

(** [x <= 0] and [0 < x] as the relational operators compute them: every
    comparison with NaN is false. *)
Definition le_zero (x : number) : bool :=
  match x with
  | NaN => false
  | Zero _ => true
  | Infinity s | Finite s _ _ => s
  end.

Definition gt_zero (x : number) : bool :=
  match x with
  | NaN | Zero _ => false
  | Infinity s | Finite s _ _ => negb s
  end.

(** ToIntegerOrInfinity on a finite Number: truncation towards zero. *)
Definition truncate (x : number) : Z :=
  match x with
  | Finite s m e => cond_Zopp s (mag_num m e / mag_den e)
  | _ => 0
  end.

Definition is_finite (x : number) : bool :=
  match x with
  | Zero _ | Finite _ _ _ => true
  | _ => false
  end.

(** The integer a Number denotes, when it is finite and integral. *)
Definition to_Z (x : number) : option Z :=
  match x with
  | Zero _ => Some 0
  | Finite s m e =>
      if mag_num m e mod mag_den e =? 0
      then Some (cond_Zopp s (mag_num m e / mag_den e))
      else None
  | _ => None
  end.

(** SameValueZero (ECMAScript 7.2.11): NaN equals NaN, and the two zeros
    are not told apart. *)
Definition unsigned_zero (x : number) : number :=
  match x with Zero _ => Zero false | _ => x end.

Definition same_value_zero (x y : number) : Prop :=
  unsigned_zero x = unsigned_zero y.

(** Number::equal, which [===] applies to two Numbers (ECMAScript
    6.1.6.1.13): NaN equals nothing, not even itself, and the two zeros
    are equal; otherwise two Numbers in normal form are equal when they
    are the same. *)
Definition equal (x y : number) : bool :=
  match x, y with
  | NaN, _ | _, NaN => false
  | Zero _, Zero _ => true
  | Infinity a, Infinity b => Bool.eqb a b
  | Finite a m e, Finite b m' e' => Bool.eqb a b && Pos.eqb m m' && (e =? e')
  | _, _ => false
  end.

(** [ge2 a b l]: the ratio [a/b] is at least [2^l]. *)
Definition ge2 (a b l : Z) : Prop := scale_den b l <= scale_num a l.

(** A finite Number in normal form: the significand has 53 bits, or the
    exponent is the least one.  Every double is of this form, and so is
    every result of the arithmetic above. *)
Definition canonical (x : number) : Prop :=
  match x with
  | Finite _ m e =>
      Zpos m < 2 ^ prec /\ emin <= e <= emax_finite /\
      (2 ^ (prec - 1) <= Zpos m \/ e = emin)
  | _ => True
  end.

(** [v] is canonical and, when finite and not zero, a whole number. *)
Definition integral (v : number) : Prop :=
  canonical v /\
  match v with
  | Finite s m e => exists n, 0 < n /\ mag_num m e = n * mag_den e
  | _ => True
  end.

End Number.

(** ** Errors and results

    The module raises errors built by [lib/errors] (not part of the
    sources at hand): named kinds carrying a payload.  [RangeError] and
    [TypeError] are the language's own. *)

Inductive error : Type :=
| InvalidRate (rate : Number.number)
| UnknownCode (code : string)
| InvalidArgument (message : string)
| RangeError
| TypeError.

Inductive result (A : Type) : Type :=
| Ok (a : A)
| Throw (e : error).

Arguments Ok {A} a.
Arguments Throw {A} e.

(** A value that is either [undefined] or a Number: what indexing a table
    entry yields, and what an omitted argument is. *)
Definition value := option Number.number.

Definition undefined : value := None.

Definition ToNumber (v : value) : Number.number :=
  match v with
  | Some n => n
  | None => Number.NaN
  end.

(** ** Decimal text *)

Module Text.

Import Number.

Definition digit_char (d : Z) : ascii := ascii_of_nat (Z.to_nat (48 + d)).

Definition digit_value (c : ascii) : option Z :=
  let n := Z.of_nat (nat_of_ascii c) in
  if (48 <=? n) && (n <=? 57) then Some (n - 48) else None.

(** Digits of [n >= 0], least significant first. *)
Fixpoint digits_le (fuel : nat) (n : Z) : list ascii :=
  match fuel with
  | O => []
  | S fuel' =>
      digit_char (n mod 10) ::
      (if n <? 10 then [] else digits_le fuel' (n / 10))
  end.

(** The decimal representation of [n >= 0], most significant digit first. *)
Definition decimal (n : Z) : list ascii :=
  rev (digits_le (S (Z.to_nat (Z.log2 n))) n).

(** Reads the longest run of decimal digits: their value added to
    [acc * 10^count], how many there were, and what follows them. *)
Fixpoint scan_digits (acc : Z) (cs : list ascii) : Z * nat * list ascii :=
  match cs with
  | c :: rest =>
      match digit_value c with
      | Some d =>
          let '(n, k, rest') := scan_digits (acc * 10 + d) rest in
          (n, S k, rest')
      | None => (acc, O, cs)
      end
  | [] => (acc, O, [])
  end.

Definition hex_value (c : ascii) : option Z :=
  let n := Z.of_nat (nat_of_ascii c) in
  if (48 <=? n) && (n <=? 57) then Some (n - 48)
  else if (65 <=? n) && (n <=? 70) then Some (n - 55)
  else if (97 <=? n) && (n <=? 102) then Some (n - 87)
  else None.

Fixpoint scan_hex (acc : Z) (cs : list ascii) : Z * nat * list ascii :=
  match cs with
  | c :: rest =>
      match hex_value c with
      | Some d =>
          let '(n, k, rest') := scan_hex (acc * 16 + d) rest in
          (n, S k, rest')
      | None => (acc, O, cs)
      end
  | [] => (acc, O, [])
  end.

(** White space and line terminators, as far as one-byte characters go. *)
Definition is_white_space (c : ascii) : bool :=
  let n := nat_of_ascii c in
  ((9 <=? n) && (n <=? 13))%nat || (n =? 32)%nat.

Fixpoint trim_start (cs : list ascii) : list ascii :=
  match cs with
  | c :: rest => if is_white_space c then trim_start rest else cs
  | [] => []
  end.

(** An optional sign: whether it was a minus, and what follows it. *)
Definition scan_sign (cs : list ascii) : bool * list ascii :=
  match cs with
  | c :: rest =>
      if Ascii.eqb c "-" then (true, rest)
      else if Ascii.eqb c "+" then (false, rest)
      else (false, cs)
  | [] => (false, [])
  end.

Fixpoint starts_with (p cs : list ascii) : bool :=
  match p, cs with
  | [], _ => true
  | a :: p', c :: cs' => Ascii.eqb a c && starts_with p' cs'
  | _ :: _, [] => false
  end.

(** A minus sign, or nothing. *)
Definition sign_text (neg : bool) : list ascii :=
  if neg then ["-"%char] else [].

(** Notions the proofs about the scanners use. *)

Definition is_digit (c : ascii) : Prop := digit_value c <> None.

(** Where a run of digits ends. *)
Definition stops (cs : list ascii) : Prop :=
  match cs with
  | [] => True
  | c :: _ => digit_value c = None
  end.

(** What may follow the leading digits in the texts [toFixed] produces. *)
Definition ends_number (rest : list ascii) : Prop :=
  match rest with
  | [] => True
  | c :: _ => c = "."%char \/ c = "e"%char
  end.

Definition digit_of (c : ascii) : Z :=
  match digit_value c with Some d => d | None => 0 end.

(** The number a list of digits denotes, continuing from [acc]. *)
Definition digits_value (acc : Z) (ds : list ascii) : Z :=
  fold_left (fun a c => a * 10 + digit_of c) ds acc.

End Text.

(** ** Built-in functions of the language used by the module *)

Module Builtin.

Import Number Text.

Definition number_eqb (x y : number) : bool :=
  match x, y with
  | NaN, NaN => true
  | Zero a, Zero b | Infinity a, Infinity b => Bool.eqb a b
  | Finite a m e, Finite b m' e' => Bool.eqb a b && Pos.eqb m m' && (e =? e')
  | _, _ => false
  end.

(** *** Number::toString, radix 10 (ECMAScript 6.1.6.1.20)

    For a positive finite [x = a/b] the language asks for integers
    [n], [k], [s] with [10^(k-1) <= s < 10^k], such that [s * 10^(n-k)]
    has Number value [x], and [k] as small as possible; among several
    [s], the one closest to [x]. *)

(** [n] with [10^(n-1) <= a/b < 10^n]. *)
Definition decimal_exponent (a b : Z) : Z :=
  if b <=? a then Z.of_nat (List.length (decimal (a / b)))
  else
    let c := Z.of_nat (List.length (decimal (b / a))) in
    if b <=? a * 10 ^ (c - 1) then 2 - c else 1 - c.

(** Numerator and denominator of [u * 10^p / v]. *)
Definition pow10_num (u p : Z) : Z := if p <? 0 then u else u * 10 ^ p.
Definition pow10_den (v p : Z) : Z := if p <? 0 then v * 10 ^ (- p) else v.

Definition digit_count (s : Z) : Z := Z.of_nat (List.length (decimal s)).

(** Whether [s * 10^(n-k)], with [k] the number of digits of [s], has
    Number value [x]. *)
Definition round_trips (x : number) (s n : Z) : bool :=
  let p := n - digit_count s in
  number_eqb (of_ratio false (pow10_num s p) (pow10_den 1 p)) x.

(** The [k]-digit candidates for [x = a/b] with decimal exponent [n]: the
    two integers around [x / 10^(n-k)]; the result is the chosen [s] and
    its decimal exponent. *)
Definition candidate (x : number) (a b n k : Z) : option (Z * Z) :=
  let num := pow10_num a (k - n) in
  let den := pow10_den b (k - n) in
  let lo := num / den in
  let hi := lo + 1 in
  let up := if hi =? 10 ^ k then (10 ^ (k - 1), n + 1) else (hi, n) in
  let lo_ok := round_trips x lo n in
  let hi_ok := round_trips x (fst up) (snd up) in
  let hi_closer :=
    match 2 * (num mod den) ?= den with
    | Lt => false
    | Gt => true
    | Eq => Z.odd lo
    end in
  if lo_ok && hi_ok then Some (if hi_closer then up else (lo, n))
  else if lo_ok then Some (lo, n)
  else if hi_ok then Some up
  else None.

(** Tries [k], [k+1], ... for [fuel] steps; when none is left, the exact
    decimal expansion is the answer. *)
Fixpoint shortest (fuel : nat) (x : number) (a b n k : Z) : Z * Z :=
  match fuel with
  | O => (pow10_num a (k - n) / pow10_den b (k - n), n)
  | S fuel' =>
      match candidate x a b n k with
      | Some sn => sn
      | None => shortest fuel' x a b n (k + 1)
      end
  end.

Definition zeros (count : Z) : list ascii := repeat "0"%char (Z.to_nat count).

Definition exponent_text (e : Z) : list ascii :=
  "e"%char :: (if e <? 0 then "-"%char else "+"%char) :: decimal (Z.abs e).

(** Steps 7 to 12: the text for the digits of [s] and the decimal
    exponent [n]. *)
Definition number_text (s n : Z) : list ascii :=
  let ds := decimal s in
  let k := Z.of_nat (List.length ds) in
  if (k <=? n) && (n <=? 21) then ds ++ zeros (n - k)
  else if (0 <? n) && (n <=? 21) then
    firstn (Z.to_nat n) ds ++ "."%char :: skipn (Z.to_nat n) ds
  else if (-6 <? n) && (n <=? 0) then
    "0"%char :: "."%char :: zeros (- n) ++ ds
  else
    match ds with
    | d :: (_ :: _) as more => d :: "."%char :: more ++ exponent_text (n - 1)
    | _ => ds ++ exponent_text (n - 1)
    end.

Definition ToString_chars (x : number) : list ascii :=
  match x with
  | NaN => list_ascii_of_string "NaN"
  | Zero _ => list_ascii_of_string "0"
  | Infinity s => sign_text s ++ list_ascii_of_string "Infinity"
  | Finite sg m e =>
      let a := mag_num m e in
      let b := mag_den e in
      let n := decimal_exponent a b in
      let exact := Z.max 1 (n + Z.max 0 (- e)) in
      let '(s, n') :=
        shortest (Z.to_nat (exact - 1)) (Finite false m e) a b n 1 in
      sign_text sg ++ number_text s n'
  end.

Definition ToString (x : number) : string :=
  string_of_list_ascii (ToString_chars x).

(** *** Number.prototype.toFixed (ECMAScript 21.1.3.3) *)

(** ToIntegerOrInfinity of the argument; [None] stands for an infinity. *)
Definition ToIntegerOrInfinity (v : value) : option Z :=
  match ToNumber v with
  | NaN | Zero _ => Some 0
  | Infinity _ => None
  | Finite s m e => Some (truncate (Finite s m e))
  end.

(** Step 10: the integer [n] for which [n / 10^f - a/b] is as close to
    zero as possible, the larger one if there are two. *)
Definition nearest_fixed (a b f : Z) : Z := (2 * a * 10 ^ f + b) / (2 * b).

(** Step 10, b to e: the digits of [n] with the point before the last
    [f] of them. *)
Definition fixed_text (n f : Z) : list ascii :=
  let m := decimal n in
  if f =? 0 then m
  else
    let k := Z.of_nat (List.length m) in
    let m := if k <=? f then zeros (f + 1 - k) ++ m else m in
    let k := if k <=? f then f + 1 else k in
    firstn (Z.to_nat (k - f)) m ++ "."%char :: skipn (Z.to_nat (k - f)) m.

Definition toFixed_chars (x : number) (f : Z) : list ascii :=
  match x with
  | Zero _ => fixed_text 0 f
  | Finite sg m e =>
      let a := mag_num m e in
      let b := mag_den e in
      sign_text sg ++
      (if 10 ^ 21 * b <=? a then ToString_chars (Finite false m e)
       else fixed_text (nearest_fixed a b f) f)
  | _ => ToString_chars x
  end.

Definition toFixed (x : number) (fractionDigits : value) : result string :=
  match ToIntegerOrInfinity fractionDigits with
  | None => Throw RangeError
  | Some f =>
      if (f <? 0) || (100 <? f) then Throw RangeError
      else Ok (string_of_list_ascii (toFixed_chars x f))
  end.

(** *** parseInt with the radix left out (ECMAScript 19.2.5)

    The digits are read for what they are, however many there are, and
    the integer is mapped to its Number value. *)

Definition parseInt_chars (cs : list ascii) : number :=
  let '(neg, cs) := scan_sign (trim_start cs) in
  let hex := starts_with (list_ascii_of_string "0x") cs
             || starts_with (list_ascii_of_string "0X") cs in
  let '(n, count, _) :=
    if hex then scan_hex 0 (skipn 2 cs) else scan_digits 0 cs in
  match count with
  | O => NaN
  | S _ => of_ratio neg n 1
  end.

Definition parseInt (s : string) : number :=
  parseInt_chars (list_ascii_of_string s).

(** *** parseFloat (ECMAScript 19.2.4)

    The longest prefix that is a StrDecimalLiteral: a sign, then
    [Infinity] or digits with an optional fraction and an optional
    exponent part.  The value read is mapped to its Number value, all
    its digits taken into account. *)

(** An exponent part, when [cs] starts with one: its value and the rest. *)
Definition scan_exponent (cs : list ascii) : Z * list ascii :=
  match cs with
  | c :: rest =>
      if Ascii.eqb c "e" || Ascii.eqb c "E" then
        let '(neg, rest') := scan_sign rest in
        let '(n, count, rest'') := scan_digits 0 rest' in
        match count with
        | O => (0, cs)
        | S _ => (if neg then - n else n, rest'')
        end
      else (0, cs)
  | [] => (0, [])
  end.

Definition parseFloat_chars (cs : list ascii) : number :=
  let '(neg, cs) := scan_sign (trim_start cs) in
  if starts_with (list_ascii_of_string "Infinity") cs then Infinity neg
  else
    let '(i, icount, after_int) := scan_digits 0 cs in
    let '(n, fcount, after_frac) :=
      match after_int with
      | c :: rest =>
          if Ascii.eqb c "." then scan_digits i rest else (i, O, after_int)
      | [] => (i, O, [])
      end in
    match icount, fcount with
    | O, O => NaN
    | _, _ =>
        let '(e, _) := scan_exponent after_frac in
        let p := e - Z.of_nat fcount in
        of_ratio neg (pow10_num n p) (pow10_den 1 p)
    end.

Definition parseFloat (s : string) : number :=
  parseFloat_chars (list_ascii_of_string s).

(** The Number read from the decimal [n * 10^p]. *)
Definition decimal_number (neg : bool) (n p : Z) : number :=
  of_ratio neg (pow10_num n p) (pow10_den 1 p).

(** What the search for the shortest digits guarantees of its result. *)
Definition found (x : number) (n : Z) (sn : Z * Z) : Prop :=
  round_trips x (fst sn) (snd sn) = true /\
  (snd sn = n \/ snd sn = n + 1) /\ 0 <= fst sn.

(** What the search returns for a whole number: digits that round-trip,
    no more of them than the number has. *)
Definition plain_digits (x : number) (n : Z) (sn : Z * Z) : Prop :=
  round_trips x (fst sn) (snd sn) = true /\ 0 <= fst sn /\
  digit_count (fst sn) <= n /\
  (snd sn = n \/
   (snd sn = n + 1 /\ exists k, 1 <= k <= n /\ fst sn = 10 ^ (k - 1))).

(** [parseInt(x.toFixed())] and [parseFloat(x.toFixed(f))], the two
    idioms of the module, on characters. *)
Definition stored (x : number) : number :=
  parseInt_chars (toFixed_chars x 0).

Definition shown (x : number) (f : Z) : number :=
  parseFloat_chars (toFixed_chars x f).

(** The value of [shown x f] in closed form. *)
Definition fixed_value (x : number) (f : Z) : number :=
  match x with
  | Zero _ => Zero false
  | Finite sg m e =>
      if 10 ^ 21 * mag_den e <=? mag_num m e then x
      else decimal_number sg (nearest_fixed (mag_num m e) (mag_den e) f) (- f)
  | _ => x
  end.

End Builtin.

(** ** lib/unit.js *)

Import Number Builtin.

Local Open Scope string_scope.

(** [var UNITS = { 'HC': [1e8, 8], ... }]: the own properties of the
    object literal, in insertion order, each an array of two Numbers. *)
Definition UNITS : list (string * list number) :=
  [ ("HC",    [of_Z 100000000; of_Z 8]);
    ("mHC",   [of_Z 100000;    of_Z 5]);
    ("uHC",   [of_Z 100;       of_Z 2]);
    ("bits",  [of_Z 100;       of_Z 2]);
    ("dbits", [of_Z 100;       of_Z 2]);
    ("atoms", [of_Z 1;         of_Z 0]) ].

(** The object literal inherits from [Object.prototype]; these are the
    properties found there (ECMAScript 20.1.3 and B.2.2). *)
Definition Object_prototype : list string :=
  [ "constructor"; "hasOwnProperty"; "isPrototypeOf";
    "propertyIsEnumerable"; "toLocaleString"; "toString"; "valueOf";
    "__proto__"; "__defineGetter__"; "__defineSetter__";
    "__lookupGetter__"; "__lookupSetter__" ].

(** What [UNITS[code]] evaluates to when it is not [undefined]: an array
    of the table, or an object found through the prototype chain (a
    built-in function, or [Object.prototype] itself for ["__proto__"]). *)
Inductive property : Type :=
| Entry (elements : list number)
| Inherited (name : string).

Fixpoint own_property (code : string) (table : list (string * list number))
  : option (list number) :=
  match table with
  | (key, entry) :: rest =>
      if String.eqb key code then Some entry else own_property code rest
  | [] => None
  end.

(** [UNITS[code]]; [None] is [undefined], the only falsy outcome. *)
Definition UNITS_get (code : string) : option property :=
  match own_property code UNITS with
  | Some entry => Some (Entry entry)
  | None =>
      if existsb (String.eqb code) Object_prototype
      then Some (Inherited code) else None
  end.

(** [p[i]]: an element of an array; the inherited objects have no
    indexed properties. *)
Definition element (p : property) (i : nat) : value :=
  match p with
  | Entry elements => nth_error elements i
  | Inherited _ => undefined
  end.

(** [Object.keys(UNITS)]. *)
Definition Object_keys_UNITS : list string := map fst UNITS.

(** [Unit[key] = key] for every key of the table: the static constants. *)
Definition Unit_HC : string := "HC".
Definition Unit_mHC : string := "mHC".
Definition Unit_uHC : string := "uHC".
Definition Unit_bits : string := "bits".
Definition Unit_dbits : string := "dbits".
Definition Unit_atoms : string := "atoms".

(** The second argument of the constructor and of [to]: a unit code or
    an exchange rate, told apart by [_.isNumber]. *)
Inductive arg : Type :=
| Code (code : string)
| Rate (rate : number).

(** An instance: its only data property is [_value]; it is [undefined]
    until the constructor assigns it. *)
Record Unit : Type := { _value : value }.

(** Methods run against [this]: they may read and write its properties
    and may throw. *)
Definition M (A : Type) : Type := Unit -> result A * Unit.

Definition ret {A} (a : A) : M A := fun this => (Ok a, this).

Definition throw {A} (e : error) : M A := fun this => (Throw e, this).

Definition bind {A B} (m : M A) (f : A -> M B) : M B :=
  fun this =>
    match m this with
    | (Ok a, this') => f a this'
    | (Throw e, this') => (Throw e, this')
    end.

Definition lift {A} (r : result A) : M A := fun this => (r, this).

Definition read_value : M value := fun this => (Ok (_value this), this).

Definition write_value (v : value) : M unit :=
  fun _ => (Ok tt, {| _value := v |}).

Declare Scope method_scope.
Delimit Scope method_scope with method.
Notation "x <- m ;; k" := (bind m (fun x => k))
  (at level 61, m at next level, right associativity) : method_scope.
Local Open Scope method_scope.

(** The outcome of a call and the receiver after it. *)
Definition outcome {A} (m : M A) (this : Unit) : result A := fst (m this).
Definition after {A} (m : M A) (this : Unit) : Unit := snd (m this).

(** [Unit.prototype._from] *)
Definition _from (amount : number) (code : string) : M number :=
  match UNITS_get code with
  | None => throw (UnknownCode code)
  | Some p =>
      text <- lift (toFixed (mul amount (ToNumber (element p 0))) undefined) ;;
      ret (parseInt text)
  end.

(** [Unit.prototype.to], the branch taken for a string. *)
Definition to_code (code : string) : M number :=
  match UNITS_get code with
  | None => throw (UnknownCode code)
  | Some p =>
      v <- read_value ;;
      let value := div (ToNumber v) (ToNumber (element p 0)) in
      text <- lift (toFixed value (element p 1)) ;;
      ret (parseFloat text)
  end.

(** The accessors the constructor defines, one for each key of the table:
    [get: function() { return self.to(key); }]. *)
Definition accessor (key : string) : M number := to_code key.

(** [Unit.prototype.to] *)
Definition to (code : arg) : M number :=
  match code with
  | Rate rate =>
      if le_zero rate then throw (InvalidRate rate)
      else
        hc <- accessor "HC" ;;
        text <- lift (toFixed (mul hc rate) (Some (of_Z 2))) ;;
        ret (parseFloat text)
  | Code code => to_code code
  end.

(** The constructor, run against a fresh object. *)
Definition Unit_constructor (amount : number) (code : arg) : M unit :=
  ac <- match code with
        | Rate rate =>
            if le_zero rate then throw (InvalidRate rate)
            else ret (div amount rate, Unit_HC)
        | Code code => ret (amount, code)
        end ;;
  v <- _from (fst ac) (snd ac) ;;
  write_value (Some v).

(** [new Unit(amount, code)], which is also what [Unit(amount, code)]
    returns when called without [new]. *)
Definition new_Unit (amount : number) (code : arg) : result Unit :=
  match Unit_constructor amount code {| _value := undefined |} with
  | (Ok _, this) => Ok this
  | (Throw e, _) => Throw e
  end.

(** Modelled from the spec: [$.checkArgument(condition, message)] of
    [lib/util/preconditions], which is not among the sources; it fails
    fast with an argument error when the condition does not hold. *)
Definition checkArgument (condition : bool) (message : string) : result unit :=
  if condition then Ok tt else Throw (InvalidArgument message).

(** What [fromObject] may be handed: a primitive, or an object with the
    keys [amount] and [code], a Number and a string or a Number as the
    constructor documents them. *)
Inductive data : Type :=
| Undefined
| Null
| Boolean (b : bool)
| Num (n : number)
| Str (s : string)
| Object (amount : number) (code : arg).

(** [_.isObject] *)
Definition isObject (d : data) : bool :=
  match d with
  | Object _ _ => true
  | _ => false
  end.

Definition fromObject (d : data) : result Unit :=
  match checkArgument (isObject d) "Argument is expected to be an object" with
  | Throw e => Throw e
  | Ok _ =>
      match d with
      | Object amount code => new_Unit amount code
      | _ => Throw TypeError (* not reached: [checkArgument] has thrown *)
      end
  end.

Definition fromHC (amount : number) : result Unit :=
  new_Unit amount (Code Unit_HC).

Definition fromMillis (amount : number) : result Unit :=
  new_Unit amount (Code Unit_mHC).

Definition fromMilis := fromMillis.

Definition fromMicros (amount : number) : result Unit :=
  new_Unit amount (Code Unit_dbits).

Definition fromDbits := fromMicros.

Definition fromAtoms (amount : number) : result Unit :=
  new_Unit amount (Code Unit_atoms).

Definition fromFiat (amount rate : number) : result Unit :=
  new_Unit amount (Rate rate).

Definition toHC : M number := to (Code Unit_HC).

Definition toMillis : M number := to (Code Unit_mHC).

Definition toMilis := toMillis.

Definition toMicros : M number := to (Code Unit_dbits).

Definition toDbits := toMicros.

Definition toAtoms : M number := to (Code Unit_atoms).

Definition atRate (rate : number) : M number := to (Rate rate).

(** [this.atoms + ' atoms'] *)
Definition toString : M string :=
  atoms <- accessor "atoms" ;;
  ret (ToString atoms ++ " atoms").

(** The plain object [{ amount: ..., code: ... }]. *)
Record plain : Type := { amount : number; code : string }.

Definition toObject : M plain :=
  hc <- accessor "HC" ;;
  ret {| amount := hc; code := Unit_HC |}.

Definition toJSON := toObject.

Definition inspect : M string :=
  text <- toString ;;
  ret ("<Unit: " ++ text ++ ">").

(** ** Calls and their effect on the receiver

    A caller holds an instance and invokes its methods one after the
    other, catching what they throw. *)

Inductive call : Type :=
| Call_to (a : arg)
| Call_toHC
| Call_toMillis
| Call_toMilis
| Call_toMicros
| Call_toDbits
| Call_toAtoms
| Call_atRate (rate : number)
| Call_get (key : string)
| Call_toString
| Call_toObject
| Call_toJSON
| Call_inspect.

Inductive answer : Type :=
| A_number (n : number)
| A_string (s : string)
| A_plain (o : plain)
| A_undefined.

Definition as_number (m : M number) : M answer :=
  n <- m ;; ret (A_number n).

Definition as_string (m : M string) : M answer :=
  s <- m ;; ret (A_string s).

Definition as_plain (m : M plain) : M answer :=
  o <- m ;; ret (A_plain o).

Definition perform (c : call) : M answer :=
  match c with
  | Call_to a => as_number (to a)
  | Call_toHC => as_number toHC
  | Call_toMillis => as_number toMillis
  | Call_toMilis => as_number toMilis
  | Call_toMicros => as_number toMicros
  | Call_toDbits => as_number toDbits
  | Call_toAtoms => as_number toAtoms
  | Call_atRate rate => as_number (atRate rate)
  | Call_get key =>
      if existsb (String.eqb key) Object_keys_UNITS
      then as_number (accessor key) else ret A_undefined
  | Call_toString => as_string toString
  | Call_toObject => as_plain toObject
  | Call_toJSON => as_plain toJSON
  | Call_inspect => as_string inspect
  end.

(** The outcomes of the calls, in order, and the receiver at the end. *)
Fixpoint perform_all (cs : list call) (this : Unit)
  : list (result answer) * Unit :=
  match cs with
  | [] => ([], this)
  | c :: rest =>
      let '(r, this') := perform c this in
      let '(rs, this'') := perform_all rest this' in
      (r :: rs, this'')
  end.

(** A method that leaves its receiver as it found it. *)
Definition preserves {A} (m : M A) : Prop := forall this, after m this = this.

(** ** The specification's vocabulary *)

Module Spec.

(** The real number a finite Number stands for. *)
Definition exact (x : number) : Q :=
  match x with
  | Finite s m e => Qmake (cond_Zopp s (mag_num m e)) (Z.to_pos (mag_den e))
  | _ => inject_Z 0
  end.

(** "Round half away from zero to the nearest integer". *)
Definition round_half_away_from_zero (q : Q) : Z :=
  Z.sgn (Qnum q) * Qfloor (Qplus (Qabs q) (Qmake 1 2)).

(** [round_to_precision x p]: [x] rounded to [p] decimal digits, half
    away from zero; the result is the Number nearest to that decimal. *)
Definition round_to_precision (x : number) (p : Z) : number :=
  match x with
  | Finite s _ _ =>
      let n := round_half_away_from_zero (Qmult (exact x) (inject_Z (10 ^ p))) in
      of_ratio s (Z.abs n) (10 ^ p)
  | _ => x
  end.

(** [x] is finite and [|x| < bound]. *)
Definition magnitude_below (x : number) (bound : Z) : Prop :=
  is_finite x = true /\ Qlt (Qabs (exact x)) (inject_Z bound).

(** The product the constructor rounds to an integer: the amount times
    the scale factor of its unit, a fiat amount being first divided by
    the rate. *)
Definition ingested (amount : number) (c : arg) : number :=
  match c with
  | Code code =>
      match UNITS_get code with
      | Some p => mul amount (ToNumber (element p 0))
      | None => NaN
      end
  | Rate rate => mul (div amount rate) (of_Z 100000000)
  end.

(** A code of the table, with its scale factor and display precision. *)
Definition known (code : string) (scale precision : number) : Prop :=
  In (code, [scale; precision]) UNITS.

(** The scale factors and the display precisions, in the order of the
    table. *)
Definition scale_factor (entry : string * list number) : Z :=
  truncate (nth 0 (snd entry) NaN).

Definition display_precision (entry : string * list number) : Z :=
  truncate (nth 1 (snd entry) NaN).

(** The codes that share the scale factor 100. *)
Definition micro_codes : list string := ["uHC"; "bits"; "dbits"].

End Spec.

(** * Properties *)

(** ** Number values: rounding is exact on Numbers *)

Module NumberFacts.

Import Number.
Local Open Scope list_scope.
Local Open Scope Z_scope.


Lemma scale_num_eq a e : scale_num a e = a * 2 ^ Z.max (- e) 0.
Proof.
  unfold scale_num. destruct (Z.ltb_spec e 0).
  - now rewrite Z.max_l by lia.
  - rewrite Z.max_r by lia. now rewrite Z.mul_1_r.
Qed.

Lemma scale_den_eq b e : scale_den b e = b * 2 ^ Z.max e 0.
Proof.
  unfold scale_den. destruct (Z.ltb_spec e 0).
  - rewrite Z.max_r by lia. now rewrite Z.mul_1_r.
  - now rewrite Z.max_l by lia.
Qed.

Lemma scale_num_pos a e : 0 < a -> 0 < scale_num a e.
Proof.
  intros. rewrite scale_num_eq. apply Z.mul_pos_pos; auto.
  apply Z.pow_pos_nonneg; lia.
Qed.

Lemma scale_den_pos b e : 0 < b -> 0 < scale_den b e.
Proof.
  intros. rewrite scale_den_eq. apply Z.mul_pos_pos; auto.
  apply Z.pow_pos_nonneg; lia.
Qed.

(** Comparing [b * 2^x] with [a * 2^y] only depends on [x - y]. *)
Lemma shift_le a b x y u v :
  0 <= x -> 0 <= y -> 0 <= u -> 0 <= v -> x + v = u + y ->
  b * 2 ^ x <= a * 2 ^ y <-> b * 2 ^ u <= a * 2 ^ v.
Proof.
  intros Hx Hy Hu Hv E.
  assert (Pv : 0 < 2 ^ v) by (apply Z.pow_pos_nonneg; lia).
  assert (Py : 0 < 2 ^ y) by (apply Z.pow_pos_nonneg; lia).
  rewrite (Z.mul_le_mono_pos_r (b * 2 ^ x) (a * 2 ^ y) (2 ^ v) Pv).
  rewrite (Z.mul_le_mono_pos_r (b * 2 ^ u) (a * 2 ^ v) (2 ^ y) Py).
  rewrite <- !Z.mul_assoc, <- !Z.pow_add_r by lia.
  rewrite E, (Z.add_comm y v). reflexivity.
Qed.


Lemma ge2_iff a b l x y :
  0 <= x -> 0 <= y -> x - y = l ->
  ge2 a b l <-> b * 2 ^ x <= a * 2 ^ y.
Proof.
  intros Hx Hy E. unfold ge2. rewrite scale_num_eq, scale_den_eq.
  apply shift_le; lia.
Qed.

Lemma ge2_mono a b j k : 0 < b -> j <= k -> ge2 a b k -> ge2 a b j.
Proof.
  intros Hb Hjk H.
  set (y := Z.abs j + Z.abs k).
  rewrite (ge2_iff a b k (k + y) y) in H by lia.
  rewrite (ge2_iff a b j (j + y) y) by lia.
  eapply Z.le_trans; [ | exact H ].
  apply Z.mul_le_mono_nonneg_l; [ lia | ].
  apply Z.pow_le_mono_r; lia.
Qed.

Lemma ge2_scaled a b e d :
  0 <= d -> ge2 a b (e + d) <-> scale_den b e * 2 ^ d <= scale_num a e.
Proof.
  intros Hd. rewrite scale_num_eq, scale_den_eq.
  rewrite (ge2_iff a b (e + d) (Z.max e 0 + d) (Z.max (- e) 0)) by lia.
  rewrite Z.pow_add_r, Z.mul_assoc by lia. reflexivity.
Qed.

Lemma ilog2_ratio_spec a b :
  0 < a -> 0 < b ->
  ge2 a b (ilog2_ratio a b) /\ ~ ge2 a b (ilog2_ratio a b + 1).
Proof.
  intros Ha Hb.
  destruct (Z.log2_spec a Ha) as [La Ua].
  destruct (Z.log2_spec b Hb) as [Lb Ub].
  pose proof (Z.log2_nonneg a) as Na.
  pose proof (Z.log2_nonneg b) as Nb.
  set (la := Z.log2 a) in *. set (lb := Z.log2 b) in *.
  assert (Pa : 0 < 2 ^ la) by (apply Z.pow_pos_nonneg; lia).
  assert (Pb : 0 < 2 ^ lb) by (apply Z.pow_pos_nonneg; lia).
  assert (Hi : ~ ge2 a b (la - lb + 1)).
  { rewrite (ge2_iff a b _ (Z.succ la) lb) by lia. nia. }
  assert (Lo : ge2 a b (la - lb - 1)).
  { rewrite (ge2_iff a b _ la (Z.succ lb)) by lia. nia. }
  unfold ilog2_ratio. fold la lb.
  destruct (Z.leb_spec (scale_den b (la - lb)) (scale_num a (la - lb))) as [H|H].
  - split; [ exact H | exact Hi ].
  - split; [ exact Lo | ].
    replace (la - lb - 1 + 1) with (la - lb) by lia. unfold ge2. lia.
Qed.

Lemma round_nearest_even_bounds A B :
  A / B <= round_nearest_even A B <= A / B + 1.
Proof.
  unfold round_nearest_even.
  destruct (2 * (A mod B) ?= B); [ destruct (Z.even (A / B)) | | ]; lia.
Qed.

Lemma round_nearest_even_exact q B :
  0 < B -> round_nearest_even (q * B) B = q.
Proof.
  intros HB. unfold round_nearest_even.
  rewrite Z.div_mul, Z.mod_mul by lia.
  destruct (Z.compare_spec (2 * 0) B); try lia.
Qed.


Lemma of_ratio_canonical neg a b : 0 < b -> canonical (of_ratio neg a b).
Proof.
  intros Hb. unfold of_ratio.
  destruct (Z.leb_spec a 0) as [Ha|Ha]; [ exact I | ].
  destruct (ilog2_ratio_spec a b Ha Hb) as [Lo Hi].
  set (l := ilog2_ratio a b) in *.
  set (e := Z.max emin (l - (prec - 1))).
  pose proof (scale_den_pos b e Hb) as PB.
  set (A := scale_num a e) in *. set (B := scale_den b e) in *.
  pose proof (round_nearest_even_bounds A B) as Hr.
  set (m := round_nearest_even A B) in *.
  assert (Up : A / B < 2 ^ prec).
  { apply Z.div_lt_upper_bound; [ exact PB | ].
    assert (N : ~ ge2 a b (e + prec)).
    { intro G. apply Hi. apply (ge2_mono a b _ (e + prec)); auto.
      unfold e, prec. lia. }
    rewrite ge2_scaled in N by (unfold prec; lia). fold A B in N. lia. }
  destruct (Z.eqb_spec m (2 ^ prec)) as [E|E].
  - change (2 ^ (prec - 1)) with (Zpos (Z.to_pos (2 ^ (prec - 1)))).
    cbv iota beta.
    destruct (Z.ltb_spec emax_finite (e + 1)); [ exact I | ].
    simpl. unfold emin, emax_finite, prec in *. lia.
  - destruct m as [ | p | p ] eqn:Em; try exact I.
    destruct (Z.ltb_spec emax_finite e); [ exact I | ].
    cbn [canonical]. split; [ set (P := 2 ^ prec) in *; lia | ].
    split; [ unfold e, emin in *; lia | ].
    destruct (Z.eq_dec e emin) as [Q|Q]; [ now right | left ].
    assert (El : l = e + (prec - 1)) by (unfold e in *; lia).
    rewrite El in Lo. rewrite ge2_scaled in Lo by (unfold prec; lia).
    fold A B in Lo.
    assert (2 ^ (prec - 1) <= A / B).
    { apply Z.div_le_lower_bound; [ exact PB | lia ]. }
    destruct (Z.eq_dec (Z.pos p) (A / B)) as [Q'|Q']; [ rewrite Q'; assumption | ].
    set (P := 2 ^ (prec - 1)) in *. lia.
Qed.

Lemma mag_num_pos m e : 0 < mag_num m e.
Proof. apply scale_num_pos. lia. Qed.

Lemma mag_den_pos e : 0 < mag_den e.
Proof. apply scale_den_pos. lia. Qed.

(** The Number value of a ratio that is a canonical Number is that
    Number. *)
Lemma of_ratio_exact neg m e a b :
  canonical (Finite neg m e) -> 0 < b ->
  a * mag_den e = mag_num m e * b ->
  of_ratio neg a b = Finite neg m e.
Proof.
  intros (Hm & He & Hn) Hb E.
  pose proof (mag_num_pos m e) as Pn. pose proof (mag_den_pos e) as Pd.
  assert (Ha : 0 < a) by nia.
  (* the scaled ratio is the significand *)
  assert (S : scale_num a e = Zpos m * scale_den b e).
  { unfold mag_num, mag_den in E. rewrite scale_num_eq, scale_den_eq in *.
    rewrite Z.opp_involutive in E.
    destruct (Z.le_gt_cases 0 e).
    - rewrite (Z.max_r (- e) 0), (Z.max_l e 0) in * by lia.
      rewrite Z.pow_0_r in *. nia.
    - rewrite (Z.max_l (- e) 0), (Z.max_r e 0) in * by lia.
      rewrite Z.pow_0_r in *. nia. }
  pose proof (scale_den_pos b e Hb) as PB.
  assert (G : forall d, 0 <= d -> ge2 a b (e + d) <-> 2 ^ d <= Zpos m).
  { intros d Hd. rewrite ge2_scaled by lia. rewrite S. split; intro; nia. }
  destruct (ilog2_ratio_spec a b Ha Hb) as [Lo Hi].
  set (l := ilog2_ratio a b) in *.
  assert (El : Z.max emin (l - (prec - 1)) = e).
  { destruct Hn as [Hn|Hn].
    - (* normal: l = e + 52 *)
      assert (l = e + (prec - 1)); [ | lia ].
      destruct (Z.lt_trichotomy l (e + (prec - 1))) as [C|[C|C]]; auto.
      + exfalso. apply Hi. apply (ge2_mono a b _ (e + (prec - 1))); [auto|lia|].
        apply G; [ unfold prec; lia | exact Hn ].
      + exfalso. assert (ge2 a b (e + prec)).
        { apply (ge2_mono a b _ l); auto. unfold prec in *; lia. }
        apply G in H; [ lia | unfold prec; lia ].
    - (* subnormal: l < emin + 52 *)
      destruct (Z.le_gt_cases l (e + (prec - 1))) as [C|C]; [ lia | ].
      exfalso. assert (ge2 a b (e + prec)).
      { apply (ge2_mono a b _ l); auto. unfold prec in *; lia. }
      apply G in H; [ lia | unfold prec; lia ]. }
  unfold of_ratio. destruct (Z.leb_spec a 0); [ lia | ].
  fold l. rewrite El, S, round_nearest_even_exact by exact PB.
  destruct (Z.eqb_spec (Zpos m) (2 ^ prec)); [ lia | ].
  destruct (Z.ltb_spec emax_finite e); [ lia | reflexivity ].
Qed.

(** Every canonical Number is the Number value of its own magnitude. *)
Lemma of_ratio_self neg m e :
  canonical (Finite neg m e) ->
  of_ratio neg (mag_num m e) (mag_den e) = Finite neg m e.
Proof.
  intros C. apply of_ratio_exact; auto using mag_den_pos.
Qed.

Lemma of_ratio_sign neg a b :
  of_ratio neg a b =
  match of_ratio false a b with
  | Zero _ => Zero neg
  | Infinity _ => Infinity neg
  | Finite _ m e => Finite neg m e
  | NaN => NaN
  end.
Proof.
  unfold of_ratio. destruct (a <=? 0); [ reflexivity | ].
  destruct (if _ =? _ then _ else _); try reflexivity.
  destruct (_ <? _); reflexivity.
Qed.

(** Positive integers below [2^53] are Numbers. *)
Lemma of_ratio_small_integer neg n :
  0 < n < 2 ^ prec ->
  exists m e, of_ratio neg n 1 = Finite neg m e /\ canonical (Finite neg m e) /\
              mag_num m e = n * mag_den e.
Proof.
  intros [Hn Hu].
  destruct (Z.log2_spec n Hn) as [Lo Hi].
  pose proof (Z.log2_nonneg n) as Nn.
  assert (Hl : Z.log2 n < prec).
  { apply Z.log2_lt_pow2; auto. }
  set (k := prec - 1 - Z.log2 n).
  assert (Hk : 0 <= k) by (unfold k; lia).
  assert (Pk : 0 < 2 ^ k) by (apply Z.pow_pos_nonneg; lia).
  assert (Em : exists m, Zpos m = n * 2 ^ k).
  { exists (Z.to_pos (n * 2 ^ k)). rewrite Z2Pos.id; nia. }
  destruct Em as [m Em]. exists m, (- k).
  assert (Mn : mag_num m (- k) = Zpos m).
  { unfold mag_num, scale_num. rewrite Z.opp_involutive.
    destruct (Z.ltb_spec k 0); [ lia | reflexivity ]. }
  assert (Md : mag_den (- k) = 2 ^ k).
  { unfold mag_den, scale_den. rewrite Z.opp_involutive.
    destruct (Z.ltb_spec k 0); lia. }
  assert (C : canonical (Finite neg m (- k))).
  { cbn [canonical]. rewrite Em.
    assert (2 ^ (prec - 1) = 2 ^ Z.log2 n * 2 ^ k).
    { rewrite <- Z.pow_add_r by lia. f_equal. unfold k. lia. }
    assert (2 ^ prec = 2 ^ Z.succ (Z.log2 n) * 2 ^ k).
    { rewrite <- Z.pow_add_r by lia. f_equal. unfold k. lia. }
    split; [ nia | ]. split; [ unfold k, emin, emax_finite, prec in *; lia | ].
    left. nia. }
  split; [ | split; [ exact C | rewrite Mn, Md; exact Em ] ].
  apply of_ratio_exact; [ exact C | lia | ]. rewrite Mn, Md. lia.
Qed.

(** Dividing a canonical Number by one gives it back. *)
Lemma div_one x : canonical x -> div x (of_Z 1) = x.
Proof.
  replace (of_Z 1) with (Finite false 4503599627370496 (-52))
    by (vm_compute; reflexivity).
  destruct x as [s|s| |s m e]; intros C; cbn [div];
    rewrite ?xorb_false_r; try reflexivity.
  apply of_ratio_exact; auto.
  - apply Z.mul_pos_pos; [ apply mag_den_pos | apply mag_num_pos ].
  - change (mag_den (-52)) with 4503599627370496.
    change (mag_num 4503599627370496 (-52)) with 4503599627370496. ring.
Qed.


End NumberFacts.

(** ** Decimal text: printing and scanning digits *)

Module TextFacts.

Import Number Text NumberFacts.
Local Open Scope list_scope.
Local Open Scope Z_scope.



Lemma digit_value_char d : 0 <= d <= 9 -> digit_value (digit_char d) = Some d.
Proof.
  intros H.
  assert (C : d = 0 \/ d = 1 \/ d = 2 \/ d = 3 \/ d = 4 \/ d = 5 \/ d = 6 \/
              d = 7 \/ d = 8 \/ d = 9) by lia.
  repeat (destruct C as [C|C]; [ subst d; reflexivity | ]).
  subst d; reflexivity.
Qed.

Lemma digit_char_is_digit d : 0 <= d <= 9 -> is_digit (digit_char d).
Proof. intros H. unfold is_digit. now rewrite digit_value_char. Qed.

Lemma scan_digits_stop acc cs : stops cs -> scan_digits acc cs = (acc, O, cs).
Proof.
  destruct cs as [ | c cs ]; simpl; [ reflexivity | ].
  intros ->. reflexivity.
Qed.

Lemma scan_digits_app ds :
  Forall is_digit ds ->
  forall acc rest,
    stops rest ->
    scan_digits acc (ds ++ rest) = (digits_value acc ds, List.length ds, rest).
Proof.
  induction 1 as [ | c ds Hc Hds IH ]; intros acc rest Hr.
  - simpl. apply scan_digits_stop, Hr.
  - simpl. unfold is_digit in Hc. unfold digits_value. simpl.
    unfold digit_of at 2.
    destruct (digit_value c) as [d| ]; [ | congruence ].
    fold (digits_value (acc * 10 + d) ds). now rewrite IH.
Qed.

Lemma digits_value_app acc ds es :
  digits_value acc (ds ++ es) = digits_value (digits_value acc ds) es.
Proof. apply fold_left_app. Qed.

Lemma digits_le_digits fuel : forall n, 0 <= n -> Forall is_digit (digits_le fuel n).
Proof.
  induction fuel as [ | fuel IH ]; intros n Hn; simpl; constructor.
  - apply digit_char_is_digit. pose proof (Z.mod_pos_bound n 10). lia.
  - destruct (Z.ltb_spec n 10); [ constructor | ].
    apply IH. apply Z.div_pos; lia.
Qed.

Lemma digits_le_value fuel :
  forall n acc,
    0 <= n < 2 ^ Z.of_nat fuel ->
    digits_value acc (rev (digits_le fuel n)) =
    acc * 10 ^ Z.of_nat (List.length (digits_le fuel n)) + n.
Proof.
  induction fuel as [ | fuel IH ]; intros n acc Hn.
  - simpl in *. lia.
  - cbn [digits_le rev List.length]. rewrite digits_value_app.
    cbn [digits_value fold_left]. unfold digit_of.
    rewrite digit_value_char by (pose proof (Z.mod_pos_bound n 10); lia).
    destruct (Z.ltb_spec n 10) as [S|L].
    + cbn [rev digits_value fold_left List.length].
      rewrite Z.mod_small by lia. change (10 ^ Z.of_nat 1) with 10. lia.
    + rewrite IH.
      * rewrite Nat2Z.inj_succ, Z.pow_succ_r by lia.
        pose proof (Z.div_mod n 10). lia.
      * rewrite Nat2Z.inj_succ, Z.pow_succ_r in Hn by lia.
        split; [ apply Z.div_pos; lia | ].
        apply Z.div_lt_upper_bound; lia.
Qed.

Lemma decimal_fuel n : 0 <= n -> 0 <= n < 2 ^ Z.of_nat (S (Z.to_nat (Z.log2 n))).
Proof.
  intros Hn. split; [ exact Hn | ].
  rewrite Nat2Z.inj_succ, Z2Nat.id by apply Z.log2_nonneg.
  destruct (Z.eq_dec n 0) as [->|N]; [ reflexivity | ].
  apply Z.log2_spec. lia.
Qed.

Lemma decimal_digits n : 0 <= n -> Forall is_digit (decimal n).
Proof.
  intros Hn. unfold decimal. apply Forall_rev. now apply digits_le_digits.
Qed.

Lemma decimal_value n acc :
  0 <= n ->
  digits_value acc (decimal n) = acc * 10 ^ Z.of_nat (List.length (decimal n)) + n.
Proof.
  intros Hn. unfold decimal. rewrite length_rev.
  apply digits_le_value. now apply decimal_fuel.
Qed.

Lemma decimal_nonempty n : decimal n <> [].
Proof.
  unfold decimal. cbn [digits_le rev]. intros E.
  apply app_eq_nil in E. destruct E as [_ E]. discriminate.
Qed.

(** A number with more than [j] digits. *)
Lemma digits_le_long fuel :
  forall n j, 0 <= j -> 10 ^ j <= n < 2 ^ Z.of_nat fuel ->
              j + 1 <= Z.of_nat (List.length (digits_le fuel n)).
Proof.
  induction fuel as [ | fuel IH ]; intros n j Hj [Lo Hi].
  - simpl in Hi. assert (0 < 10 ^ j) by (apply Z.pow_pos_nonneg; lia). lia.
  - cbn [digits_le List.length]. rewrite Nat2Z.inj_succ.
    destruct (Z.eq_dec j 0) as [->|Nj]; [ lia | ].
    assert (E : 10 ^ j = 10 * 10 ^ (j - 1)).
    { rewrite <- Z.pow_succ_r by lia. f_equal. lia. }
    assert (0 < 10 ^ (j - 1)) by (apply Z.pow_pos_nonneg; lia).
    destruct (Z.ltb_spec n 10); [ lia | ].
    specialize (IH (n / 10) (j - 1)).
    rewrite Nat2Z.inj_succ, Z.pow_succ_r in Hi by lia.
    assert (j - 1 + 1 <= Z.of_nat (List.length (digits_le fuel (n / 10)))).
    { apply IH; [ lia | ]. split.
      - apply Z.div_le_lower_bound; lia.
      - apply Z.div_lt_upper_bound; lia. }
    lia.
Qed.

Lemma decimal_long n j :
  0 <= j -> 10 ^ j <= n -> j + 1 <= Z.of_nat (List.length (decimal n)).
Proof.
  intros Hj Hn. unfold decimal. rewrite length_rev.
  assert (0 < 10 ^ j) by (apply Z.pow_pos_nonneg; lia).
  apply digits_le_long; [ exact Hj | ].
  split; [ exact Hn | apply decimal_fuel; lia ].
Qed.



(** A digit is none of the characters the scanners look for. *)
Lemma digit_plain c :
  is_digit c ->
  is_white_space c = false /\ Ascii.eqb c "-" = false /\
  Ascii.eqb c "+" = false /\ Ascii.eqb c "." = false /\
  Ascii.eqb c "e" = false /\ Ascii.eqb c "E" = false /\
  Ascii.eqb c "x" = false /\ Ascii.eqb c "X" = false /\
  Ascii.eqb c "I" = false.
Proof.
  unfold is_digit.
  destruct c as [[] [] [] [] [] [] [] []]; intros H;
    try (exfalso; apply H; reflexivity); repeat split; reflexivity.
Qed.


Lemma ends_number_stops rest : ends_number rest -> stops rest.
Proof.
  destruct rest as [ | c rest ]; simpl; [ trivial | ].
  intros [-> | ->]; reflexivity.
Qed.

Lemma scan_sign_text neg c cs :
  is_digit c ->
  scan_sign (trim_start (sign_text neg ++ c :: cs)) = (neg, c :: cs).
Proof.
  intros Hc. destruct (digit_plain c Hc) as (W & M & P & _).
  destruct neg; cbn [sign_text app trim_start].
  - change (is_white_space "-") with false. reflexivity.
  - rewrite W. cbn [scan_sign]. now rewrite M, P.
Qed.

Lemma not_hex ds rest :
  Forall is_digit ds -> ends_number rest ->
  starts_with (list_ascii_of_string "0x") (ds ++ rest) = false /\
  starts_with (list_ascii_of_string "0X") (ds ++ rest) = false.
Proof.
  intros Hds Hr.
  assert (R : forall c r, ends_number (c :: r) ->
                Ascii.eqb "0" c = false /\ Ascii.eqb "x" c = false /\
                Ascii.eqb "X" c = false).
  { intros c r [-> | ->]; repeat split; reflexivity. }
  assert (D : forall c, is_digit c ->
                Ascii.eqb "x" c = false /\ Ascii.eqb "X" c = false).
  { intros c Hc. destruct (digit_plain c Hc) as (_&_&_&_&_&_&X1&X2&_).
    rewrite !(Ascii.eqb_sym _ c). auto. }
  change (list_ascii_of_string "0x") with ["0"; "x"]%char.
  change (list_ascii_of_string "0X") with ["0"; "X"]%char.
  destruct Hds as [ | d ds Hd Hds ]; cbn [app].
  - destruct rest as [ | c rest ]; [ auto | ].
    destruct (R c rest Hr) as (Z0 & _). cbn [starts_with]. now rewrite Z0.
  - destruct Hds as [ | d' ds Hd' Hds ]; cbn [app].
    + destruct rest as [ | c rest ]; cbn [starts_with].
      * rewrite !andb_false_r. auto.
      * destruct (R c rest Hr) as (_ & X1 & X2).
        rewrite X1, X2, !andb_false_r. auto.
    + destruct (D d' Hd') as [X1 X2]. cbn [starts_with].
      rewrite X1, X2, !andb_false_r. auto.
Qed.

(** [parseInt] on a signed run of digits. *)
Lemma parseInt_digits neg ds rest :
  Forall is_digit ds -> ds <> [] -> ends_number rest ->
  parseInt_chars (sign_text neg ++ ds ++ rest) =
  of_ratio neg (digits_value 0 ds) 1.
Proof.
  intros Hds Hne Hr. unfold parseInt_chars.
  destruct ds as [ | d ds ]; [ congruence | ].
  change ((d :: ds) ++ rest) with (d :: (ds ++ rest)).
  rewrite scan_sign_text by (now inversion Hds).
  change (d :: (ds ++ rest)) with ((d :: ds) ++ rest).
  destruct (not_hex (d :: ds) rest Hds Hr) as [-> ->].
  cbn [orb]. rewrite scan_digits_app by auto using ends_number_stops.
  reflexivity.
Qed.


Lemma scan_exponent_nil : scan_exponent [] = (0, []).
Proof. reflexivity. Qed.

Lemma not_Infinity d cs :
  is_digit d -> starts_with (list_ascii_of_string "Infinity") (d :: cs) = false.
Proof.
  intros D. destruct (digit_plain d D) as (_&_&_&_&_&_&_&_&I).
  change (list_ascii_of_string "Infinity")
    with ("I"%char :: list_ascii_of_string "nfinity").
  cbn [starts_with]. now rewrite (Ascii.eqb_sym _ d), I.
Qed.

(** [parseFloat] on [-ddd.ddd]. *)
Lemma parseFloat_fixed neg ip fp :
  Forall is_digit ip -> ip <> [] -> Forall is_digit fp ->
  parseFloat_chars (sign_text neg ++ ip ++ "."%char :: fp) =
  decimal_number neg (digits_value 0 (ip ++ fp)) (- Z.of_nat (List.length fp)).
Proof.
  intros Hi Hne Hf. unfold parseFloat_chars.
  destruct ip as [ | d ip ]; [ congruence | ].
  change ((d :: ip) ++ "."%char :: fp) with (d :: (ip ++ "."%char :: fp)).
  rewrite scan_sign_text by (now inversion Hi).
  rewrite not_Infinity by (now inversion Hi).
  change (d :: (ip ++ "."%char :: fp)) with ((d :: ip) ++ "."%char :: fp).
  rewrite scan_digits_app by (auto; reflexivity).
  cbn [Ascii.eqb Bool.eqb].
  rewrite <- (app_nil_r fp) at 1.
  rewrite scan_digits_app by (auto; exact I).
  rewrite <- digits_value_app, scan_exponent_nil.
  destruct (List.length fp); reflexivity.
Qed.

(** [parseFloat] on a signed run of digits. *)
Lemma parseFloat_integer neg ds :
  Forall is_digit ds -> ds <> [] ->
  parseFloat_chars (sign_text neg ++ ds) =
  decimal_number neg (digits_value 0 ds) 0.
Proof.
  intros Hi Hne. unfold parseFloat_chars.
  destruct ds as [ | d ds ]; [ congruence | ].
  rewrite scan_sign_text by (now inversion Hi).
  rewrite not_Infinity by (now inversion Hi).
  rewrite <- (app_nil_r (d :: ds)) at 1.
  rewrite scan_digits_app by (auto; exact I).
  rewrite scan_exponent_nil. reflexivity.
Qed.


End TextFacts.

(** ** [toFixed] followed by [parseInt] or [parseFloat] *)

Module BuiltinFacts.

Import Number Text Builtin NumberFacts TextFacts Spec.
Local Open Scope list_scope.
Local Open Scope Z_scope.


Lemma zeros_digits j : Forall is_digit (zeros j).
Proof.
  unfold zeros. induction (Z.to_nat j); simpl; constructor; auto.
  unfold is_digit. discriminate.
Qed.

Lemma zeros_value j : digits_value 0 (zeros j) = 0.
Proof. unfold zeros. induction (Z.to_nat j); simpl; auto. Qed.

Lemma zeros_length j : 0 <= j -> Z.of_nat (List.length (zeros j)) = j.
Proof. intros. unfold zeros. rewrite repeat_length. lia. Qed.

Lemma decimal_value0 n : 0 <= n -> digits_value 0 (decimal n) = n.
Proof. intros. rewrite decimal_value by assumption. lia. Qed.

(** The text of [n] with [f > 0] digits after the point. *)
Lemma fixed_text_shape n f :
  0 <= n -> 0 < f ->
  exists ip fp,
    fixed_text n f = ip ++ "."%char :: fp /\
    Forall is_digit ip /\ ip <> [] /\ Forall is_digit fp /\
    Z.of_nat (List.length fp) = f /\ digits_value 0 (ip ++ fp) = n.
Proof.
  intros Hn Hf. unfold fixed_text.
  destruct (Z.eqb_spec f 0); [ lia | ].
  set (m := decimal n). set (k := Z.of_nat (List.length m)).
  set (m' := if k <=? f then zeros (f + 1 - k) ++ m else m).
  set (k' := if k <=? f then f + 1 else k).
  assert (Dm : Forall is_digit m') .
  { unfold m', m. destruct (k <=? f); [ apply Forall_app; split | ];
      auto using zeros_digits, decimal_digits. }
  assert (Lm : Z.of_nat (List.length m') = k').
  { unfold m', k'. destruct (Z.leb_spec k f); [ | reflexivity ].
    rewrite length_app, Nat2Z.inj_add, zeros_length by lia. fold k. lia. }
  assert (Vm : digits_value 0 m' = n).
  { unfold m', m. destruct (k <=? f).
    - rewrite digits_value_app, zeros_value. now apply decimal_value0.
    - now apply decimal_value0. }
  assert (Hk : f < k') by (unfold k'; destruct (Z.leb_spec k f); lia).
  exists (firstn (Z.to_nat (k' - f)) m'), (skipn (Z.to_nat (k' - f)) m').
  rewrite <- (firstn_skipn (Z.to_nat (k' - f)) m') in Dm.
  apply Forall_app in Dm. destruct Dm as [D1 D2].
  repeat split; auto.
  - intros E. apply (f_equal (@List.length ascii)) in E.
    rewrite length_firstn in E. simpl in E. lia.
  - rewrite length_skipn. lia.
  - now rewrite firstn_skipn.
Qed.

Lemma pow10_num_zero n : pow10_num n 0 = n.
Proof. unfold pow10_num. simpl. lia. Qed.

Lemma parseFloat_fixed_text neg n f :
  0 <= n -> 0 <= f ->
  parseFloat_chars (sign_text neg ++ fixed_text n f) = decimal_number neg n (- f).
Proof.
  intros Hn Hf. destruct (Z.eq_dec f 0) as [->|Nf].
  - unfold fixed_text. cbn [Z.eqb].
    rewrite parseFloat_integer by auto using decimal_digits, decimal_nonempty.
    now rewrite decimal_value0.
  - destruct (fixed_text_shape n f Hn) as (ip & fp & -> & Di & Ni & Df & Lf & V);
      [ lia | ].
    rewrite parseFloat_fixed by assumption. now rewrite V, Lf.
Qed.

Lemma parseInt_fixed_text neg n :
  0 <= n ->
  parseInt_chars (sign_text neg ++ fixed_text n 0) = of_ratio neg n 1.
Proof.
  intros Hn. unfold fixed_text. cbn [Z.eqb].
  rewrite <- (app_nil_r (decimal n)).
  rewrite parseInt_digits by (auto using decimal_digits, decimal_nonempty; exact I).
  now rewrite decimal_value0.
Qed.

(** *** The exponential notation *)

Lemma scan_exponent_text E rest :
  0 <= E -> rest = [] ->
  scan_exponent (exponent_text E ++ rest) = (E, []).
Proof.
  intros HE ->. rewrite app_nil_r. unfold exponent_text.
  destruct (Z.ltb_spec E 0); [ lia | ].
  rewrite Z.abs_eq by lia.
  cbn [scan_exponent Ascii.eqb Bool.eqb orb scan_sign].
  rewrite <- (app_nil_r (decimal E)).
  rewrite scan_digits_app by (auto using decimal_digits; exact I).
  rewrite decimal_value0 by lia.
  pose proof (decimal_nonempty E). destruct (decimal E); [ congruence | reflexivity ].
Qed.

Lemma exponent_text_ends E : ends_number (exponent_text E).
Proof. right. reflexivity. Qed.

Lemma number_text_exponential s n :
  21 < n ->
  number_text s n =
  match decimal s with
  | d :: (_ :: _) as more => d :: "."%char :: more ++ exponent_text (n - 1)
  | ds => ds ++ exponent_text (n - 1)
  end.
Proof.
  intros Hn. unfold number_text.
  destruct (Z.leb_spec n 21); [ lia | ].
  destruct (Z.leb_spec n 0); [ lia | ].
  rewrite !andb_false_r. destruct (decimal s) as [ | d [ | d' ds ] ]; reflexivity.
Qed.

Lemma parseFloat_exponential neg s n :
  0 <= s -> 21 < n ->
  parseFloat_chars (sign_text neg ++ number_text s n) =
  decimal_number neg s (n - digit_count s).
Proof.
  intros Hs Hn. rewrite number_text_exponential by assumption.
  unfold digit_count.
  pose proof (decimal_digits s Hs) as D.
  pose proof (decimal_value0 s Hs) as V.
  pose proof (decimal_nonempty s) as N.
  destruct (decimal s) as [ | d [ | d' ds ] ]; [ congruence | | ].
  - (* one digit *)
    unfold parseFloat_chars. cbn [app].
    rewrite scan_sign_text by (now inversion D).
    rewrite not_Infinity by (now inversion D).
    change (d :: exponent_text (n - 1)) with ([d] ++ exponent_text (n - 1)).
    rewrite scan_digits_app by (auto; reflexivity).
    unfold exponent_text at 1. cbn [Ascii.eqb Bool.eqb].
    rewrite <- (app_nil_r (exponent_text (n - 1))).
    rewrite scan_exponent_text by (auto; lia).
    rewrite V. cbn [List.length]. unfold decimal_number. f_equal; f_equal; lia.
  - unfold parseFloat_chars.
    change (d :: "."%char :: ?l) with ([d] ++ "."%char :: l).
    change (sign_text neg ++ [d] ++ ?l) with (sign_text neg ++ d :: l).
    rewrite scan_sign_text by (now inversion D).
    rewrite not_Infinity by (now inversion D).
    change (d :: "."%char :: ?l) with ([d] ++ "."%char :: l).
    assert (Dd : Forall is_digit [d]) by (constructor; [ now inversion D | constructor ]).
    assert (Dm : Forall is_digit (d' :: ds)) by (now inversion D).
    rewrite (scan_digits_app [d] Dd) by reflexivity.
    cbn [Ascii.eqb Bool.eqb].
    rewrite (scan_digits_app (d' :: ds) Dm)
      by apply ends_number_stops, exponent_text_ends.
    rewrite <- (app_nil_r (exponent_text (n - 1))).
    rewrite scan_exponent_text by (auto; lia).
    change (digits_value (digits_value 0 [d]) (d' :: ds))
      with (digits_value 0 (d :: d' :: ds)).
    rewrite V. unfold decimal_number.
    replace (n - 1 - Z.of_nat (List.length (d' :: ds)))
      with (n - Z.of_nat (List.length (d :: d' :: ds)));
      [ reflexivity | cbn [List.length]; lia ].
Qed.

Lemma digit_of_range c : 0 <= digit_of c <= 9.
Proof.
  unfold digit_of, digit_value.
  destruct (_ && _) eqn:E; [ | lia ].
  apply andb_true_iff in E. destruct E as [A B].
  apply Z.leb_le in A. apply Z.leb_le in B. lia.
Qed.

Lemma parseInt_exponential neg s n :
  0 <= s -> 21 < n ->
  exists d, 0 <= d <= 9 /\
    parseInt_chars (sign_text neg ++ number_text s n) = of_ratio neg d 1.
Proof.
  intros Hs Hn. rewrite number_text_exponential by assumption.
  pose proof (decimal_digits s Hs) as D.
  pose proof (decimal_nonempty s) as N.
  destruct (decimal s) as [ | d [ | d' ds ] ]; [ congruence | | ];
    exists (digit_of d); (split; [ apply digit_of_range | ]).
  - rewrite parseInt_digits; auto using exponent_text_ends; discriminate.
  - change (d :: "."%char :: ?l) with ([d] ++ "."%char :: l).
    rewrite parseInt_digits; auto; try discriminate.
    + constructor; [ now inversion D | constructor ].
    + left. reflexivity.
Qed.



Lemma number_eqb_eq x y : number_eqb x y = true -> x = y.
Proof.
  destruct x, y; simpl; try discriminate; auto.
  - intros H. apply Bool.eqb_prop in H. now subst.
  - intros H. apply Bool.eqb_prop in H. now subst.
  - intros H. apply andb_true_iff in H. destruct H as [H E].
    apply andb_true_iff in H. destruct H as [S M].
    apply Bool.eqb_prop in S. apply Pos.eqb_eq in M. apply Z.eqb_eq in E.
    now subst.
Qed.

Lemma number_eqb_refl x : number_eqb x x = true.
Proof.
  destruct x; simpl; auto using Bool.eqb_reflx.
  now rewrite Bool.eqb_reflx, Pos.eqb_refl, Z.eqb_refl.
Qed.

Lemma pow10_num_nonneg a p : 0 <= a -> 0 <= pow10_num a p.
Proof.
  intros. unfold pow10_num. destruct (p <? 0); [ assumption | ].
  apply Z.mul_nonneg_nonneg; [ assumption | apply Z.pow_nonneg; lia ].
Qed.

Lemma pow10_den_pos b p : 0 < b -> 0 < pow10_den b p.
Proof.
  intros. unfold pow10_den. destruct (Z.ltb_spec p 0); [ | assumption ].
  apply Z.mul_pos_pos; [ assumption | apply Z.pow_pos_nonneg; lia ].
Qed.


Lemma candidate_found x a b n k sn :
  0 <= a -> 0 < b -> 1 <= k ->
  candidate x a b n k = Some sn -> found x n sn.
Proof.
  intros Ha Hb Hk. unfold candidate.
  set (num := pow10_num a (k - n)). set (den := pow10_den b (k - n)).
  assert (Hlo : 0 <= num / den).
  { apply Z.div_pos; [ now apply pow10_num_nonneg | now apply pow10_den_pos ]. }
  set (lo := num / den) in *.
  set (up := if lo + 1 =? 10 ^ k then (10 ^ (k - 1), n + 1) else (lo + 1, n)).
  assert (Hup : (snd up = n \/ snd up = n + 1) /\ 0 <= fst up).
  { unfold up. destruct (lo + 1 =? 10 ^ k); simpl.
    - split; [ now right | apply Z.pow_nonneg; lia ].
    - split; [ now left | lia ]. }
  destruct (round_trips x lo n) eqn:L;
    destruct (round_trips x (fst up) (snd up)) eqn:U; cbn [andb].
  - destruct (match _ ?= _ with Lt => _ | _ => _ end);
      intros E; injection E as <-; unfold found; simpl; intuition.
  - intros E; injection E as <-; unfold found; simpl; intuition.
  - intros E; injection E as <-; unfold found; intuition.
  - discriminate.
Qed.

Lemma shortest_found x a b n fuel :
  0 <= a -> 0 < b ->
  forall k,
    1 <= k ->
    found x n (pow10_num a (k + Z.of_nat fuel - n) /
               pow10_den b (k + Z.of_nat fuel - n), n) ->
    found x n (shortest fuel x a b n k).
Proof.
  intros Ha Hb. induction fuel as [ | fuel IH ]; intros k Hk F.
  - simpl in *. now rewrite Z.add_0_r in F.
  - cbn [shortest]. destruct (candidate x a b n k) as [sn| ] eqn:C.
    + eapply candidate_found; eauto.
    + apply IH; [ lia | ].
      replace (k + 1 + Z.of_nat fuel) with (k + Z.of_nat (S fuel)) by lia.
      exact F.
Qed.

(** A canonical Number of magnitude at least [10^21] is an integer with
    a positive exponent. *)
Lemma large_integer m e :
  Zpos m < 2 ^ prec -> 10 ^ 21 * mag_den e <= mag_num m e ->
  0 < e /\ mag_den e = 1 /\ 10 ^ 21 <= mag_num m e.
Proof.
  intros Hm H. unfold mag_num, mag_den, scale_num, scale_den in *.
  change (2 ^ prec) with 9007199254740992 in Hm.
  change (10 ^ 21) with 1000000000000000000000 in *.
  destruct (Z.ltb_spec (- e) 0) as [N|N].
  - repeat split; lia.
  - assert (0 < 2 ^ (- e)) by (apply Z.pow_pos_nonneg; lia). nia.
Qed.

Lemma shortest_large m e :
  canonical (Finite false m e) ->
  10 ^ 21 * mag_den e <= mag_num m e ->
  let a := mag_num m e in
  let b := mag_den e in
  let n := decimal_exponent a b in
  let exact := Z.max 1 (n + Z.max 0 (- e)) in
  let sn := shortest (Z.to_nat (exact - 1)) (Finite false m e) a b n 1 in
  round_trips (Finite false m e) (fst sn) (snd sn) = true /\
  21 < snd sn /\ 0 <= fst sn.
Proof.
  intros C H a b n exact sn.
  destruct (large_integer m e (proj1 C) H) as (He & Eb & Ha).
  fold a b in Eb, Ha.
  assert (En : n = digit_count a).
  { unfold n, decimal_exponent, digit_count. rewrite Eb.
    destruct (Z.leb_spec 1 a); [ | lia ]. now rewrite Z.div_1_r. }
  assert (Hn : 22 <= n).
  { rewrite En. unfold digit_count.
    pose proof (decimal_long a 21 ltac:(lia) Ha). lia. }
  assert (Ee : exact = n) by (unfold exact; lia).
  assert (F : found (Finite false m e) n sn).
  { unfold sn. apply shortest_found; try lia.
    rewrite Z2Nat.id, Ee by lia.
    replace (1 + (n - 1) - n) with 0 by lia.
    rewrite pow10_num_zero. unfold pow10_den. cbn [Z.ltb Z.compare].
    rewrite Eb, Z.div_1_r. unfold found, round_trips. cbn [fst snd].
    repeat split; [ | now left | lia ].
    rewrite <- En, Z.sub_diag, pow10_num_zero. unfold pow10_den.
    cbn [Z.ltb Z.compare].
    rewrite (of_ratio_exact false m e a 1 C); [ apply number_eqb_refl | lia | ].
    fold a b. rewrite Eb. ring. }
  destruct F as (R & N & S). repeat split; auto. lia.
Qed.




Lemma nearest_fixed_nonneg a b f : 0 <= a -> 0 < b -> 0 <= nearest_fixed a b f.
Proof.
  intros. unfold nearest_fixed. apply Z.div_pos; [ | lia ].
  assert (0 <= 10 ^ f) by (apply Z.pow_nonneg; lia). nia.
Qed.

Lemma decimal_number_sign neg n p m e :
  decimal_number false n p = Finite false m e ->
  decimal_number neg n p = Finite neg m e.
Proof.
  unfold decimal_number. intros E. rewrite of_ratio_sign, E. reflexivity.
Qed.

Lemma ToString_large sg m e :
  canonical (Finite false m e) ->
  10 ^ 21 * mag_den e <= mag_num m e ->
  exists s n, ToString_chars (Finite false m e) = number_text s n /\
              0 <= s /\ 21 < n /\
              decimal_number sg s (n - digit_count s) = Finite sg m e.
Proof.
  intros C H. pose proof (shortest_large m e C H) as S. cbv zeta in S.
  unfold ToString_chars.
  destruct (shortest _ _ _ _ _ _) as [s n]. cbn [fst snd] in S.
  destruct S as (R & N & P). exists s, n. repeat split; auto.
  apply decimal_number_sign. apply number_eqb_eq. exact R.
Qed.

Lemma parseFloat_toFixed x f :
  canonical x -> 0 <= f ->
  parseFloat_chars (toFixed_chars x f) = fixed_value x f.
Proof.
  intros C Hf. destruct x as [s|s| |sg m e].
  - cbn [toFixed_chars fixed_value].
    change (fixed_text 0 f) with (sign_text false ++ fixed_text 0 f).
    rewrite (parseFloat_fixed_text false 0 f) by lia.
    unfold decimal_number, of_ratio, pow10_num.
    destruct (- f <? 0); reflexivity.
  - destruct s; reflexivity.
  - reflexivity.
  - cbn [toFixed_chars fixed_value].
    destruct (Z.leb_spec (10 ^ 21 * mag_den e) (mag_num m e)) as [L|S].
    + destruct (ToString_large sg m e C L) as (s & n & -> & Hs & Hn & E).
      now rewrite parseFloat_exponential.
    + apply parseFloat_fixed_text; [ | exact Hf ].
      apply nearest_fixed_nonneg; [ pose proof (mag_num_pos m e); lia | apply mag_den_pos ].
Qed.

(** What [parseInt(x.toFixed())] evaluates to. *)
Lemma parseInt_toFixed x :
  canonical x ->
  match x with
  | Zero _ => parseInt_chars (toFixed_chars x 0) = Zero false
  | Finite sg m e =>
      if 10 ^ 21 * mag_den e <=? mag_num m e
      then exists d, 0 <= d <= 9 /\
                     parseInt_chars (toFixed_chars x 0) = of_ratio sg d 1
      else parseInt_chars (toFixed_chars x 0) =
           of_ratio sg (nearest_fixed (mag_num m e) (mag_den e) 0) 1
  | _ => parseInt_chars (toFixed_chars x 0) = NaN
  end.
Proof.
  intros C. destruct x as [s|s| |sg m e].
  - reflexivity.
  - destruct s; reflexivity.
  - reflexivity.
  - cbn [toFixed_chars].
    destruct (Z.leb_spec (10 ^ 21 * mag_den e) (mag_num m e)) as [L|S].
    + destruct (ToString_large sg m e C L) as (s & n & -> & Hs & Hn & E).
      now apply parseInt_exponential.
    + apply parseInt_fixed_text.
      apply nearest_fixed_nonneg; [ pose proof (mag_num_pos m e); lia | apply mag_den_pos ].
Qed.

(** *** Numbers that denote integers *)

Lemma to_Z_value s m e n :
  mag_num m e = n * mag_den e -> to_Z (Finite s m e) = Some (cond_Zopp s n).
Proof.
  intros E. pose proof (mag_den_pos e). unfold to_Z. rewrite E.
  rewrite Z.mod_mul, Z.div_mul by lia. reflexivity.
Qed.

Lemma to_Z_unsigned_zero x : to_Z (unsigned_zero x) = to_Z x.
Proof. destruct x; reflexivity. Qed.

(** An integer-valued canonical Number is the Number value of its
    integer. *)
Lemma of_ratio_integer s m e n :
  canonical (Finite s m e) -> mag_num m e = n * mag_den e ->
  of_ratio s n 1 = Finite s m e.
Proof.
  intros C E. apply of_ratio_exact; auto; lia.
Qed.


Lemma integral_small neg n : 0 <= n < 2 ^ prec -> integral (of_ratio neg n 1).
Proof.
  intros [L U]. destruct (Z.eq_dec n 0) as [->|N].
  - split; exact I.
  - destruct (of_ratio_small_integer neg n) as (m & e & -> & C & V); [ lia | ].
    split; [ exact C | exists n; split; [ lia | exact V ] ].
Qed.

(** The nearest integer to a canonical Number below [10^21]. *)
Lemma nearest_integer_cases m e :
  Zpos m < 2 ^ prec ->
  let N := nearest_fixed (mag_num m e) (mag_den e) 0 in
  (0 <= N < 2 ^ prec) \/ (mag_den e = 1 /\ N = mag_num m e).
Proof.
  intros Hm N. unfold N, nearest_fixed, mag_num, mag_den, scale_num, scale_den.
  rewrite Z.pow_0_r, Z.mul_1_r, Z.opp_involutive, Z.mul_1_l.
  set (P := 2 ^ prec) in *.
  destruct (Z.ltb_spec (- e) 0) as [Q|Q].
  - right. split; [ reflexivity | ].
    symmetry. apply (Z.div_unique _ _ _ 1); lia.
  - left. assert (0 < 2 ^ (- e)) by (apply Z.pow_pos_nonneg; lia).
    set (b := 2 ^ (- e)) in *. split.
    + apply Z.div_pos; lia.
    + apply Z.div_lt_upper_bound; [ lia | ]. nia.
Qed.

Lemma integral_parseInt_toFixed x :
  canonical x -> integral (parseInt_chars (toFixed_chars x 0)).
Proof.
  intros C. pose proof (parseInt_toFixed x C) as H.
  destruct x as [s|s| |sg m e]; try (rewrite H; split; exact I).
  destruct (Z.leb_spec (10 ^ 21 * mag_den e) (mag_num m e)) as [L|S].
  - destruct H as (d & Hd & ->). apply integral_small.
    change (2 ^ prec) with 9007199254740992. lia.
  - rewrite H.
    destruct (nearest_integer_cases m e (proj1 C)) as [B|[D E]].
    + now apply integral_small.
    + rewrite E.
      assert (V : mag_num m e = mag_num m e * mag_den e) by (rewrite D; ring).
      rewrite (of_ratio_integer sg m e _ C V).
      split; [ exact C | ]. exists (mag_num m e).
      split; [ apply mag_num_pos | exact V ].
Qed.

Lemma nearest_fixed_integer n b : 0 < b -> nearest_fixed (n * b) b 0 = n.
Proof.
  intros Hb. unfold nearest_fixed. rewrite Z.pow_0_r, Z.mul_1_r.
  symmetry. apply (Z.div_unique _ _ _ b); lia.
Qed.

(** [parseFloat(v.toFixed(0))] of an integral [v] is [v]. *)
Lemma fixed_value_integral v :
  integral v -> same_value_zero (fixed_value v 0) v.
Proof.
  intros [C V]. destruct v as [s|s| |sg m e]; try reflexivity.
  destruct V as (n & Hn & E). unfold same_value_zero. f_equal.
  cbn [fixed_value].
  destruct (10 ^ 21 * mag_den e <=? mag_num m e); [ reflexivity | ].
  rewrite E, nearest_fixed_integer by apply mag_den_pos.
  unfold decimal_number. cbn [Z.opp]. rewrite pow10_num_zero.
  change (pow10_den 1 0) with 1.
  apply of_ratio_integer; assumption.
Qed.

Lemma mul_canonical x y : canonical (mul x y).
Proof.
  destruct x, y; try exact I. cbn [mul].
  apply of_ratio_canonical, mag_den_pos.
Qed.

Lemma div_canonical x y : canonical (div x y).
Proof.
  destruct x, y; try exact I. cbn [div].
  apply of_ratio_canonical.
  apply Z.mul_pos_pos; [ apply mag_den_pos | apply mag_num_pos ].
Qed.

Lemma parseFloat_canonical cs : canonical (parseFloat_chars cs).
Proof.
  unfold parseFloat_chars.
  destruct (scan_sign _) as [neg r].
  destruct (starts_with _ _); [ exact I | ].
  destruct (scan_digits 0 r) as [[i ic] ai].
  destruct (match ai with [] => _ | _ => _ end) as [[n fc] af].
  destruct (scan_exponent af) as [ex ?].
  assert (canonical (of_ratio neg (pow10_num n (ex - Z.of_nat fc))
                              (pow10_den 1 (ex - Z.of_nat fc)))).
  { apply of_ratio_canonical, pow10_den_pos. lia. }
  destruct ic, fc; auto; exact I.
Qed.



Lemma Zpos_mag_den e : Zpos (Z.to_pos (mag_den e)) = mag_den e.
Proof. apply Z2Pos.id, mag_den_pos. Qed.

Lemma cond_Zopp_abs s n : 0 <= n -> Z.abs (cond_Zopp s n) = n.
Proof. destruct s; simpl; lia. Qed.

Lemma round_scaled s m e f :
  0 <= f ->
  round_half_away_from_zero (Qmult (exact (Finite s m e)) (inject_Z (10 ^ f))) =
  cond_Zopp s (nearest_fixed (mag_num m e) (mag_den e) f).
Proof.
  intros Hf. pose proof (mag_num_pos m e) as Pa. pose proof (mag_den_pos e) as Pb.
  assert (Pf : 0 < 10 ^ f) by (apply Z.pow_pos_nonneg; lia).
  unfold round_half_away_from_zero, exact, nearest_fixed.
  cbn [Qmult inject_Z Qnum Qden Qabs Qplus Qfloor].
  rewrite !Pos2Z.inj_mul, Zpos_mag_den.
  set (a := mag_num m e) in *. set (b := mag_den e) in *. set (t := 10 ^ f) in *.
  replace (cond_Zopp s a * t) with (cond_Zopp s (a * t)) by (destruct s; simpl; lia).
  rewrite cond_Zopp_abs by nia.
  replace ((a * t * 2 + 1 * (b * 1)) / (b * 1 * 2)) with ((2 * a * t + b) / (2 * b))
    by (f_equal; lia).
  assert (0 <= (2 * a * t + b) / (2 * b)) by (apply Z.div_pos; nia).
  destruct s; cbn [cond_Zopp]; [ | nia ].
  assert (Z.sgn (- (a * t)) = -1) by (apply Z.sgn_neg; nia). lia.
Qed.

Lemma round_unscaled s m e :
  round_half_away_from_zero (exact (Finite s m e)) =
  cond_Zopp s (nearest_fixed (mag_num m e) (mag_den e) 0).
Proof.
  pose proof (mag_num_pos m e) as Pa. pose proof (mag_den_pos e) as Pb.
  unfold round_half_away_from_zero, exact, nearest_fixed.
  cbn [inject_Z Qnum Qden Qabs Qplus Qfloor].
  rewrite !Pos2Z.inj_mul, Zpos_mag_den, Z.pow_0_r.
  set (a := mag_num m e) in *. set (b := mag_den e) in *.
  rewrite cond_Zopp_abs by lia.
  replace ((a * 2 + 1 * b) / (b * 2)) with ((2 * a * 1 + b) / (2 * b))
    by (f_equal; lia).
  assert (0 <= (2 * a * 1 + b) / (2 * b)) by (apply Z.div_pos; nia).
  destruct s; cbn [cond_Zopp]; [ | nia ].
  assert (Z.sgn (- a) = -1) by (apply Z.sgn_neg; nia). lia.
Qed.

Lemma magnitude_below_finite s m e bound :
  magnitude_below (Finite s m e) bound <-> mag_num m e < bound * mag_den e.
Proof.
  unfold magnitude_below, exact. cbn [is_finite Qabs].
  unfold Qlt. cbn [inject_Z Qnum Qden]. rewrite Zpos_mag_den.
  rewrite cond_Zopp_abs by (pose proof (mag_num_pos m e); lia).
  intuition lia.
Qed.

Lemma pow10_neg n f :
  0 <= f -> pow10_num n (- f) = n /\ pow10_den 1 (- f) = 10 ^ f.
Proof.
  intros Hf. unfold pow10_num, pow10_den.
  destruct (Z.ltb_spec (- f) 0).
  - rewrite Z.opp_involutive. lia.
  - replace f with 0 by lia. simpl. lia.
Qed.

(** [parseFloat(x.toFixed(f))] is [x] rounded to [f] decimal digits. *)
Lemma fixed_value_spec x f :
  canonical x -> 0 <= f ->
  same_value_zero (fixed_value x f) (round_to_precision x f).
Proof.
  intros C Hf. destruct x as [s|s| |s m e]; try reflexivity.
  unfold same_value_zero. f_equal.
  cbn [fixed_value round_to_precision].
  rewrite round_scaled by exact Hf.
  pose proof (mag_num_pos m e) as Pa. pose proof (mag_den_pos e) as Pb.
  rewrite cond_Zopp_abs by (apply nearest_fixed_nonneg; lia).
  destruct (Z.leb_spec (10 ^ 21 * mag_den e) (mag_num m e)) as [L|S].
  - destruct (large_integer m e (proj1 C) L) as (He & Eb & Ha).
    assert (Pf : 0 < 10 ^ f) by (apply Z.pow_pos_nonneg; lia).
    symmetry. apply of_ratio_exact; auto.
    unfold nearest_fixed. rewrite Eb.
    replace (2 * mag_num m e * 10 ^ f + 1) with (mag_num m e * 10 ^ f * 2 + 1) by ring.
    rewrite <- (Z.div_unique (mag_num m e * 10 ^ f * 2 + 1) (2 * 1) (mag_num m e * 10 ^ f) 1);
      lia.
  - unfold decimal_number. destruct (pow10_neg (nearest_fixed (mag_num m e) (mag_den e) f) f Hf)
      as [-> ->]. reflexivity.
Qed.


End BuiltinFacts.

(** ** The constructor and the conversions, step by step *)

Module UnitFacts.

Import Number Text Builtin NumberFacts TextFacts BuiltinFacts Spec.
Local Open Scope list_scope.
Local Open Scope Z_scope.

(** *** What is stored is a whole number, or NaN *)

Lemma stored_not_finite x : is_finite x = false -> stored x = NaN.
Proof. destruct x as [s|[]| |]; try discriminate; reflexivity. Qed.

Lemma stored_integral x : canonical x -> integral (stored x).
Proof. apply integral_parseInt_toFixed. Qed.

Lemma to_Z_small neg n :
  0 <= n < 2 ^ prec -> to_Z (of_ratio neg n 1) = Some (cond_Zopp neg n).
Proof.
  intros [L U]. destruct (Z.eq_dec n 0) as [->|N]; [ now destruct neg | ].
  destruct (of_ratio_small_integer neg n) as (m & e & -> & _ & V); [ lia | ].
  now apply to_Z_value.
Qed.

(** The integer value of what is stored for a Number below [10^21]. *)
Lemma stored_value sg m e :
  canonical (Finite sg m e) ->
  mag_num m e < 10 ^ 21 * mag_den e ->
  to_Z (stored (Finite sg m e)) =
  Some (cond_Zopp sg (nearest_fixed (mag_num m e) (mag_den e) 0)).
Proof.
  intros C B. pose proof (parseInt_toFixed _ C) as H. cbv beta iota in H.
  destruct (Z.leb_spec (10 ^ 21 * mag_den e) (mag_num m e)); [ lia | ].
  unfold stored. rewrite H.
  destruct (nearest_integer_cases m e (proj1 C)) as [S|[D E]].
  - now apply to_Z_small.
  - rewrite E.
    assert (V : mag_num m e = mag_num m e * mag_den e) by (rewrite D; ring).
    rewrite (of_ratio_integer sg m e _ C V). now apply to_Z_value.
Qed.

Lemma stored_finite x :
  canonical x -> is_finite x = true -> exists n, to_Z (stored x) = Some n.
Proof.
  intros C F. destruct x as [s|s| |sg m e]; try discriminate.
  - exists 0. reflexivity.
  - pose proof (parseInt_toFixed _ C) as H. cbv beta iota in H.
    destruct (Z.leb_spec (10 ^ 21 * mag_den e) (mag_num m e)) as [L|S].
    + destruct H as (d & Hd & H). unfold stored. rewrite H.
      eexists. apply to_Z_small. change (2 ^ prec) with 9007199254740992. lia.
    + eexists. now apply stored_value.
Qed.

Lemma shown_integral v : integral v -> same_value_zero (shown v 0) v.
Proof.
  intros I. unfold shown. rewrite parseFloat_toFixed by (apply I || lia).
  now apply fixed_value_integral.
Qed.

Lemma shown_spec x f :
  canonical x -> 0 <= f ->
  same_value_zero (shown x f) (round_to_precision x f).
Proof.
  intros C Hf. unfold shown. rewrite parseFloat_toFixed by assumption.
  now apply fixed_value_spec.
Qed.

Lemma same_value_zero_to_Z x y : same_value_zero x y -> to_Z x = to_Z y.
Proof.
  unfold same_value_zero. intros E.
  rewrite <- (to_Z_unsigned_zero x), <- (to_Z_unsigned_zero y). now rewrite E.
Qed.

(** *** The methods, step by step *)

Lemma toFixed_Ok x v f :
  ToIntegerOrInfinity v = Some f -> 0 <= f <= 100 ->
  toFixed x v = Ok (string_of_list_ascii (toFixed_chars x f)).
Proof.
  intros E [L U]. unfold toFixed. rewrite E.
  destruct (Z.ltb_spec f 0); [ lia | ].
  destruct (Z.ltb_spec 100 f); [ lia | ]. reflexivity.
Qed.

Lemma parseInt_string cs : parseInt (string_of_list_ascii cs) = parseInt_chars cs.
Proof. unfold parseInt. now rewrite list_ascii_of_string_of_list_ascii. Qed.

Lemma parseFloat_string cs :
  parseFloat (string_of_list_ascii cs) = parseFloat_chars cs.
Proof. unfold parseFloat. now rewrite list_ascii_of_string_of_list_ascii. Qed.

Lemma _from_known amount code p this :
  UNITS_get code = Some p ->
  _from amount code this =
  (Ok (stored (mul amount (ToNumber (element p 0)))), this).
Proof.
  intros E. unfold _from. rewrite E. unfold bind, lift, ret.
  rewrite (toFixed_Ok _ undefined 0) by (reflexivity || lia).
  now rewrite parseInt_string.
Qed.

Lemma _from_unknown amount code this :
  UNITS_get code = None ->
  _from amount code this = (Throw (UnknownCode code), this).
Proof. intros E. unfold _from. now rewrite E. Qed.

Lemma new_Unit_known amount code p :
  UNITS_get code = Some p ->
  new_Unit amount (Code code) =
  Ok {| _value := Some (stored (mul amount (ToNumber (element p 0)))) |}.
Proof.
  intros E. unfold new_Unit, Unit_constructor, bind, ret. cbn [fst snd].
  now rewrite (_from_known _ _ p).
Qed.

Lemma new_Unit_unknown amount code :
  UNITS_get code = None ->
  new_Unit amount (Code code) = Throw (UnknownCode code).
Proof.
  intros E. unfold new_Unit, Unit_constructor, bind, ret. cbn [fst snd].
  now rewrite _from_unknown.
Qed.

Lemma new_Unit_rate amount rate :
  le_zero rate = false ->
  new_Unit amount (Rate rate) = new_Unit (div amount rate) (Code Unit_HC).
Proof.
  intros E. unfold new_Unit, Unit_constructor, bind. rewrite E. reflexivity.
Qed.

Lemma new_Unit_invalid_rate amount rate :
  le_zero rate = true ->
  new_Unit amount (Rate rate) = Throw (InvalidRate rate).
Proof.
  intros E. unfold new_Unit, Unit_constructor, bind. rewrite E. reflexivity.
Qed.

Lemma gt_zero_not_le x : gt_zero x = true -> le_zero x = false.
Proof. destruct x as [s|[]| |[] m e]; simpl; congruence. Qed.

(** The product the constructor rounds. *)
Lemma new_Unit_stored amount c u :
  new_Unit amount c = Ok u -> _value u = Some (stored (ingested amount c)).
Proof.
  destruct c as [code|rate]; unfold ingested.
  - destruct (UNITS_get code) as [p| ] eqn:E.
    + rewrite (new_Unit_known _ _ p E). now intros [= <-].
    + rewrite new_Unit_unknown by exact E. discriminate.
  - destruct (le_zero rate) eqn:E.
    + rewrite new_Unit_invalid_rate by exact E. discriminate.
    + rewrite new_Unit_rate by exact E.
      rewrite (new_Unit_known _ Unit_HC (Entry [of_Z 100000000; of_Z 8])) by reflexivity.
      now intros [= <-].
Qed.

Lemma ingested_canonical amount c : canonical (ingested amount c).
Proof.
  unfold ingested. destruct c as [code|rate].
  - destruct (UNITS_get code); [ apply mul_canonical | exact I ].
  - apply mul_canonical.
Qed.

(** Every entry of the table, and every inherited property, yields a
    number of digits [toFixed] accepts. *)
Lemma precision_accepted code p :
  UNITS_get code = Some p ->
  exists f, ToIntegerOrInfinity (element p 1) = Some f /\ 0 <= f <= 100.
Proof.
  unfold UNITS_get, UNITS, own_property.
  repeat (destruct (String.eqb _ code);
          [ intros [= <-]; eexists; split; [ vm_compute; reflexivity | lia ] | ]).
  destruct (existsb _ _); [ | discriminate ].
  intros [= <-]. exists 0. split; [ reflexivity | lia ].
Qed.

Lemma to_code_known code p f this :
  UNITS_get code = Some p ->
  ToIntegerOrInfinity (element p 1) = Some f -> 0 <= f <= 100 ->
  to_code code this =
  (Ok (shown (div (ToNumber (_value this)) (ToNumber (element p 0))) f), this).
Proof.
  intros E F R. unfold to_code. rewrite E. unfold bind, read_value, lift, ret.
  rewrite (toFixed_Ok _ _ f F R). now rewrite parseFloat_string.
Qed.

Lemma to_code_unknown code this :
  UNITS_get code = None ->
  to_code code this = (Throw (UnknownCode code), this).
Proof. intros E. unfold to_code. now rewrite E. Qed.

Lemma own_property_In table code entry :
  NoDup (map fst table) -> In (code, entry) table ->
  own_property code table = Some entry.
Proof.
  induction table as [ | [key e] table IH ]; cbn [map fst In own_property].
  - contradiction.
  - intros N [E|I].
    + injection E as -> ->. now rewrite String.eqb_refl.
    + inversion N as [ | ? ? Hn Hd ]; subst.
      destruct (String.eqb_spec key code) as [->|D]; [ | now apply IH ].
      exfalso. apply Hn. change code with (fst (code, entry)). now apply in_map.
Qed.

Lemma UNITS_keys_distinct : NoDup (map fst UNITS).
Proof.
  change (map fst UNITS) with Object_keys_UNITS.
  unfold Object_keys_UNITS, UNITS. cbn [map fst].
  repeat constructor; cbn [In]; intuition discriminate.
Qed.

Lemma known_get code scale precision :
  known code scale precision ->
  UNITS_get code = Some (Entry [scale; precision]).
Proof.
  intros K. unfold UNITS_get.
  now rewrite (own_property_In UNITS code _ UNITS_keys_distinct K).
Qed.

End UnitFacts.


Import UnitFacts.
Import NumberFacts TextFacts BuiltinFacts Spec.
Local Open Scope list_scope.
Local Open Scope Z_scope.

(** ** Conversions leave the receiver alone *)

Module Frame.

Lemma preserves_ret {A} (a : A) : preserves (ret a).
Proof. intros this. reflexivity. Qed.

Lemma preserves_throw {A} (e : error) : preserves (@throw A e).
Proof. intros this. reflexivity. Qed.

Lemma preserves_lift {A} (r : result A) : preserves (lift r).
Proof. intros this. reflexivity. Qed.

Lemma preserves_read_value : preserves read_value.
Proof. intros this. reflexivity. Qed.

Lemma preserves_bind {A B} (m : M A) (f : A -> M B) :
  preserves m -> (forall a, preserves (f a)) -> preserves (bind m f).
Proof.
  intros Hm Hf this. unfold after, bind. specialize (Hm this). unfold after in Hm.
  destruct (m this) as [[a|e] this']; simpl in *; subst this'.
  - apply Hf.
  - reflexivity.
Qed.

Create HintDb frame.
#[export] Hint Resolve preserves_ret preserves_throw preserves_lift
  preserves_read_value : frame.
#[export] Hint Extern 2 (preserves (bind _ _)) =>
  apply preserves_bind; [ | intro ] : frame.

Lemma preserves_to_code code : preserves (to_code code).
Proof. unfold to_code. destruct (UNITS_get code); auto 10 with frame. Qed.

#[export] Hint Resolve preserves_to_code : frame.

Lemma preserves_accessor key : preserves (accessor key).
Proof. unfold accessor. auto with frame. Qed.

#[export] Hint Resolve preserves_accessor : frame.

Lemma preserves_to a : preserves (to a).
Proof.
  destruct a as [code|rate]; cbn [to]; [ auto with frame | ].
  destruct (le_zero rate); auto 10 with frame.
Qed.

#[export] Hint Resolve preserves_to : frame.

Lemma preserves_toString : preserves toString.
Proof. unfold toString. auto 10 with frame. Qed.

#[export] Hint Resolve preserves_toString : frame.

Lemma preserves_perform c : preserves (perform c).
Proof.
  destruct c; cbn [perform];
    unfold as_number, as_string, as_plain, toHC, toMillis, toMilis, toMicros,
      toDbits, toAtoms, atRate, toJSON, toObject, inspect;
    try destruct (existsb _ _); auto 10 with frame.
Qed.

End Frame.

(** C8. No conversion changes the stored amount: after any sequence of
    calls to [to], the fixed-name conversions, [atRate], the accessors,
    [toString], [toObject], [toJSON] and [inspect], the instance is what
    it was, and each call answered what it would have answered first. *)
Theorem conversions_preserve_value (cs : list call) (u : Unit) :
  snd (perform_all cs u) = u /\
  _value (snd (perform_all cs u)) = _value u /\
  fst (perform_all cs u) = map (fun c => outcome (perform c) u) cs.
Proof.
  assert (H : snd (perform_all cs u) = u /\
              fst (perform_all cs u) = map (fun c => outcome (perform c) u) cs).
  { induction cs as [ | c cs [IH1 IH2] ]; [ split; reflexivity | ].
    cbn [perform_all map]. pose proof (Frame.preserves_perform c u) as F.
    unfold after in F. unfold outcome at 1.
    destruct (perform c u) as [r this'] eqn:E. cbn [fst snd] in *. subst this'.
    destruct (perform_all cs u) as [rs this'']. cbn [fst snd] in *.
    subst. split; reflexivity. }
  destruct H as [H1 H2]. rewrite H1. auto.
Qed.

(** ** Quantities that survive the round trip through a Number *)

Lemma round_nearest_even_error A B :
  0 < B -> 2 * Z.abs (round_nearest_even A B * B - A) <= B.
Proof.
  intros HB. unfold round_nearest_even.
  pose proof (Z.div_mod A B ltac:(lia)) as D.
  pose proof (Z.mod_pos_bound A B HB) as R.
  destruct (Z.compare_spec (2 * (A mod B)) B) as [E|L|G];
    [ destruct (Z.even (A / B)) | | ]; lia.
Qed.

Lemma mag_num_eq m e : mag_num m e = Zpos m * 2 ^ Z.max e 0.
Proof. unfold mag_num. rewrite scale_num_eq, Z.opp_involutive. reflexivity. Qed.

Lemma mag_den_eq e : mag_den e = 2 ^ Z.max (- e) 0.
Proof. unfold mag_den. rewrite scale_den_eq. lia. Qed.

(** The relative error of rounding a ratio in the normal range is at
    most [2^-53]. *)
Lemma of_ratio_error neg a b :
  0 < a -> 0 < b -> ge2 a b (emin + (prec - 1)) -> ~ ge2 a b (emax - 1) ->
  exists m e,
    of_ratio neg a b = Finite neg m e /\
    2 ^ prec * Z.abs (mag_num m e * b - a * mag_den e) <= a * mag_den e.
Proof.
  intros Ha Hb N O. unfold of_ratio.
  destruct (Z.leb_spec a 0); [ lia | ].
  destruct (ilog2_ratio_spec a b Ha Hb) as [Lo Hi].
  set (l := ilog2_ratio a b) in *.
  assert (Hl : emin + (prec - 1) <= l).
  { destruct (Z.le_gt_cases (emin + (prec - 1)) l) as [C|C]; [ exact C | ].
    exfalso. apply Hi. apply (ge2_mono a b _ (emin + (prec - 1))); auto. lia. }
  assert (Hu : l < emax - 1).
  { destruct (Z.le_gt_cases (emax - 1) l) as [C|C]; [ | exact C ].
    exfalso. apply O. apply (ge2_mono a b _ l); auto. }
  replace (Z.max emin (l - (prec - 1))) with (l - (prec - 1)) by lia.
  set (e := l - (prec - 1)).
  pose proof (scale_den_pos b e Hb) as PB.
  pose proof (scale_num_pos a e Ha) as PA.
  assert (LB : scale_den b e * 2 ^ (prec - 1) <= scale_num a e).
  { apply ge2_scaled; [ unfold prec; lia | ].
    replace (e + (prec - 1)) with l by (unfold e; lia). exact Lo. }
  pose proof (round_nearest_even_error (scale_num a e) (scale_den b e) PB) as Er.
  pose proof (round_nearest_even_bounds (scale_num a e) (scale_den b e)) as Bd.
  assert (Q : 2 ^ (prec - 1) <= scale_num a e / scale_den b e).
  { apply Z.div_le_lower_bound; [ exact PB | lia ]. }
  set (m := round_nearest_even (scale_num a e) (scale_den b e)) in *.
  rewrite scale_num_eq, scale_den_eq in Er, LB.
  assert (P2 : 2 ^ prec = 2 * 2 ^ (prec - 1)) by reflexivity.
  assert (P52 : 0 < 2 ^ (prec - 1)) by reflexivity.
  set (x := Z.max (- e) 0) in *. set (y := Z.max e 0) in *.
  assert (Px : 0 < 2 ^ x) by (apply Z.pow_pos_nonneg; unfold x; lia).
  assert (Py : 0 < 2 ^ y) by (apply Z.pow_pos_nonneg; unfold y; lia).
  destruct (Z.eqb_spec m (2 ^ prec)) as [E|E].
  - change (2 ^ (prec - 1)) with (Zpos (Z.to_pos (2 ^ (prec - 1)))) at 1.
    cbv iota beta.
    destruct (Z.ltb_spec emax_finite (e + 1));
      [ unfold e, emax, emax_finite, prec in *; lia | ].
    eexists. eexists. split; [ reflexivity | ].
    rewrite mag_num_eq, mag_den_eq.
    change (Zpos (Z.to_pos (2 ^ (prec - 1)))) with (2 ^ (prec - 1)).
    (* the value [2^52 * 2^(e+1)] is [m * 2^e] *)
    destruct (Z.le_gt_cases 0 e) as [C|C].
    + replace (Z.max (e + 1) 0) with (y + 1) by (unfold y; lia).
      replace (Z.max (- (e + 1)) 0) with x by (unfold x; lia).
      rewrite Z.pow_add_r by (unfold y; lia). change (2 ^ 1) with 2.
      replace (2 ^ (prec - 1) * (2 ^ y * 2) * b - a * 2 ^ x)
        with (m * (b * 2 ^ y) - a * 2 ^ x) by (rewrite E, P2; ring).
      set (t := Z.abs _) in *. nia.
    + replace (Z.max (e + 1) 0) with 0 by lia.
      replace (Z.max (- (e + 1)) 0) with (x - 1) by (unfold x; lia).
      assert (X : 2 ^ x = 2 * 2 ^ (x - 1)).
      { rewrite <- Z.pow_succ_r by (unfold x; lia). f_equal. lia. }
      assert (Y : 2 ^ y = 1) by (unfold y; now rewrite Z.max_r by lia).
      rewrite Z.pow_0_r, Z.mul_1_r.
      rewrite Y, Z.mul_1_r, E, P2, X in Er. rewrite Y, X in LB.
      set (h := 2 ^ (x - 1)) in *. set (P := 2 ^ (prec - 1)) in *.
      replace (2 * P * b - a * (2 * h)) with (2 * (P * b - a * h)) in Er by ring.
      rewrite Z.abs_mul in Er. change (Z.abs 2) with 2 in Er.
      set (t := Z.abs _) in *. nia.
  - destruct m as [ | p | p ] eqn:Em; try lia.
    destruct (Z.ltb_spec emax_finite e);
      [ unfold e, emax, emax_finite, prec in *; lia | ].
    eexists. eexists. split; [ reflexivity | ].
    rewrite mag_num_eq, mag_den_eq. fold x y.
    replace (Zpos p * 2 ^ y * b - a * 2 ^ x)
      with (Zpos p * (b * 2 ^ y) - a * 2 ^ x) by ring.
    set (t := Z.abs _) in *. set (P := 2 ^ (prec - 1)) in *. nia.
Qed.

Lemma pow10_bound f : 0 <= f <= 100 -> 0 < 10 ^ f <= 2 ^ 1022.
Proof.
  intros [L U]. split; [ apply Z.pow_pos_nonneg; lia | ].
  apply Z.le_trans with (10 ^ 100); [ apply Z.pow_le_mono_r; lia | ].
  apply Z.leb_le. vm_compute. reflexivity.
Qed.

(** A decimal [n / 10^f] with [n < 2^52] survives being rounded to a
    Number and printed back with [f] digits. *)
Lemma shown_quantized neg n f a b :
  0 < n < 2 ^ (prec - 1) -> 0 <= f <= 100 ->
  0 < b -> a * 10 ^ f = n * b ->
  shown (of_ratio neg a b) f = of_ratio neg n (10 ^ f).
Proof.
  intros [Ln Un] Hf Hb E.
  destruct (pow10_bound f Hf) as [Pt Ut]. set (t := 10 ^ f) in *.
  assert (Ha : 0 < a) by nia.
  assert (N : ge2 a b (emin + (prec - 1))).
  { rewrite (ge2_iff a b _ 0 1022) by (unfold emin, prec; lia).
    rewrite Z.pow_0_r, Z.mul_1_r. nia. }
  assert (O : ~ ge2 a b (emax - 1)).
  { rewrite (ge2_iff a b _ 1023 0) by (unfold emax; lia).
    rewrite Z.pow_0_r, Z.mul_1_r.
    assert (2 ^ (prec - 1) < 2 ^ 1023) by (apply Z.ltb_lt; vm_compute; reflexivity).
    nia. }
  destruct (of_ratio_error neg a b Ha Hb N O) as (m & e & D & Er).
  pose proof (of_ratio_canonical neg a b Hb) as C. rewrite D in *.
  pose proof (mag_num_pos m e) as Pn. pose proof (mag_den_pos e) as Pd.
  set (mn := mag_num m e) in *. set (md := mag_den e) in *.
  (* the distance between the Number and the decimal, in units of [10^-f] *)
  assert (Q : 2 * Z.abs (mn * t - n * md) < md).
  { assert (B : b * Z.abs (mn * t - n * md) = t * Z.abs (mn * b - a * md)).
    { rewrite <- (Z.abs_eq b) at 1 by lia. rewrite <- (Z.abs_eq t) at 2 by lia.
      rewrite <- !Z.abs_mul. f_equal. nia. }
    assert (P2 : 2 ^ prec = 2 * 2 ^ (prec - 1)) by reflexivity.
    set (P := 2 ^ (prec - 1)) in *. set (u := Z.abs (mn * t - n * md)) in *.
    set (w := Z.abs (mn * b - a * md)) in *.
    assert (2 * P * (b * u) <= n * b * md) by nia.
    assert (2 * P * u <= n * md) by nia.
    nia. }
  unfold shown. rewrite parseFloat_toFixed by (assumption || lia).
  cbn [fixed_value]. fold mn md.
  assert (S : mn < 10 ^ 21 * md).
  { assert (2 ^ (prec - 1) < 10 ^ 21) by reflexivity.
    set (P := 2 ^ (prec - 1)) in *. set (T := 10 ^ 21) in *. nia. }
  destruct (Z.leb_spec (10 ^ 21 * md) mn); [ lia | ].
  assert (V : nearest_fixed mn md f = n).
  { unfold nearest_fixed. fold t. symmetry.
    apply (Z.div_unique _ _ _ (2 * (mn * t - n * md) + md)); lia. }
  rewrite V. unfold decimal_number.
  destruct (pow10_neg n f (proj1 Hf)) as [-> ->]. reflexivity.
Qed.

Lemma stored_small sg m e :
  canonical (Finite sg m e) ->
  mag_num m e < 10 ^ 21 * mag_den e ->
  stored (Finite sg m e) =
  of_ratio sg (nearest_fixed (mag_num m e) (mag_den e) 0) 1.
Proof.
  intros C B. pose proof (parseInt_toFixed _ C) as H. cbv beta iota in H.
  destruct (Z.leb_spec (10 ^ 21 * mag_den e) (mag_num m e)); [ lia | exact H ].
Qed.

Lemma of_ratio_sign_eq neg a b s m e :
  of_ratio neg a b = Finite s m e -> s = neg.
Proof.
  rewrite of_ratio_sign. destruct (of_ratio false a b); congruence.
Qed.

(** An atomic amount below [2^52], divided by [1e8] and shown with 8
    digits, is that amount of hundred-millionths. *)
Lemma shown_atoms_in_HC sg n :
  0 <= n < 2 ^ (prec - 1) ->
  same_value_zero (shown (div (of_ratio sg n 1) (of_Z 100000000)) 8)
                  (of_ratio sg n (10 ^ 8)).
Proof.
  intros [L U]. destruct (Z.eq_dec n 0) as [->|N].
  - destruct sg; reflexivity.
  - assert (B : 0 < n < 2 ^ prec).
    { change (2 ^ prec) with (2 * 2 ^ (prec - 1)). lia. }
    destruct (of_ratio_small_integer sg n B) as (m & e & -> & C & V).
    replace (of_Z 100000000) with (Finite false 6710886400000000 (-26))
      by (vm_compute; reflexivity).
    cbn [div]. rewrite xorb_false_r.
    rewrite (shown_quantized sg n 8); [ reflexivity | lia | lia | | ].
    + apply Z.mul_pos_pos; [ apply mag_den_pos | apply mag_num_pos ].
    + rewrite V.
      change (mag_den (-26)) with 67108864.
      change (mag_num 6710886400000000 (-26)) with 6710886400000000.
      change (10 ^ 8) with 100000000. ring.
Qed.

(** ** The Number value depends on the ratio only *)

Lemma round_nearest_even_ratio A B A' B' :
  0 < B -> 0 < B' -> A * B' = A' * B ->
  round_nearest_even A B = round_nearest_even A' B'.
Proof.
  intros HB HB' E. unfold round_nearest_even.
  pose proof (Z.div_mod A B ltac:(lia)) as D.
  pose proof (Z.mod_pos_bound A B HB) as R.
  set (q := A / B) in *. set (r := A mod B) in *.
  assert (R' : r * B' = (A' - q * B') * B) by nia.
  assert (Q : 0 <= A' - q * B' < B') by nia.
  assert (Eq : A' / B' = q).
  { symmetry. apply (Z.div_unique_pos A' B' q (A' - q * B')); lia. }
  assert (Er : A' mod B' = A' - q * B').
  { symmetry. apply (Z.mod_unique_pos A' B' q (A' - q * B')); lia. }
  rewrite Eq, Er. set (r' := A' - q * B') in *.
  destruct (Z.compare_spec (2 * r) B), (Z.compare_spec (2 * r') B');
    try reflexivity; exfalso; nia.
Qed.

Lemma ge2_ratio a b a' b' l :
  0 < b -> 0 < b' -> a * b' = a' * b -> ge2 a b l -> ge2 a' b' l.
Proof.
  unfold ge2. rewrite !scale_num_eq, !scale_den_eq. intros Hb Hb' E G.
  set (x := 2 ^ Z.max l 0) in *. set (y := 2 ^ Z.max (- l) 0) in *.
  assert (0 < x) by (apply Z.pow_pos_nonneg; lia).
  assert (0 < y) by (apply Z.pow_pos_nonneg; lia).
  apply (Z.mul_le_mono_pos_l _ _ b Hb).
  replace (b * (a' * y)) with (a * y * b') by (rewrite <- Z.mul_assoc, (Z.mul_comm y), Z.mul_assoc, E; ring).
  replace (b * (b' * x)) with (b * x * b') by ring.
  apply Z.mul_le_mono_nonneg_r; lia.
Qed.

Lemma ilog2_ratio_ratio a b a' b' :
  0 < a -> 0 < b -> 0 < a' -> 0 < b' -> a * b' = a' * b ->
  ilog2_ratio a b = ilog2_ratio a' b'.
Proof.
  intros Ha Hb Ha' Hb' E.
  destruct (ilog2_ratio_spec a b Ha Hb) as [Lo Hi].
  destruct (ilog2_ratio_spec a' b' Ha' Hb') as [Lo' Hi'].
  set (l := ilog2_ratio a b) in *. set (l' := ilog2_ratio a' b') in *.
  destruct (Z.lt_trichotomy l l') as [C|[C|C]]; [ exfalso | exact C | exfalso ].
  - apply Hi. apply (ge2_ratio a' b' a b); auto.
    apply (ge2_mono a' b' _ l'); auto. lia.
  - apply Hi'. apply (ge2_ratio a b a' b'); auto.
    apply (ge2_mono a b _ l); auto. lia.
Qed.

Lemma of_ratio_ratio neg a b a' b' :
  0 < a -> 0 < b -> 0 < a' -> 0 < b' -> a * b' = a' * b ->
  of_ratio neg a b = of_ratio neg a' b'.
Proof.
  intros Ha Hb Ha' Hb' E. unfold of_ratio.
  destruct (Z.leb_spec a 0); [ lia | ]. destruct (Z.leb_spec a' 0); [ lia | ].
  rewrite (ilog2_ratio_ratio a b a' b') by assumption.
  set (e := Z.max emin (ilog2_ratio a' b' - (prec - 1))).
  rewrite (round_nearest_even_ratio (scale_num a e) (scale_den b e)
             (scale_num a' e) (scale_den b' e)).
  - reflexivity.
  - now apply scale_den_pos.
  - now apply scale_den_pos.
  - rewrite !scale_num_eq, !scale_den_eq.
    transitivity (a * b' * (2 ^ Z.max (- e) 0 * 2 ^ Z.max e 0)); [ ring | ].
    rewrite E. ring.
Qed.

(** ** The rounding interval of a Number *)

Lemma round_nearest_even_near A B m :
  0 < B -> 2 * Z.abs (m * B - A) < B -> round_nearest_even A B = m.
Proof.
  intros HB H. unfold round_nearest_even.
  pose proof (Z.div_mod A B ltac:(lia)) as D.
  pose proof (Z.mod_pos_bound A B HB) as R.
  set (q := A / B) in *. set (r := A mod B) in *.
  assert (C : m = q \/ m = q + 1).
  { destruct (Z.le_gt_cases m (q - 1)) as [C|C].
    - exfalso. assert (m * B <= (q - 1) * B) by (apply Z.mul_le_mono_nonneg_r; lia).
      lia.
    - destruct (Z.le_gt_cases (q + 2) m) as [C'|C']; [ exfalso | lia ].
      assert ((q + 2) * B <= m * B) by (apply Z.mul_le_mono_nonneg_r; lia).
      lia. }
  destruct C as [->| ->];
    destruct (Z.compare_spec (2 * r) B) as [E|L|G]; try lia;
    destruct (Z.even q); lia.
Qed.

(** The result of rounding is within half a unit in the last place. *)
Lemma of_ratio_half_ulp neg a b m e :
  0 < a -> 0 < b -> of_ratio neg a b = Finite neg m e ->
  2 * Z.abs (Zpos m * scale_den b e - scale_num a e) <= scale_den b e.
Proof.
  intros Ha Hb. unfold of_ratio.
  destruct (Z.leb_spec a 0); [ lia | ].
  set (e0 := Z.max emin (ilog2_ratio a b - (prec - 1))).
  pose proof (scale_den_pos b e0 Hb) as PB.
  pose proof (round_nearest_even_error (scale_num a e0) (scale_den b e0) PB) as Er.
  set (m0 := round_nearest_even (scale_num a e0) (scale_den b e0)) in *.
  destruct (Z.eqb_spec m0 (2 ^ prec)) as [E|E].
  - change (2 ^ (prec - 1)) with (Zpos (Z.to_pos (2 ^ (prec - 1)))).
    cbv iota beta.
    destruct (Z.ltb_spec emax_finite (e0 + 1)); [ discriminate | ].
    intros [= <- <-].
    change (Zpos (Z.to_pos (2 ^ (prec - 1)))) with (2 ^ (prec - 1)).
    rewrite E in Er. change (2 ^ prec) with (2 * 2 ^ (prec - 1)) in Er.
    rewrite scale_num_eq, scale_den_eq in *.
    set (P := 2 ^ (prec - 1)) in *.
    destruct (Z.le_gt_cases 0 e0) as [C|C].
    + replace (Z.max (e0 + 1) 0) with (Z.max e0 0 + 1) by lia.
      replace (Z.max (- (e0 + 1)) 0) with (Z.max (- e0) 0) by lia.
      rewrite Z.pow_add_r by lia. change (2 ^ 1) with 2.
      set (y := 2 ^ Z.max e0 0) in *. set (x := 2 ^ Z.max (- e0) 0) in *.
      change P with 4503599627370496 in Er. lia.
    + replace (Z.max (e0 + 1) 0) with 0 by lia.
      replace (Z.max e0 0) with 0 in * by lia.
      replace (Z.max (- e0) 0) with (Z.max (- (e0 + 1)) 0 + 1) in * by lia.
      rewrite Z.pow_add_r in Er by lia. change (2 ^ 1) with 2 in Er.
      rewrite Z.pow_0_r, Z.mul_1_r in *.
      set (x := 2 ^ Z.max (- (e0 + 1)) 0) in *.
      replace (2 * P * b - a * (x * 2)) with (2 * (P * b - a * x)) in Er by ring.
      rewrite Z.abs_mul in Er. change (Z.abs 2) with 2 in Er.
      change P with 4503599627370496 in Er. lia.
  - destruct m0 as [ | p | p ] eqn:Em; try discriminate.
    destruct (Z.ltb_spec emax_finite e0); [ discriminate | ].
    intros [= <- <-]. exact Er.
Qed.

(** A ratio that rounds to the significand [m] at the exponent [e], not
    from the binade below, has the Number value [m * 2^e]. *)
Lemma of_ratio_rounds neg m e a b :
  canonical (Finite neg m e) -> 0 < a -> 0 < b ->
  round_nearest_even (scale_num a e) (scale_den b e) = Zpos m ->
  2 ^ (prec - 1) < Zpos m \/ e = emin ->
  of_ratio neg a b = Finite neg m e.
Proof.
  intros (Hm & He & Hn) Ha Hb R Hl.
  pose proof (scale_den_pos b e Hb) as PB.
  pose proof (round_nearest_even_error (scale_num a e) (scale_den b e) PB) as Er.
  pose proof (round_nearest_even_bounds (scale_num a e) (scale_den b e)) as Bd.
  rewrite R in Er, Bd.
  set (A := scale_num a e) in *. set (B := scale_den b e) in *.
  destruct (ilog2_ratio_spec a b Ha Hb) as [Lo Hi].
  set (l := ilog2_ratio a b) in *.
  assert (Up : l < e + prec).
  { destruct (Z.lt_ge_cases l (e + prec)) as [C|C]; [ exact C | exfalso ].
    assert (G : ge2 a b (e + prec)) by (apply (ge2_mono a b _ l); auto).
    rewrite ge2_scaled in G by (unfold prec; lia). fold A B in G.
    assert (2 ^ prec <= A / B) by (apply Z.div_le_lower_bound; lia).
    lia. }
  assert (El : Z.max emin (l - (prec - 1)) = e).
  { destruct Hl as [Hl|Hl]; [ | unfold prec in *; lia ].
    assert (G : ge2 a b (e + (prec - 1))).
    { rewrite ge2_scaled by (unfold prec; lia). fold A B.
      set (P := 2 ^ (prec - 1)) in *. nia. }
    assert (e + (prec - 1) <= l); [ | unfold prec in *; lia ].
    destruct (Z.le_gt_cases (e + (prec - 1)) l) as [C|C]; [ exact C | exfalso ].
    apply Hi. apply (ge2_mono a b _ (e + (prec - 1))); auto. lia. }
  unfold of_ratio. destruct (Z.leb_spec a 0); [ lia | ].
  fold l. rewrite El. fold A B. rewrite R.
  destruct (Z.eqb_spec (Zpos m) (2 ^ prec)); [ lia | ].
  destruct (Z.ltb_spec emax_finite e); [ lia | reflexivity ].
Qed.

(** ** Hundred-millionths survive [toFixed(8)] at every size *)

(** The Number for [N / 10^8] is a fixed point of
    [parseFloat(x.toFixed(8))]: where Numbers are finer than
    hundred-millionths the digits printed are those of [N], and where
    they are coarser the decimal printed rounds back to the Number. *)
Lemma decimal_fixed_point sg N :
  0 < N < 10 ^ 21 ->
  shown (of_ratio sg N (10 ^ 8)) 8 = of_ratio sg N (10 ^ 8).
Proof.
  intros [LN UN].
  change (10 ^ 8) with 100000000. change (10 ^ 21) with 1000000000000000000000 in UN.
  set (T := 100000000) in *.
  assert (HT : T = 100000000) by reflexivity.
  assert (P1022 : 1000000000000000000000 < 2 ^ 1022)
    by (apply Z.ltb_lt; vm_compute; reflexivity).
  assert (N1 : ge2 N T (emin + (prec - 1))).
  { rewrite (ge2_iff N T _ 0 1022) by (unfold emin, prec; lia).
    rewrite Z.pow_0_r, Z.mul_1_r. nia. }
  assert (O1 : ~ ge2 N T (emax - 1)).
  { rewrite (ge2_iff N T _ 1023 0) by (unfold emax; lia).
    rewrite Z.pow_0_r, Z.mul_1_r.
    change (2 ^ 1023) with (2 * 2 ^ 1022). nia. }
  destruct (of_ratio_error sg N T LN ltac:(lia) N1 O1) as (m & e & D & Er).
  pose proof (of_ratio_canonical sg N T ltac:(lia)) as C.
  pose proof (of_ratio_half_ulp sg N T m e LN ltac:(lia) D) as H.
  rewrite D in *.
  pose proof (mag_num_pos m e) as Pn. pose proof (mag_den_pos e) as Pd.
  unfold shown. rewrite parseFloat_toFixed by (exact C || lia).
  cbn [fixed_value].
  change (2 ^ prec) with 9007199254740992 in Er.
  assert (S : mag_num m e < 10 ^ 21 * mag_den e).
  { change (10 ^ 21) with 1000000000000000000000.
    set (M := mag_num m e) in *. set (Dn := mag_den e) in *.
    assert (M * T <= 2 * (N * Dn)) by lia. nia. }
  destruct (Z.leb_spec (10 ^ 21 * mag_den e) (mag_num m e)); [ lia | ].
  unfold decimal_number.
  destruct (pow10_neg (nearest_fixed (mag_num m e) (mag_den e) 8) 8 ltac:(lia))
    as [-> ->].
  change (10 ^ 8) with T.
  (* what [toFixed(8)] prints *)
  assert (R : let n' := nearest_fixed (mag_num m e) (mag_den e) 8 in
              - mag_den e < 2 * (n' * mag_den e - mag_num m e * T) <= mag_den e).
  { cbv zeta. unfold nearest_fixed. change (10 ^ 8) with T.
    set (M := mag_num m e) in *. set (Dn := mag_den e) in *.
    pose proof (Z.div_mod (2 * M * T + Dn) (2 * Dn) ltac:(lia)) as Q.
    pose proof (Z.mod_pos_bound (2 * M * T + Dn) (2 * Dn) ltac:(lia)) as Rm.
    set (q := (2 * M * T + Dn) / (2 * Dn)) in *. nia. }
  cbv zeta in R.
  set (n' := nearest_fixed (mag_num m e) (mag_den e) 8) in *.
  destruct (Z.eq_dec ((mag_num m e * T) mod mag_den e) 0) as [G|G].
  - (* the Number is a multiple of a hundred-millionth *)
    apply of_ratio_exact; [ exact C | lia | ].
    apply Z.mod_divide in G; [ | lia ]. destruct G as [k G].
    assert (n' = k); [ | nia ].
    set (M := mag_num m e) in *. set (Dn := mag_den e) in *.
    rewrite G in R. nia.
  - assert (E8 : e < -8).
    { destruct (Z.lt_ge_cases e (-8)) as [L|L]; [ exact L | exfalso ].
      apply G. rewrite mag_den_eq.
      destruct (Z.le_gt_cases 0 e).
      - rewrite Z.max_r by lia. apply Z.mod_1_r.
      - rewrite Z.max_l by lia.
        replace T with (2 ^ (- e) * (2 ^ (8 + e) * 390625)).
        + rewrite Z.mul_assoc, (Z.mul_comm (mag_num m e)), <- Z.mul_assoc.
          rewrite Z.mul_comm. apply Z.mod_mul.
          assert (0 < 2 ^ (- e)) by (apply Z.pow_pos_nonneg; lia). lia.
        + rewrite Z.mul_assoc, <- Z.pow_add_r by lia.
          replace (- e + (8 + e)) with 8 by lia. reflexivity. }
    rewrite mag_num_eq, mag_den_eq in *.
    rewrite scale_num_eq, scale_den_eq in H.
    rewrite (Z.max_r e 0), (Z.max_l (- e) 0) in * by lia.
    rewrite Z.pow_0_r, !Z.mul_1_r in *.
    set (Dn := 2 ^ (- e)) in *.
    destruct (Z.le_gt_cases e (-27)) as [L|L].
    + (* Numbers finer than hundred-millionths *)
      assert (2 ^ 27 <= Dn) by (apply Z.pow_le_mono_r; lia).
      change (2 ^ 27) with 134217728 in *.
      assert (n' = N); [ | subst n'; congruence ].
      assert (- Dn < 2 * (Zpos m * T - N * Dn) < Dn) by lia.
      nia.
    + (* Numbers coarser than hundred-millionths *)
      assert (Dn <= 2 ^ 26) by (apply Z.pow_le_mono_r; lia).
      change (2 ^ 26) with 67108864 in *.
      assert (Pn' : 0 < n') by nia.
      apply of_ratio_rounds; [ exact C | exact Pn' | lia | | ].
      * rewrite scale_num_eq, scale_den_eq.
        rewrite (Z.max_r e 0), (Z.max_l (- e) 0) by lia.
        rewrite Z.pow_0_r, Z.mul_1_r. fold Dn.
        apply round_nearest_even_near; lia.
      * left. destruct C as (_ & _ & [C|C]); [ | unfold emin in C; lia ].
        destruct (Z.eq_dec (Zpos m) (2 ^ (prec - 1))) as [B|B]; [ exfalso | lia ].
        apply G. rewrite B. unfold Dn.
        replace (2 ^ (prec - 1)) with (2 ^ (- e) * 2 ^ (prec - 1 + e)).
        -- rewrite <- Z.mul_assoc, Z.mul_comm. apply Z.mod_mul.
           assert (0 < 2 ^ (- e)) by (apply Z.pow_pos_nonneg; lia). lia.
        -- rewrite <- Z.pow_add_r by (unfold prec; lia). f_equal. lia.
Qed.

(** A whole atomic amount below [10^21], divided by [1e8] and shown
    with 8 digits, is the Number for that many hundred-millionths. *)
Lemma shown_whole_in_HC sg m e N :
  canonical (Finite sg m e) ->
  mag_num m e = N * mag_den e -> 0 < N < 10 ^ 21 ->
  shown (div (Finite sg m e) (of_Z 100000000)) 8 = of_ratio sg N (10 ^ 8).
Proof.
  intros C E HN.
  replace (of_Z 100000000) with (Finite false 6710886400000000 (-26))
    by (vm_compute; reflexivity).
  cbn [div]. rewrite xorb_false_r.
  change (mag_den (-26)) with 67108864.
  change (mag_num 6710886400000000 (-26)) with 6710886400000000.
  pose proof (mag_den_pos e) as Pd.
  rewrite (of_ratio_ratio sg _ _ N (10 ^ 8)).
  - now apply decimal_fixed_point.
  - rewrite E. nia.
  - lia.
  - lia.
  - reflexivity.
  - rewrite E. change (10 ^ 8) with 100000000. ring.
Qed.

(** When rounding the binary64 product gives the integer that rounding
    the exact value gives, [toHC] of the stored amount is the amount
    rounded to 8 digits. *)
Lemma shown_stored_agrees q :
  canonical q ->
  let p := mul q (of_Z 100000000) in
  magnitude_below p (10 ^ 21) ->
  round_half_away_from_zero (Qmult (exact q) (inject_Z (10 ^ 8))) =
  round_half_away_from_zero (exact p) ->
  same_value_zero (shown (div (stored p) (of_Z 100000000)) 8)
                  (round_to_precision q 8).
Proof.
  intros Cq p B A.
  assert (Cp : canonical p) by apply mul_canonical.
  assert (E8 : of_Z 100000000 = Finite false 6710886400000000 (-26))
    by (vm_compute; reflexivity).
  destruct q as [sq|sq| |sq mq eq].
  - (* a zero *) destruct sq; vm_compute; reflexivity.
  - destruct B as [B _]. unfold p in B. rewrite E8 in B. discriminate B.
  - destruct B as [B _]. unfold p in B. rewrite E8 in B. discriminate B.
  - cbn [round_to_precision]. rewrite A. clear A.
    destruct p as [sp|sp| |sp mp ep] eqn:Ep;
      try (destruct B as [B _]; discriminate B).
    + (* the product underflows to zero *)
      cbn [exact]. change (Z.abs (round_half_away_from_zero (inject_Z 0))) with 0.
      destruct sq; vm_compute; reflexivity.
    + assert (S : sp = sq).
      { unfold p in Ep. rewrite E8 in Ep.
        cbn [mul] in Ep. apply of_ratio_sign_eq in Ep.
        now rewrite xorb_false_r in Ep. }
      subst sp. apply magnitude_below_finite in B.
      rewrite round_unscaled.
      pose proof (mag_num_pos mp ep) as Pn. pose proof (mag_den_pos ep) as Pd.
      pose proof (nearest_fixed_nonneg (mag_num mp ep) (mag_den ep) 0
                    ltac:(lia) Pd) as Nn.
      rewrite cond_Zopp_abs by exact Nn.
      rewrite stored_small by (assumption || lia).
      set (n := nearest_fixed (mag_num mp ep) (mag_den ep) 0) in *.
      destruct (Z.eq_dec n 0) as [->|Nz].
      { apply shown_atoms_in_HC. unfold prec. lia. }
      destruct (nearest_integer_cases mp ep (proj1 Cp)) as [Sm|[Dn En]];
        fold n in Sm || fold n in En.
      * destruct (of_ratio_small_integer sq n ltac:(lia)) as (m & e & -> & C & V).
        rewrite (shown_whole_in_HC sq m e n C V); [ reflexivity | ].
        unfold prec in Sm. lia.
      * assert (Es : of_ratio sq n 1 = Finite sq mp ep).
        { rewrite En, <- Dn. now apply of_ratio_self. }
        rewrite Es.
        rewrite (shown_whole_in_HC sq mp ep n Cp); [ reflexivity | lia | ].
        rewrite En. rewrite Dn in B. lia.
Qed.

(** [toHC] of a stored amount below [10^21]: that many
    hundred-millionths, as a Number. *)
Lemma shown_stored_decimal p :
  canonical p -> magnitude_below p (10 ^ 21) ->
  same_value_zero (shown (div (stored p) (of_Z 100000000)) 8)
                  (of_decimal (round_half_away_from_zero (exact p)) 8).
Proof.
  intros Cp B.
  destruct p as [sp|sp| |sp mp ep]; try (destruct B as [B _]; discriminate B).
  - destruct sp; vm_compute; reflexivity.
  - apply magnitude_below_finite in B.
    rewrite round_unscaled.
    pose proof (mag_num_pos mp ep) as Pn. pose proof (mag_den_pos ep) as Pd.
    pose proof (nearest_fixed_nonneg (mag_num mp ep) (mag_den ep) 0
                  ltac:(lia) Pd) as Nn.
    rewrite stored_small by (assumption || lia).
    set (n := nearest_fixed (mag_num mp ep) (mag_den ep) 0) in *.
    destruct (Z.eq_dec n 0) as [->|Nz].
    { destruct sp; vm_compute; reflexivity. }
    unfold of_decimal. rewrite cond_Zopp_abs by exact Nn.
    replace (cond_Zopp sp n <? 0) with sp
      by (destruct sp; cbn [cond_Zopp]; symmetry;
          [ apply Z.ltb_lt | apply Z.ltb_ge ]; lia).
    destruct (nearest_integer_cases mp ep (proj1 Cp)) as [Sm|[Dn En]];
      fold n in Sm || fold n in En.
    + destruct (of_ratio_small_integer sp n ltac:(lia)) as (m & e & -> & C & V).
      rewrite (shown_whole_in_HC sp m e n C V); [ reflexivity | ].
      unfold prec in Sm. lia.
    + assert (Es : of_ratio sp n 1 = Finite sp mp ep).
      { rewrite En, <- Dn. now apply of_ratio_self. }
      rewrite Es.
      rewrite (shown_whole_in_HC sp mp ep n Cp); [ reflexivity | lia | ].
      rewrite En. rewrite Dn in B. lia.
Qed.

(** ** The claims about construction and conversion *)

(** What is stored for a product below [10^21] is its rounding. *)
Lemma stored_rounds p :
  canonical p -> magnitude_below p (10 ^ 21) ->
  to_Z (stored p) = Some (round_half_away_from_zero (exact p)).
Proof.
  intros C B. destruct p as [s|s| |sg m e]; try (destruct B; discriminate).
  - reflexivity.
  - rewrite round_unscaled. apply stored_value; [ exact C | ].
    apply magnitude_below_finite in B. exact B.
Qed.

(** [to('atoms')] on an instance whose stored value is integral. *)
Lemma to_atoms_integral v :
  integral v ->
  exists r, outcome (to (Code Unit_atoms)) {| _value := Some v |} = Ok r /\
            same_value_zero r v.
Proof.
  intros I. exists (shown v 0). split.
  - cbn [to]. unfold outcome.
    rewrite (to_code_known Unit_atoms (Entry [of_Z 1; of_Z 0]) 0) by (reflexivity || lia).
    cbn [fst _value ToNumber element nth_error].
    now rewrite div_one by apply I.
  - now apply shown_integral.
Qed.

Lemma constructed amount c u :
  new_Unit amount c = Ok u ->
  u = {| _value := Some (stored (ingested amount c)) |}.
Proof.
  intros H. apply new_Unit_stored in H. destruct u as [v]. simpl in H. now subst.
Qed.

(** C1 (amended). For every amount and every code of the table whose
    product [amount * scaleFactor] is finite and below [10^21] in
    magnitude, the constructor stores that product rounded half away from
    zero to the nearest integer, and [toAtoms] returns that integer; in
    particular [Unit.fromHC(1.3).toAtoms()] is [130000000] and
    [Unit.fromMicros(1.3).to('mHC')] is [0.0013]. *)
Theorem unit_stores_rounded_product :
  (forall amount code scale precision,
      known code scale precision ->
      magnitude_below (mul amount scale) (10 ^ 21) ->
      exists u v r,
        new_Unit amount (Code code) = Ok u /\
        _value u = Some v /\
        to_Z v = Some (round_half_away_from_zero (exact (mul amount scale))) /\
        outcome toAtoms u = Ok r /\
        to_Z r = Some (round_half_away_from_zero (exact (mul amount scale)))) /\
  (exists u, fromHC (of_decimal 13 1) = Ok u /\
             outcome toAtoms u = Ok (of_Z 130000000)) /\
  (exists u, fromMicros (of_decimal 13 1) = Ok u /\
             outcome (to (Code Unit_mHC)) u = Ok (of_decimal 13 4)).
Proof.
  split; [ | split ].
  - intros amount code scale precision K B.
    pose proof (known_get _ _ _ K) as G.
    pose proof (new_Unit_known amount code _ G) as N.
    cbn [element nth_error ToNumber] in N.
    set (p := mul amount scale) in *.
    assert (C : canonical p) by apply mul_canonical.
    destruct (to_atoms_integral (stored p) (stored_integral p C)) as (r & R & S).
    exists {| _value := Some (stored p) |}, (stored p), r.
    repeat split; auto.
    + now apply stored_rounds.
    + rewrite (same_value_zero_to_Z _ _ S). now apply stored_rounds.
  - eexists. split; [ vm_compute; reflexivity | ]. vm_compute. reflexivity.
  - eexists. split; [ vm_compute; reflexivity | ]. vm_compute. reflexivity.
Qed.

Lemma unit_stores_rounded_product_witness :
  magnitude_below (mul (of_decimal 13 1) (of_Z 100000)) (10 ^ 21) /\
  exists u v r,
    new_Unit (of_decimal 13 1) (Code "mHC") = Ok u /\
    _value u = Some v /\
    to_Z v = Some (round_half_away_from_zero
                     (exact (mul (of_decimal 13 1) (of_Z 100000)))) /\
    outcome toAtoms u = Ok r /\
    to_Z r = Some (round_half_away_from_zero
                     (exact (mul (of_decimal 13 1) (of_Z 100000)))).
Proof.
  assert (B : magnitude_below (mul (of_decimal 13 1) (of_Z 100000)) (10 ^ 21)).
  { split; vm_compute; reflexivity. }
  split; [ exact B | ].
  apply (proj1 unit_stores_rounded_product (of_decimal 13 1) "mHC"%string
           (of_Z 100000) (of_Z 5)).
  - unfold known, UNITS. cbn [In]. auto.
  - exact B.
Defined.

(** C1, as stated, fails for an amount of [1e13] HC: the product is
    [1e21], [toFixed] prints it as ["1e+21"] and [parseInt] reads [1]. *)
Lemma stored_amount_counterexample :
  let amount := of_Z (10 ^ 13) in
  let product := mul amount (of_Z 100000000) in
  is_finite amount = true /\
  known "HC" (of_Z 100000000) (of_Z 8) /\
  round_half_away_from_zero (exact product) = 10 ^ 21 /\
  exists u v,
    new_Unit amount (Code "HC") = Ok u /\ _value u = Some v /\
    to_Z v = Some 1 /\
    to_Z v <> Some (round_half_away_from_zero (exact product)).
Proof.
  cbv zeta. split; [ vm_compute; reflexivity | ].
  split; [ unfold known, UNITS; cbn [In]; auto | ].
  split; [ vm_compute; reflexivity | ].
  eexists. eexists. split; [ vm_compute; reflexivity | ].
  split; [ reflexivity | ]. split; [ vm_compute; reflexivity | ].
  vm_compute. discriminate.
Qed.

Lemma equal_same_value_zero x y :
  same_value_zero x y -> x <> NaN -> equal x y = true.
Proof.
  unfold same_value_zero.
  destruct x, y; cbn [unsigned_zero equal]; intros H N;
    try discriminate H; try reflexivity; try congruence.
  - injection H as <-. apply Bool.eqb_reflx.
  - injection H as <- <- <-.
    now rewrite Bool.eqb_reflx, Pos.eqb_refl, Z.eqb_refl.
Qed.

(** C3 (amended). For every Unit the constructor returns, [to('atoms')]
    succeeds, and whenever the product that was rounded is finite it
    returns exactly the stored atomic amount: the same integer, in a
    Number that [===] finds equal to the stored one.  When that product
    is not finite the stored amount is NaN and [to('atoms')] returns
    NaN.  The entry of ['atoms'] has scale factor 1 and precision 0. *)
Theorem atomic_projection_lossless amount c u :
  new_Unit amount c = Ok u ->
  known Unit_atoms (of_Z 1) (of_Z 0) /\
  exists v r,
    _value u = Some v /\
    outcome (to (Code Unit_atoms)) u = Ok r /\
    same_value_zero r v /\
    (is_finite (ingested amount c) = true ->
     equal r v = true /\
     exists n, to_Z v = Some n /\ to_Z r = Some n) /\
    (is_finite (ingested amount c) = false -> v = NaN /\ r = NaN).
Proof.
  intros H. rewrite (constructed _ _ _ H).
  split; [ unfold known, UNITS; cbn [In]; auto 10 | ].
  pose proof (ingested_canonical amount c) as C.
  set (p := ingested amount c) in *. set (v := stored p).
  assert (I : integral v) by now apply stored_integral.
  destruct (to_atoms_integral v I) as (r & R & S).
  exists v, r. split; [ reflexivity | ]. split; [ exact R | ].
  split; [ exact S | ]. split.
  - intros F. destruct (stored_finite p C F) as (n & T). fold v in T.
    pose proof (same_value_zero_to_Z _ _ S) as Q.
    split; [ | exists n; split; congruence ].
    apply equal_same_value_zero; [ exact S | ].
    intros ->. rewrite T in Q. discriminate Q.
  - intros F. unfold v in *. rewrite (stored_not_finite p F) in *.
    split; [ reflexivity | ].
    unfold same_value_zero in S. now destruct r.
Qed.

Lemma atomic_projection_lossless_witness :
  exists v r,
    _value {| _value := Some (of_Z 130000000) |} = Some v /\
    outcome (to (Code Unit_atoms)) {| _value := Some (of_Z 130000000) |} = Ok r /\
    equal r v = true /\
    exists n, to_Z v = Some n /\ to_Z r = Some n.
Proof.
  destruct (atomic_projection_lossless (of_decimal 13 1) (Code "HC")
              {| _value := Some (of_Z 130000000) |})
    as (_ & v & r & V & R & _ & F & _).
  - vm_compute. reflexivity.
  - exists v, r. split; [ exact V | ]. split; [ exact R | ].
    apply F. vm_compute. reflexivity.
Defined.

(** C3, as stated, fails for [Unit(1e308, 'HC')]: the product overflows,
    the stored amount is NaN, and [to('atoms')] returns NaN, which is no
    integer and which [===] does not find equal to the stored amount. *)
Lemma atomic_projection_counterexample :
  let amount := of_Z (10 ^ 308) in
  is_finite amount = true /\ canonical amount /\
  known "HC" (of_Z 100000000) (of_Z 8) /\
  exists u v r,
    new_Unit amount (Code "HC") = Ok u /\ _value u = Some v /\
    outcome (to (Code Unit_atoms)) u = Ok r /\
    to_Z v = None /\ to_Z r = None /\ equal r v = false.
Proof.
  cbv zeta. split; [ vm_compute; reflexivity | ].
  split; [ vm_compute; intuition (discriminate || lia) | ].
  split; [ unfold known, UNITS; cbn [In]; auto | ].
  exists {| _value := Some NaN |}, NaN, NaN.
  split; [ vm_compute; reflexivity | ]. split; [ reflexivity | ].
  split; [ vm_compute; reflexivity | ]. repeat split; reflexivity.
Qed.

(** C7 (amended). For every Unit produced by the constructor, and so by
    any factory, the stored atomic amount is an integer whenever the
    product that is rounded (amount times scale factor, the amount first
    divided by the rate for a fiat amount) is finite; it is NaN when that
    product is not finite. *)
Theorem stored_amount_is_integer amount c u :
  new_Unit amount c = Ok u ->
  (is_finite (ingested amount c) = true ->
   exists v n, _value u = Some v /\ to_Z v = Some n) /\
  (is_finite (ingested amount c) = false -> _value u = Some NaN).
Proof.
  intros H. rewrite (constructed _ _ _ H). split; intros F.
  - destruct (stored_finite (ingested amount c) (ingested_canonical _ _) F)
      as [n E].
    exists (stored (ingested amount c)), n. split; [ reflexivity | exact E ].
  - cbn [_value]. now rewrite stored_not_finite.
Qed.

Lemma stored_amount_is_integer_witness :
  (exists v n,
      _value {| _value := Some (of_Z 371429) |} = Some v /\ to_Z v = Some n) /\
  _value {| _value := Some NaN |} = Some NaN.
Proof.
  split.
  - apply (stored_amount_is_integer (of_decimal 13 1) (Rate (of_Z 350)));
      vm_compute; reflexivity.
  - apply (stored_amount_is_integer (of_Z (10 ^ 308)) (Code "HC"));
      vm_compute; reflexivity.
Defined.

(** C7, as stated, fails for the finite amount [1e308] HC: the product
    overflows to [Infinity], which [toFixed] prints as ["Infinity"] and
    [parseInt] reads as NaN. *)
Lemma stored_amount_not_integer_counterexample :
  let amount := of_Z (10 ^ 308) in
  is_finite amount = true /\ canonical amount /\
  known "HC" (of_Z 100000000) (of_Z 8) /\
  exists u,
    new_Unit amount (Code "HC") = Ok u /\ _value u = Some NaN /\
    ~ (exists v n, _value u = Some v /\ to_Z v = Some n).
Proof.
  cbv zeta. split; [ vm_compute; reflexivity | ].
  split; [ vm_compute; intuition (discriminate || lia) | ].
  split; [ unfold known, UNITS; cbn [In]; auto | ].
  exists {| _value := Some NaN |}.
  split; [ vm_compute; reflexivity | ]. split; [ reflexivity | ].
  intros (v & n & [= <-] & E). discriminate.
Qed.

Lemma to_HC_shown this :
  to_code Unit_HC this =
  (Ok (shown (div (ToNumber (_value this)) (of_Z 100000000)) 8), this).
Proof.
  now rewrite (to_code_known Unit_HC (Entry [of_Z 100000000; of_Z 8]) 8)
    by (reflexivity || lia).
Qed.

(** C2 (amended). For every fiat amount [F] and rate [R > 0],
    [fromFiat(F, R)] builds the Unit that [fromHC(F / R)] builds, and its
    [toHC()] is the stored atomic amount divided by [1e8] and rounded half
    away from zero to 8 decimal digits.  When the product [(F / R) * 1e8]
    is below [10^21], the stored amount is that product rounded to the
    nearest integer and [toHC()] is the Number for that many
    hundred-millionths; so [toHC()] is [F / R] rounded to 8 decimal
    digits exactly when that Number is, and in particular whenever
    rounding the product gives the integer that rounding the exact value
    of [F / R] times [10^8] gives. *)
Theorem fiat_duality F R :
  gt_zero R = true ->
  let q := div F R in
  let p := mul q (of_Z 100000000) in
  fromFiat F R = fromHC q /\
  exists u v r,
    fromFiat F R = Ok u /\ _value u = Some v /\
    outcome toHC u = Ok r /\
    same_value_zero r (round_to_precision (div v (of_Z 100000000)) 8) /\
    (magnitude_below p (10 ^ 21) ->
     to_Z v = Some (round_half_away_from_zero (exact p))) /\
    (magnitude_below p (10 ^ 21) ->
     same_value_zero r (of_decimal (round_half_away_from_zero (exact p)) 8)) /\
    (magnitude_below p (10 ^ 21) ->
     (same_value_zero r (round_to_precision q 8) <->
      same_value_zero (of_decimal (round_half_away_from_zero (exact p)) 8)
                      (round_to_precision q 8))) /\
    (magnitude_below p (10 ^ 21) ->
     round_half_away_from_zero (Qmult (exact q) (inject_Z (10 ^ 8))) =
     round_half_away_from_zero (exact p) ->
     same_value_zero r (round_to_precision q 8)).
Proof.
  intros G q p. apply gt_zero_not_le in G.
  assert (E : fromFiat F R = fromHC q) by (now apply new_Unit_rate).
  split; [ exact E | ].
  exists {| _value := Some (stored p) |}, (stored p),
         (shown (div (stored p) (of_Z 100000000)) 8).
  split; [ | split; [ reflexivity | split; [ | split; [ | split;
    [ | split; [ | split ] ] ] ] ] ].
  - rewrite E. unfold fromHC.
    now rewrite (new_Unit_known _ Unit_HC (Entry [of_Z 100000000; of_Z 8])).
  - unfold toHC, outcome. cbn [to]. now rewrite to_HC_shown.
  - apply shown_spec; [ apply div_canonical | lia ].
  - apply stored_rounds, mul_canonical.
  - apply shown_stored_decimal, mul_canonical.
  - intros B. pose proof (shown_stored_decimal p (mul_canonical _ _) B) as S.
    unfold same_value_zero in *. rewrite S. reflexivity.
  - apply shown_stored_agrees. apply div_canonical.
Qed.

Lemma fiat_duality_witness :
  exists u r,
    fromFiat (of_decimal 13 1) (of_Z 350) = Ok u /\
    outcome toHC u = Ok r /\
    same_value_zero r
      (round_to_precision (div (of_decimal 13 1) (of_Z 350)) 8).
Proof.
  assert (G : gt_zero (of_Z 350) = true) by (vm_compute; reflexivity).
  destruct (fiat_duality (of_decimal 13 1) (of_Z 350) G)
    as (_ & u & v & r & Hu & _ & Hr & _ & _ & _ & _ & Ha).
  exists u, r. split; [ exact Hu | ]. split; [ exact Hr | ].
  apply Ha.
  - split; vm_compute; reflexivity.
  - vm_compute. reflexivity.
Defined.

(** C2, as stated, fails for [F = 2.5e-8] and [R = 1]: [F / R] is the
    double just below [2.5e-8], so rounding it to 8 digits gives [2e-8];
    but its product with [1e8] is the double [2.5], stored as 3 atoms,
    and [toHC()] is [3e-8]. *)
Lemma fiat_duality_counterexample :
  let F := of_decimal 25 9 in
  let R := of_Z 1 in
  gt_zero R = true /\
  round_to_precision (div F R) 8 = of_decimal 2 8 /\
  exists u,
    fromFiat F R = Ok u /\
    outcome toHC u = Ok (of_decimal 3 8) /\
    ~ same_value_zero (of_decimal 3 8) (round_to_precision (div F R) 8).
Proof.
  cbv zeta. split; [ vm_compute; reflexivity | ].
  split; [ vm_compute; reflexivity | ].
  eexists. split; [ vm_compute; reflexivity | ].
  split; [ vm_compute; reflexivity | ].
  vm_compute. discriminate.
Qed.

(** C4. A rate [r <= 0] makes the constructor, [to] and [atRate] throw
    [InvalidRate] carrying [r]; with [r > 0] none of them throws, the
    constructor proceeds as [Unit(amount / r, 'HC')], and [to(r)] is the
    base-unit value times [r], rounded half away from zero to 2 decimal
    digits. *)
Theorem rate_handling amount r u :
  (le_zero r = true ->
   new_Unit amount (Rate r) = Throw (InvalidRate r) /\
   outcome (to (Rate r)) u = Throw (InvalidRate r) /\
   outcome (atRate r) u = Throw (InvalidRate r)) /\
  (gt_zero r = true ->
   new_Unit amount (Rate r) = new_Unit (div amount r) (Code Unit_HC) /\
   (exists u', new_Unit amount (Rate r) = Ok u') /\
   exists hc x,
     outcome toHC u = Ok hc /\
     outcome (to (Rate r)) u = Ok x /\
     outcome (atRate r) u = Ok x /\
     same_value_zero x (round_to_precision (mul hc r) 2)).
Proof.
  split.
  - intros L. split; [ now apply new_Unit_invalid_rate | ].
    unfold atRate, outcome. cbn [to]. rewrite L. split; reflexivity.
  - intros G. apply gt_zero_not_le in G.
    split; [ now apply new_Unit_rate | ]. split.
    + rewrite new_Unit_rate by exact G.
      rewrite (new_Unit_known _ Unit_HC (Entry [of_Z 100000000; of_Z 8])) by reflexivity.
      eauto.
    + set (hc := shown (div (ToNumber (_value u)) (of_Z 100000000)) 8).
      exists hc, (shown (mul hc r) 2).
      assert (T : to (Rate r) u = (Ok (shown (mul hc r) 2), u)).
      { cbn [to]. rewrite G. unfold bind, accessor.
        change (to_code "HC" u) with (to_code Unit_HC u).
        rewrite to_HC_shown. fold hc. unfold lift, ret.
        rewrite (toFixed_Ok _ _ 2) by (reflexivity || lia).
        now rewrite parseFloat_string. }
      split; [ | split; [ | split ] ].
      * unfold toHC, outcome. cbn [to]. now rewrite to_HC_shown.
      * unfold outcome. now rewrite T.
      * unfold atRate, outcome. now rewrite T.
      * apply shown_spec; [ apply mul_canonical | lia ].
Qed.

Lemma rate_handling_witness :
  new_Unit (of_Z 1) (Rate (of_Z (-5))) = Throw (InvalidRate (of_Z (-5))) /\
  new_Unit (of_decimal 13 1) (Rate (of_Z 350)) =
  new_Unit (div (of_decimal 13 1) (of_Z 350)) (Code Unit_HC).
Proof.
  split.
  - apply (proj1 (rate_handling (of_Z 1) (of_Z (-5)) {| _value := None |})).
    vm_compute. reflexivity.
  - apply (proj2 (rate_handling (of_decimal 13 1) (of_Z 350) {| _value := None |})).
    vm_compute. reflexivity.
Defined.

(** C5: the code departs from the claim.  ["toString"] is not a code of
    the table, yet [UNITS["toString"]] finds the function inherited from
    [Object.prototype], which is truthy: the constructor does not throw
    and stores NaN, and [to("toString")] returns NaN. *)
Theorem inherited_property_accepted_as_code :
  own_property "toString" UNITS = None /\
  new_Unit (of_Z 1) (Code "toString") = Ok {| _value := Some NaN |} /\
  (forall u, outcome (to (Code "toString")) u = Ok NaN).
Proof.
  split; [ reflexivity | ]. split; [ vm_compute; reflexivity | ].
  intros u. unfold outcome. cbn [to].
  rewrite (to_code_known "toString" (Inherited "toString") 0) by (reflexivity || lia).
  cbn [fst element ToNumber]. destruct (ToNumber (_value u)); reflexivity.
Qed.

(** The part of C5 the code does honour: a string that is neither a code
    of the table nor a property of [Object.prototype] makes the
    constructor and [to] throw [UnknownCode] carrying it, and
    [fromObject] rejects whatever is not an object before constructing
    anything. *)
Lemma unknown_code_rejected amount code u :
  own_property code UNITS = None ->
  existsb (String.eqb code) Object_prototype = false ->
  new_Unit amount (Code code) = Throw (UnknownCode code) /\
  outcome (to (Code code)) u = Throw (UnknownCode code).
Proof.
  intros O P.
  assert (G : UNITS_get code = None) by (unfold UNITS_get; now rewrite O, P).
  split; [ now apply new_Unit_unknown | ].
  unfold outcome. cbn [to]. now rewrite to_code_unknown.
Qed.

Lemma fromObject_rejects_non_object d :
  isObject d = false ->
  fromObject d = Throw (InvalidArgument "Argument is expected to be an object").
Proof. intros E. unfold fromObject. now rewrite E. Qed.

(** C6. For every constructed Unit, [toObject] and [toJSON] return
    [{ amount: to('HC'), code: 'HC' }]; the answer depends on the stored
    amount only, so the denomination used at construction is not kept:
    one HC and a thousand mHC serialize alike. *)
Theorem serialization_in_base_unit amount c u :
  new_Unit amount c = Ok u ->
  (exists hc,
      outcome (to (Code Unit_HC)) u = Ok hc /\
      outcome toObject u = Ok {| amount := hc; code := "HC" |} /\
      outcome toJSON u = Ok {| amount := hc; code := "HC" |}) /\
  (forall amount' c' u',
      new_Unit amount' c' = Ok u' -> _value u' = _value u ->
      outcome toObject u' = outcome toObject u) /\
  (exists u1 u2,
      new_Unit (of_Z 1) (Code "HC") = Ok u1 /\
      new_Unit (of_Z 1000) (Code "mHC") = Ok u2 /\
      outcome toObject u1 = outcome toObject u2).
Proof.
  intros H. split; [ | split ].
  - exists (shown (div (ToNumber (_value u)) (of_Z 100000000)) 8).
    unfold toJSON, toObject, outcome, bind, accessor. cbn [to].
    change (to_code "HC" u) with (to_code Unit_HC u).
    rewrite to_HC_shown. repeat split; reflexivity.
  - intros amount' c' [v'] _ E. destruct u as [v]. simpl in E. now subst.
  - do 2 eexists. split; [ vm_compute; reflexivity | ].
    split; [ vm_compute; reflexivity | ]. vm_compute. reflexivity.
Qed.

Lemma serialization_in_base_unit_witness :
  exists hc,
    outcome (to (Code Unit_HC)) {| _value := Some (of_Z 130) |} = Ok hc /\
    outcome toObject {| _value := Some (of_Z 130) |}
    = Ok {| amount := hc; code := "HC" |} /\
    outcome toJSON {| _value := Some (of_Z 130) |}
    = Ok {| amount := hc; code := "HC" |}.
Proof.
  apply (serialization_in_base_unit (of_decimal 13 1) (Code "bits")).
  vm_compute. reflexivity.
Defined.

(** C9 (amended). In the table, taken in its order HC, mHC, uHC, bits,
    dbits, atoms, the scale factors and the display precisions never
    increase; two entries have the same scale factor, or the same
    precision, only when both are among uHC, bits and dbits, which all
    have 100 and 2; the entry of atoms has scale factor 1 and
    precision 0. *)
Theorem table_is_ordered :
  StronglySorted Z.ge (map scale_factor UNITS) /\
  StronglySorted Z.ge (map display_precision UNITS) /\
  (forall e e',
      In e UNITS -> In e' UNITS ->
      scale_factor e = scale_factor e' \/
      display_precision e = display_precision e' ->
      fst e = fst e' \/ (In (fst e) micro_codes /\ In (fst e') micro_codes)) /\
  (forall e, In e UNITS -> In (fst e) micro_codes ->
             scale_factor e = 100 /\ display_precision e = 2) /\
  known "atoms" (of_Z 1) (of_Z 0) /\
  scale_factor ("atoms"%string, [of_Z 1; of_Z 0]) = 1 /\
  display_precision ("atoms"%string, [of_Z 1; of_Z 0]) = 0.
Proof.
  assert (S : map scale_factor UNITS = [100000000; 100000; 100; 100; 100; 1])
    by (vm_compute; reflexivity).
  assert (P : map display_precision UNITS = [8; 5; 2; 2; 2; 0])
    by (vm_compute; reflexivity).
  split; [ rewrite S; repeat constructor; lia | ].
  split; [ rewrite P; repeat constructor; lia | ].
  split; [ | split; [ | split; [ | split ] ] ].
  - intros e e' H H'. unfold UNITS in H, H'. cbn [In] in H, H'.
    repeat (destruct H as [<-|H]; [ | ]); try contradiction;
      repeat (destruct H' as [<-|H']; [ | ]); try contradiction;
      vm_compute; intros [E|E]; try discriminate E; auto 10.
  - intros e H. unfold UNITS in H. cbn [In] in H.
    repeat (destruct H as [<-|H]; [ | ]); try contradiction;
      vm_compute; intuition discriminate.
  - unfold known, UNITS. cbn [In]. auto 10.
  - vm_compute. reflexivity.
  - vm_compute. reflexivity.
Qed.

Lemma table_is_ordered_witness :
  scale_factor ("bits"%string, [of_Z 100; of_Z 2]) = 100 /\
  display_precision ("bits"%string, [of_Z 100; of_Z 2]) = 2.
Proof.
  apply (proj1 (proj2 (proj2 (proj2 table_is_ordered)))
           ("bits"%string, [of_Z 100; of_Z 2])).
  - unfold UNITS. cbn [In]. auto 10.
  - unfold micro_codes. cbn [In fst]. auto.
Defined.

(** C9, as stated, fails: uHC and bits are neighbours in the table with
    the same scale factor and the same precision, so neither sequence is
    strictly decreasing. *)
Lemma table_not_strictly_decreasing_counterexample :
  ~ (StronglySorted Z.gt (map scale_factor UNITS) /\
     StronglySorted Z.gt (map display_precision UNITS) /\
     known "atoms" (of_Z 1) (of_Z 0)).
Proof.
  intros (S & _).
  replace (map scale_factor UNITS) with [100000000; 100000; 100; 100; 100; 1] in S
    by (vm_compute; reflexivity).
  inversion S as [ | ? ? S1 _ ]; subst. inversion S1 as [ | ? ? S2 _ ]; subst.
  inversion S2 as [ | ? ? _ F ]; subst. inversion F as [ | ? ? G _ ]; subst.
  lia.
Qed.

(** C10. [to('uHC')], [to('bits')] and [to('dbits')] return the same
    number on every Unit, their entries sharing scale factor 100 and
    precision 2; ['uHC'] is accepted wherever a code is: by the
    constructor, which builds the same Unit as for ['bits'], by [to],
    which does not throw, and as an accessor and a static constant. *)
Theorem micro_codes_agree (u : Unit) (amount : number) :
  outcome (to (Code "uHC")) u = outcome (to (Code "bits")) u /\
  outcome (to (Code "bits")) u = outcome (to (Code "dbits")) u /\
  (exists r, outcome (to (Code "uHC")) u = Ok r) /\
  known "uHC" (of_Z 100) (of_Z 2) /\
  known "bits" (of_Z 100) (of_Z 2) /\
  known "dbits" (of_Z 100) (of_Z 2) /\
  new_Unit amount (Code "uHC") = new_Unit amount (Code "bits") /\
  new_Unit amount (Code "uHC") = new_Unit amount (Code "dbits") /\
  (exists u', new_Unit amount (Code "uHC") = Ok u') /\
  In "uHC"%string Object_keys_UNITS /\
  outcome (accessor "uHC") u = outcome (to (Code "uHC")) u /\
  Unit_uHC = "uHC"%string.
Proof.
  assert (T : forall c, In c micro_codes ->
                to_code c u =
                (Ok (shown (div (ToNumber (_value u)) (of_Z 100)) 2), u)).
  { intros c [<-|[<-|[<-|[]]]];
      now rewrite (to_code_known _ (Entry [of_Z 100; of_Z 2]) 2)
        by (reflexivity || lia). }
  assert (N : forall c, In c micro_codes ->
                new_Unit amount (Code c) =
                Ok {| _value := Some (stored (mul amount (of_Z 100))) |}).
  { intros c [<-|[<-|[<-|[]]]];
      now rewrite (new_Unit_known _ _ (Entry [of_Z 100; of_Z 2])). }
  unfold outcome, accessor. cbn [to].
  rewrite !T, !N by (unfold micro_codes; cbn [In]; auto).
  unfold known, UNITS, Object_keys_UNITS. cbn [In map fst].
  repeat split; eauto 10.
  right. right. left. reflexivity.
Qed.

(** * Further properties of the module

    What the constructor, the conversions and the printers do beyond
    the statements above: the shape of every conversion, the errors
    raised, the range of what is stored, and the round trips. *)

Import Text.

(** ** Conversions to a code of the table, and the errors raised *)

(** Every entry of the table is a power of ten with that many digits. *)
Lemma known_power_of_ten code scale precision :
  known code scale precision ->
  exists f ms es,
    0 <= f <= 8 /\ scale = Finite false ms es /\
    canonical (Finite false ms es) /\
    mag_num ms es = 10 ^ f * mag_den es /\
    ToIntegerOrInfinity (Some precision) = Some f /\
    truncate precision = f.
Proof.
  unfold known.
  assert (E : UNITS = ltac:(let v := eval vm_compute in UNITS in exact v))
    by (vm_compute; reflexivity).
  rewrite E. clear E. cbn [In]. intros H.
  destruct H as [H|[H|[H|[H|[H|[H|[]]]]]]]; injection H as <- <- <-;
    [ exists 8 | exists 5 | exists 2 | exists 2 | exists 2 | exists 0 ];
    eexists; eexists;
    (split; [ lia | ]); (split; [ reflexivity | ]);
    (split; [ vm_compute; intuition (discriminate || lia) | ]);
    (split; [ vm_compute; reflexivity | ]);
    split; vm_compute; reflexivity.
Qed.

Lemma ToIntegerOrInfinity_truncate x f :
  ToIntegerOrInfinity (Some x) = Some f -> truncate x = f.
Proof.
  unfold ToIntegerOrInfinity. cbn [ToNumber].
  destruct x; intros [= <-]; reflexivity.
Qed.

(** X1. For every code of the table and every Unit, [to(code)] (and the
    accessor of that code) returns the stored amount divided by the scale
    factor, rounded half away from zero to the display precision of the
    code. *)
Theorem to_code_rounds_quotient code scale precision u :
  known code scale precision ->
  exists r,
    outcome (to (Code code)) u = Ok r /\
    outcome (accessor code) u = Ok r /\
    same_value_zero r
      (round_to_precision (div (ToNumber (_value u)) scale)
                          (truncate precision)).
Proof.
  intros K. pose proof (known_get _ _ _ K) as G.
  destruct (known_power_of_ten _ _ _ K) as (f & ms & es & Hf & _ & _ & _ & T & <-).
  pose proof (to_code_known code _ (truncate precision) u G T ltac:(lia)) as E.
  cbn [element nth_error ToNumber] in E.
  exists (shown (div (ToNumber (_value u)) scale) (truncate precision)).
  unfold outcome, accessor. cbn [to]. rewrite E.
  repeat split. apply shown_spec; [ apply div_canonical | lia ].
Qed.

Lemma to_code_rounds_quotient_witness :
  exists r,
    outcome (to (Code "mHC")) {| _value := Some (of_Z 130000) |} = Ok r /\
    outcome (accessor "mHC") {| _value := Some (of_Z 130000) |} = Ok r /\
    same_value_zero r
      (round_to_precision (div (of_Z 130000) (of_Z 100000)) (truncate (of_Z 5))).
Proof.
  apply (to_code_rounds_quotient "mHC" (of_Z 100000) (of_Z 5)
           {| _value := Some (of_Z 130000) |}).
  unfold known, UNITS. cbn [In]. auto.
Defined.

(** *** Which errors, and when *)

Lemma to_code_outcome code u :
  match outcome (to_code code) u with
  | Ok _ => UNITS_get code <> None
  | Throw e => e = UnknownCode code /\ UNITS_get code = None
  end.
Proof.
  destruct (UNITS_get code) as [p| ] eqn:G.
  - destruct (precision_accepted code p G) as (f & T & R).
    unfold outcome. rewrite (to_code_known code p f u G T R). cbn [fst]. discriminate.
  - unfold outcome. rewrite to_code_unknown by exact G. cbn [fst]. auto.
Qed.

Lemma to_HC_outcome u :
  outcome (to_code Unit_HC) u =
  Ok (shown (div (ToNumber (_value u)) (of_Z 100000000)) 8).
Proof. unfold outcome. now rewrite to_HC_shown. Qed.

Lemma to_rate_outcome rate u :
  le_zero rate = false ->
  outcome (to (Rate rate)) u =
  Ok (shown (mul (shown (div (ToNumber (_value u)) (of_Z 100000000)) 8) rate) 2).
Proof.
  intros L. unfold outcome. cbn [to]. rewrite L. unfold bind, accessor.
  change (to_code "HC" u) with (to_code Unit_HC u). rewrite to_HC_shown.
  unfold lift, ret. rewrite (toFixed_Ok _ _ 2) by (reflexivity || lia).
  now rewrite parseFloat_string.
Qed.

(** X2. The constructor and [to] throw in two cases only: [UnknownCode],
    carrying the code they were given, exactly when [UNITS[code]] is
    [undefined], and [InvalidRate], carrying the rate, exactly when the
    rate is [<= 0].  [fromObject] throws the argument error for what is
    not an object and otherwise does what the constructor does.  In
    particular [toFixed] is never handed a number of digits it rejects. *)
Theorem errors_raised (amount : number) (c : arg) (d : data) (u : Unit) :
  match new_Unit amount c, c with
  | Ok _, Code code => UNITS_get code <> None
  | Ok _, Rate rate => le_zero rate = false
  | Throw e, Code code => e = UnknownCode code /\ UNITS_get code = None
  | Throw e, Rate rate => e = InvalidRate rate /\ le_zero rate = true
  end /\
  match outcome (to c) u, c with
  | Ok _, Code code => UNITS_get code <> None
  | Ok _, Rate rate => le_zero rate = false
  | Throw e, Code code => e = UnknownCode code /\ UNITS_get code = None
  | Throw e, Rate rate => e = InvalidRate rate /\ le_zero rate = true
  end /\
  match d with
  | Object amount' c' => fromObject d = new_Unit amount' c'
  | _ => fromObject d =
         Throw (InvalidArgument "Argument is expected to be an object")
  end.
Proof.
  split; [ | split ].
  - destruct c as [code|rate].
    + destruct (UNITS_get code) as [p| ] eqn:G.
      * rewrite (new_Unit_known _ _ p G). discriminate.
      * rewrite new_Unit_unknown by exact G. auto.
    + destruct (le_zero rate) eqn:L.
      * rewrite new_Unit_invalid_rate by exact L. auto.
      * rewrite new_Unit_rate by exact L.
        rewrite (new_Unit_known _ Unit_HC (Entry [of_Z 100000000; of_Z 8]));
          reflexivity.
  - destruct c as [code|rate].
    + cbn [to]. pose proof (to_code_outcome code u) as O.
      destruct (outcome (to_code code) u); exact O.
    + destruct (le_zero rate) eqn:L.
      * unfold outcome. cbn [to]. rewrite L. cbn [throw fst]. auto.
      * now rewrite to_rate_outcome.
  - destruct d; reflexivity.
Qed.

Lemma accessor_answers key u :
  In key Object_keys_UNITS -> exists x, outcome (accessor key) u = Ok x.
Proof.
  intros H. unfold accessor.
  pose proof (to_code_outcome key u) as O.
  destruct (outcome (to_code key) u) as [x|e]; [ eauto | ].
  exfalso. destruct O as [_ O].
  unfold Object_keys_UNITS, UNITS in H. cbn [map fst In] in H.
  repeat (destruct H as [<-|H]; [ vm_compute in O; discriminate O | ]).
  contradiction.
Qed.

(** X3. Reading a Unit never throws: the fixed-name conversions, the
    accessor of every key of the table, [toString], [toObject],
    [toJSON] and [inspect] return a result whatever the instance
    holds. *)
Theorem conversions_never_throw (u : Unit) :
  (exists x, outcome toHC u = Ok x) /\
  (exists x, outcome toMillis u = Ok x) /\
  (exists x, outcome toMilis u = Ok x) /\
  (exists x, outcome toMicros u = Ok x) /\
  (exists x, outcome toDbits u = Ok x) /\
  (exists x, outcome toAtoms u = Ok x) /\
  (forall key, In key Object_keys_UNITS ->
               exists x, outcome (accessor key) u = Ok x) /\
  (exists s, outcome toString u = Ok s) /\
  (exists o, outcome toObject u = Ok o /\ outcome toJSON u = Ok o) /\
  (exists s, outcome inspect u = Ok s).
Proof.
  pose proof (accessor_answers) as A.
  assert (K : forall key, In key ["HC"; "mHC"; "uHC"; "bits"; "dbits"; "atoms"]%string ->
                exists x, outcome (to (Code key)) u = Ok x).
  { intros key H. apply (A key u). exact H. }
  cbn [In] in K.
  assert (S : exists s, outcome toString u = Ok s).
  { destruct (A "atoms"%string u) as [x X];
      [ unfold Object_keys_UNITS, UNITS; cbn [map fst In]; auto 10 | ].
    unfold outcome in *. unfold toString, bind.
    destruct (accessor "atoms" u) as [[y|e] this']; cbn [fst] in X;
      [ | discriminate X ].
    eexists. reflexivity. }
  unfold toMilis, toDbits, toHC, toMillis, toMicros, toAtoms,
    Unit_HC, Unit_mHC, Unit_dbits, Unit_atoms.
  repeat split; auto 10.
  - destruct (A "HC"%string u) as [x X];
      [ unfold Object_keys_UNITS, UNITS; cbn [map fst In]; auto 10 | ].
    exists {| amount := x; code := Unit_HC |}.
    unfold toJSON, toObject, outcome, bind in *.
    destruct (accessor "HC" u) as [[y|e] this']; cbn [fst] in X;
      [ injection X as -> | discriminate X ].
    split; reflexivity.
  - destruct S as [s S]. unfold inspect, outcome, bind in *.
    destruct (toString u) as [[y|e] this']; cbn [fst] in S;
      [ | discriminate S ].
    eexists. reflexivity.
Qed.

Lemma mul_NaN_r x : mul x NaN = NaN.
Proof. now destruct x. Qed.

Lemma mul_NaN_l x : mul NaN x = NaN.
Proof. reflexivity. Qed.

Lemma div_NaN_r x : div x NaN = NaN.
Proof. now destruct x. Qed.

Lemma shown_NaN f : shown NaN f = NaN.
Proof. reflexivity. Qed.

Lemma stored_NaN : stored NaN = NaN.
Proof. reflexivity. Qed.

Lemma conversions_never_throw_witness :
  exists x, outcome (accessor "bits") {| _value := Some (of_Z 130) |} = Ok x.
Proof.
  apply (proj1 (proj2 (proj2 (proj2 (proj2 (proj2 (proj2
           (conversions_never_throw {| _value := Some (of_Z 130) |})))))))).
  unfold Object_keys_UNITS, UNITS. cbn [map fst In]. auto 10.
Defined.

(** X4. NaN is not rejected anywhere.  The rate check [rate <= 0] lets
    a NaN rate through, so [new Unit(amount, NaN)] and
    [Unit.fromFiat(amount, NaN)] build a Unit whose atomic amount is NaN,
    and so does a NaN amount with any code of the table or any rate
    that passes the check.  Every conversion of such a Unit, to a code
    of the table or at a rate, returns NaN, [atRate(NaN)] returns NaN on
    every Unit, and [toString] prints ["NaN atoms"]. *)
Theorem nan_is_not_rejected :
  (forall amount,
      new_Unit amount (Rate NaN) = Ok {| _value := Some NaN |} /\
      fromFiat amount NaN = Ok {| _value := Some NaN |}) /\
  (forall code scale precision,
      known code scale precision ->
      new_Unit NaN (Code code) = Ok {| _value := Some NaN |} /\
      outcome (to (Code code)) {| _value := Some NaN |} = Ok NaN) /\
  (forall rate,
      le_zero rate = false ->
      new_Unit NaN (Rate rate) = Ok {| _value := Some NaN |} /\
      outcome (to (Rate rate)) {| _value := Some NaN |} = Ok NaN) /\
  (forall u, outcome (atRate NaN) u = Ok NaN) /\
  outcome toString {| _value := Some NaN |} = Ok "NaN atoms"%string /\
  outcome inspect {| _value := Some NaN |} = Ok "<Unit: NaN atoms>"%string.
Proof.
  assert (R : forall amount rate,
             le_zero rate = false -> div amount rate = NaN ->
             new_Unit amount (Rate rate) = Ok {| _value := Some NaN |}).
  { intros amount rate L E. rewrite new_Unit_rate by exact L.
    rewrite (new_Unit_known _ Unit_HC (Entry [of_Z 100000000; of_Z 8]))
      by reflexivity.
    rewrite E. reflexivity. }
  split; [ | split; [ | split; [ | split; [ | split ] ] ] ].
  - intros amount. unfold fromFiat.
    split; apply R; auto using div_NaN_r.
  - intros code scale precision K.
    pose proof (known_get _ _ _ K) as G.
    destruct (known_power_of_ten _ _ _ K) as (f & ms & es & F & -> & _ & _ & T & _).
    split.
    + rewrite (new_Unit_known _ _ _ G). reflexivity.
    + unfold outcome. cbn [to].
      rewrite (to_code_known _ _ f _ G) by (exact T || lia).
      reflexivity.
  - intros rate L. split.
    + apply R; [ exact L | reflexivity ].
    + rewrite to_rate_outcome by exact L. reflexivity.
  - intros u. unfold atRate. rewrite to_rate_outcome by reflexivity.
    rewrite mul_NaN_r. reflexivity.
  - vm_compute. reflexivity.
  - vm_compute. reflexivity.
Qed.

Lemma nan_is_not_rejected_witness :
  new_Unit NaN (Code "mHC") = Ok {| _value := Some NaN |} /\
  outcome (to (Rate (of_Z 350))) {| _value := Some NaN |} = Ok NaN.
Proof.
  split.
  - apply (proj1 (proj2 nan_is_not_rejected) "mHC"%string (of_Z 100000) (of_Z 5)).
    unfold known, UNITS. cbn [In]. auto 10.
  - apply (proj1 (proj2 (proj2 nan_is_not_rejected)) (of_Z 350)).
    reflexivity.
Defined.

(** The most significant digit of a positive integer is not zero. *)
Lemma digits_le_leading fuel :
  forall n, 0 < n < 2 ^ Z.of_nat fuel ->
            exists k init, digits_le fuel n = init ++ [digit_char k] /\
                           1 <= k <= 9.
Proof.
  induction fuel as [ | fuel IH ]; intros n Hn.
  - change (2 ^ Z.of_nat 0) with 1 in Hn. lia.
  - cbn [digits_le]. destruct (Z.ltb_spec n 10) as [S|L].
    + exists n, []. rewrite Z.mod_small by lia. split; [ reflexivity | lia ].
    + rewrite Nat2Z.inj_succ, Z.pow_succ_r in Hn by lia.
      destruct (IH (n / 10)) as (k & init & E & K).
      { split; [ apply Z.div_str_pos; lia | ].
        apply Z.div_lt_upper_bound; lia. }
      exists k, (digit_char (n mod 10) :: init). rewrite E. auto.
Qed.

Lemma decimal_leading n :
  0 < n -> exists k rest, decimal n = digit_char k :: rest /\ 1 <= k <= 9.
Proof.
  intros Hn. unfold decimal.
  destruct (digits_le_leading (S (Z.to_nat (Z.log2 n))) n) as (k & init & E & K).
  { pose proof (decimal_fuel n ltac:(lia)). lia. }
  exists k, (rev init). rewrite E, rev_app_distr. auto.
Qed.

(** Of exponential notation [parseInt] keeps the leading digit, which
    is not zero, with the sign. *)
Lemma parseInt_exponential_leading s n :
  0 < s -> 21 < n ->
  exists d, 1 <= d <= 9 /\
    forall neg,
      parseInt_chars (sign_text neg ++ number_text s n) = of_ratio neg d 1.
Proof.
  intros Hs Hn. rewrite number_text_exponential by assumption.
  pose proof (decimal_digits s ltac:(lia)) as D.
  destruct (decimal_leading s Hs) as (k & rest & E & K).
  rewrite E in *. exists k. split; [ exact K | intros neg ].
  assert (V : digits_value 0 [digit_char k] = k).
  { unfold digits_value. cbn [fold_left]. unfold digit_of.
    rewrite digit_value_char by lia. lia. }
  destruct rest as [ | d' ds ].
  - rewrite parseInt_digits; auto using exponent_text_ends; [ | discriminate ].
    now rewrite V.
  - change (digit_char k :: "."%char :: ?l) with ([digit_char k] ++ "."%char :: l).
    rewrite parseInt_digits; auto; try discriminate.
    + now rewrite V.
    + constructor; [ now inversion D | constructor ].
    + left. reflexivity.
Qed.

(** From [10^21] on, what is stored is one digit, not zero, with the
    sign of the Number. *)
Lemma stored_digit sg m e :
  canonical (Finite sg m e) ->
  10 ^ 21 * mag_den e <= mag_num m e ->
  exists d, 1 <= d <= 9 /\ stored (Finite sg m e) = of_ratio sg d 1.
Proof.
  intros C L. unfold stored. cbn [toFixed_chars].
  destruct (Z.leb_spec (10 ^ 21 * mag_den e) (mag_num m e)); [ | lia ].
  destruct (ToString_large false m e C L) as (s & n & -> & Hs & Hn & E).
  assert (Ps : 0 < s).
  { destruct (Z.eq_dec s 0) as [->|]; [ exfalso | lia ].
    unfold decimal_number, pow10_num, of_ratio in E.
    destruct (_ <? 0) in E; cbn in E; discriminate E. }
  destruct (parseInt_exponential_leading s n Ps Hn) as (d & D & P).
  exists d. split; [ exact D | apply P ].
Qed.

(** What [parseInt(x.toFixed())] keeps of a finite [x]: a whole number
    below [10^21], and a single digit when [x] is not below [10^21]. *)
Lemma stored_whole p :
  canonical p -> is_finite p = true ->
  exists n, to_Z (stored p) = Some n /\ Z.abs n < 10 ^ 21 /\
            (~ magnitude_below p (10 ^ 21) -> Z.abs n <= 9).
Proof.
  intros C F. destruct p as [sg|sg| |sg m e]; try discriminate F.
  - pose proof (parseInt_toFixed _ C) as P. cbn beta iota in P.
    exists 0. unfold stored. rewrite P. repeat split; reflexivity || lia.
  - pose proof (parseInt_toFixed _ C) as P. cbn beta iota in P.
    pose proof (magnitude_below_finite sg m e (10 ^ 21)) as MB.
    destruct (10 ^ 21 * mag_den e <=? mag_num m e) eqn:B.
    + destruct P as (d & D & P). unfold stored. rewrite P.
      exists (cond_Zopp sg d). split; [ | split ].
      * apply to_Z_small. unfold prec. lia.
      * rewrite cond_Zopp_abs by lia. lia.
      * rewrite cond_Zopp_abs by lia. lia.
    + apply Z.leb_gt in B.
      exists (cond_Zopp sg (nearest_fixed (mag_num m e) (mag_den e) 0)).
      split; [ | split ].
      * apply stored_value; [ exact C | lia ].
      * assert (0 < mag_den e) by apply mag_den_pos.
        assert (0 < mag_num m e) by apply mag_num_pos.
        rewrite cond_Zopp_abs by (apply nearest_fixed_nonneg; lia).
        destruct C as (C & _).
        destruct (nearest_integer_cases m e C) as [N|[D N]].
        -- unfold prec in N. lia.
        -- rewrite N. rewrite D in B. lia.
      * intros NB. exfalso. apply NB, MB. lia.
Qed.

(** X5. The atomic amount of a Unit the constructor returns is NaN or
    a whole number of magnitude below 10^21; it is never infinite and
    never has a fraction.  When the product that is rounded is finite
    but not below 10^21, what is stored is a single digit, not zero,
    with the sign of the product: from 1 to 9 for a positive product
    and from -9 to -1 for a negative one ([toFixed] prints exponential
    notation, of which [parseInt] keeps the sign and the leading
    digit). *)
Theorem stored_amount_range amount c u :
  new_Unit amount c = Ok u ->
  (is_finite (ingested amount c) = false /\ _value u = Some NaN) \/
  (is_finite (ingested amount c) = true /\
   exists v n, _value u = Some v /\ to_Z v = Some n /\ Z.abs n < 10 ^ 21 /\
               (~ magnitude_below (ingested amount c) (10 ^ 21) ->
                Z.abs n <= 9 /\
                if le_zero (ingested amount c)
                then -9 <= n <= -1 else 1 <= n <= 9)).
Proof.
  intros H. apply new_Unit_stored in H. rewrite H.
  pose proof (ingested_canonical amount c) as C.
  destruct (is_finite (ingested amount c)) eqn:F.
  - right. split; [ reflexivity | ].
    destruct (stored_whole _ C F) as (n & T & B & D).
    exists (stored (ingested amount c)), n.
    split; [ reflexivity | ]. split; [ exact T | ]. split; [ exact B | ].
    intros L. split; [ exact (D L) | ].
    destruct (ingested amount c) as [s|s| |s m e]; try discriminate F.
    + exfalso. apply L. split; vm_compute; reflexivity.
    + rewrite magnitude_below_finite in L.
      destruct (stored_digit s m e C ltac:(lia)) as (d & Hd & E).
      rewrite E, to_Z_small in T by (unfold prec; lia).
      injection T as <-. cbn [le_zero].
      destruct s; cbn [cond_Zopp]; lia.
  - left. split; [ reflexivity | ]. now rewrite stored_not_finite.
Qed.

Lemma stored_amount_range_witness :
  (is_finite (ingested (of_Z (- 10 ^ 13)) (Code "HC")) = false /\
   _value {| _value := Some (of_Z (-1)) |} = Some NaN) \/
  (is_finite (ingested (of_Z (- 10 ^ 13)) (Code "HC")) = true /\
   exists v n, _value {| _value := Some (of_Z (-1)) |} = Some v /\
               to_Z v = Some n /\ Z.abs n < 10 ^ 21 /\
               (~ magnitude_below (ingested (of_Z (- 10 ^ 13)) (Code "HC")) (10 ^ 21) ->
                Z.abs n <= 9 /\
                if le_zero (ingested (of_Z (- 10 ^ 13)) (Code "HC"))
                then -9 <= n <= -1 else 1 <= n <= 9)).
Proof.
  apply (stored_amount_range (of_Z (- 10 ^ 13)) (Code "HC")).
  vm_compute. reflexivity.
Defined.

Lemma errors_cases (amount : number) (c : arg) :
  match new_Unit amount c, c with
  | Ok _, Code code => UNITS_get code <> None
  | Ok _, Rate rate => le_zero rate = false
  | Throw e, Code code => e = UnknownCode code /\ UNITS_get code = None
  | Throw e, Rate rate => e = InvalidRate rate /\ le_zero rate = true
  end.
Proof.
  destruct c as [code|rate].
  - destruct (UNITS_get code) as [p| ] eqn:G.
    + rewrite (new_Unit_known _ _ p G). discriminate.
    + rewrite new_Unit_unknown by exact G. auto.
  - destruct (le_zero rate) eqn:L.
    + rewrite new_Unit_invalid_rate by exact L. auto.
    + rewrite new_Unit_rate by exact L.
      rewrite (new_Unit_known _ Unit_HC (Entry [of_Z 100000000; of_Z 8]));
        reflexivity.
Qed.

(** ** Decimal amounts *)

(** The magnitude of a product of two Numbers, before rounding. *)
Lemma mag_product m1 e1 m2 e2 :
  mag_num (m1 * m2) (e1 + e2) * (mag_den e1 * mag_den e2) =
  mag_num m1 e1 * mag_num m2 e2 * mag_den (e1 + e2).
Proof.
  rewrite !mag_num_eq, !mag_den_eq, Pos2Z.inj_mul.
  transitivity (Zpos m1 * Zpos m2 *
                (2 ^ Z.max (e1 + e2) 0 * (2 ^ Z.max (- e1) 0 * 2 ^ Z.max (- e2) 0)));
    [ ring | ].
  transitivity (Zpos m1 * Zpos m2 *
                (2 ^ Z.max e1 0 * (2 ^ Z.max e2 0 * 2 ^ Z.max (- (e1 + e2)) 0)));
    [ | ring ].
  rewrite <- !Z.pow_add_r by lia. do 2 f_equal. lia.
Qed.

(** Two roundings in a row, each with relative error at most [1/P], of
    a quantity that starts at the integer [n]: the result is within one
    half of [n] when [n] is small against [P]. *)
Lemma two_roundings P n x y A B M D :
  0 < P -> 0 < n -> 0 < y -> 0 < B -> 0 < D ->
  P * Z.abs (x - n * y) <= n * y ->
  P * Z.abs (M * B - A * D) <= A * D ->
  A * y = x * B ->
  2 * (2 * P + 1) * n < P * P ->
  2 * Z.abs (M - n * D) < D.
Proof.
  intros HP Hn Hy HB HD E1 E2 R S.
  set (u1 := Z.abs (x - n * y)) in *. set (u2 := Z.abs (M * B - A * D)) in *.
  assert (U1 : 0 <= u1) by apply Z.abs_nonneg.
  assert (U2 : 0 <= u2) by apply Z.abs_nonneg.
  assert (X : P * x <= (P + 1) * (n * y)) by (unfold u1 in E1; lia).
  assert (T : Z.abs (M - n * D) * (B * y) <= u2 * y + u1 * (B * D)).
  { rewrite <- (Z.abs_eq (B * y)) at 1 by nia. rewrite <- Z.abs_mul.
    replace ((M - n * D) * (B * y))
      with ((M * B - A * D) * y + (x - n * y) * (B * D)) by nia.
    eapply Z.le_trans; [ apply Z.abs_triangle | ].
    rewrite (Z.abs_mul _ y), (Z.abs_mul _ (B * D)). fold u1 u2.
    rewrite (Z.abs_eq y), (Z.abs_eq (B * D)) by nia. lia. }
  assert (S2 : P * P * (u2 * y) <= (P + 1) * (n * y) * (B * D)).
  { apply Z.le_trans with (P * y * (A * D)).
    { replace (P * P * (u2 * y)) with (P * y * (P * u2)) by ring.
      apply Z.mul_le_mono_nonneg_l; [ nia | exact E2 ]. }
    replace (P * y * (A * D)) with (P * x * (B * D))
      by (transitivity (P * D * (x * B)); [ ring | rewrite <- R; ring ]).
    apply Z.mul_le_mono_nonneg_r; [ nia | exact X ]. }
  assert (S1 : P * P * (u1 * (B * D)) <= P * (n * y) * (B * D)).
  { replace (P * P * (u1 * (B * D))) with (P * (P * u1) * (B * D)) by ring.
    apply Z.mul_le_mono_nonneg_r; [ nia | ].
    apply Z.mul_le_mono_nonneg_l; lia. }
  set (v := Z.abs (M - n * D)) in *.
  assert (V : P * P * v * (B * y) <= (2 * P + 1) * n * D * (B * y)).
  { replace (P * P * v * (B * y)) with (P * P * (v * (B * y))) by ring.
    apply Z.le_trans with (P * P * (u2 * y + u1 * (B * D))).
    - apply Z.mul_le_mono_nonneg_l; [ nia | exact T ].
    - rewrite Z.mul_add_distr_l.
      replace ((2 * P + 1) * n * D * (B * y))
        with ((P + 1) * (n * y) * (B * D) + P * (n * y) * (B * D)) by ring.
      lia. }
  apply Z.mul_le_mono_pos_r in V; [ | nia ].
  apply (Z.mul_lt_mono_pos_l (P * P)); [ nia | ].
  apply Z.le_lt_trans with (2 * ((2 * P + 1) * n * D)); [ lia | ].
  replace (2 * ((2 * P + 1) * n * D)) with (2 * (2 * P + 1) * n * D) by ring.
  apply Z.mul_lt_mono_pos_r; assumption.
Qed.

(** A decimal amount [n / 10^f] with [n < 2^51], multiplied by the scale
    factor [10^f] and rounded to an integer as the constructor does, is
    [n]: neither the rounding of the literal nor that of the product
    moves it by one half. *)
Lemma decimal_stored sg n f ms es :
  0 < n < 2 ^ 51 -> 0 <= f <= 8 ->
  canonical (Finite false ms es) ->
  mag_num ms es = 10 ^ f * mag_den es ->
  stored (mul (of_ratio sg n (10 ^ f)) (Finite false ms es)) = of_ratio sg n 1.
Proof.
  intros [Ln Un] Hf Cs Es.
  destruct (pow10_bound f ltac:(lia)) as [Pt Ut]. set (t := 10 ^ f) in *.
  assert (P51 : 2 ^ 51 < 2 ^ 1022) by (apply Z.ltb_lt; vm_compute; reflexivity).
  assert (N1 : ge2 n t (emin + (prec - 1))).
  { rewrite (ge2_iff n t _ 0 1022) by (unfold emin, prec; lia).
    rewrite Z.pow_0_r, Z.mul_1_r. nia. }
  assert (O1 : ~ ge2 n t (emax - 1)).
  { rewrite (ge2_iff n t _ 1023 0) by (unfold emax; lia).
    rewrite Z.pow_0_r, Z.mul_1_r.
    change (2 ^ 1023) with (2 * 2 ^ 1022). nia. }
  destruct (of_ratio_error sg n t Ln Pt N1 O1) as (m1 & e1 & D1 & Er1).
  rewrite D1. cbn [mul]. rewrite xorb_false_r.
  pose proof (mag_product m1 e1 ms es) as R.
  pose proof (mag_num_pos m1 e1) as Pn1. pose proof (mag_den_pos e1) as Pd1.
  pose proof (mag_num_pos (m1 * ms) (e1 + es)) as PA.
  pose proof (mag_den_pos (e1 + es)) as PB.
  pose proof (mag_den_pos es) as Ps.
  set (x1 := mag_num m1 e1) in *. set (y := mag_den e1) in *.
  set (A := mag_num (m1 * ms) (e1 + es)) in *.
  set (B := mag_den (e1 + es)) in *.
  set (ds := mag_den es) in *.
  rewrite Es in R.
  assert (R' : A * y = x1 * t * B).
  { apply (Z.mul_reg_r _ _ ds); [ lia | ].
    transitivity (A * (y * ds)); [ ring | rewrite R; ring ]. }
  assert (P53 : 2 ^ prec = 9007199254740992) by reflexivity.
  assert (E51 : 2 ^ 51 = 2251799813685248) by reflexivity.
  rewrite P53 in Er1. rewrite E51 in Un.
  (* the product is between [n/2] and [2n] *)
  assert (Lo : n * y <= 2 * (x1 * t)) by lia.
  assert (Hi : x1 * t <= 2 * (n * y)) by lia.
  assert (N2 : ge2 A B (emin + (prec - 1))).
  { rewrite (ge2_iff A B _ 0 1022) by (unfold emin, prec; lia).
    rewrite Z.pow_0_r, Z.mul_1_r.
    assert (B * y <= A * 2 ^ 1022 * y); [ | nia ].
    replace (A * 2 ^ 1022 * y) with (2 ^ 1022 * (x1 * t) * B)
      by (transitivity (2 ^ 1022 * (A * y)); [ rewrite R' | ]; ring).
    set (Q := 2 ^ 1022) in *. nia. }
  assert (O2 : ~ ge2 A B (emax - 1)).
  { rewrite (ge2_iff A B _ 1023 0) by (unfold emax; lia).
    rewrite Z.pow_0_r, Z.mul_1_r.
    change (2 ^ 1023) with (2 * 2 ^ 1022).
    set (Q := 2 ^ 1022) in *. intros G.
    assert (B * (2 * Q) * y <= x1 * t * B) by (rewrite <- R'; nia).
    nia. }
  destruct (of_ratio_error sg A B PA PB N2 O2) as (m2 & e2 & D2 & Er2).
  pose proof (of_ratio_canonical sg A B PB) as C2. rewrite D2 in *.
  pose proof (mag_num_pos m2 e2) as Pn2. pose proof (mag_den_pos e2) as Pd2.
  set (M := mag_num m2 e2) in *. set (D := mag_den e2) in *.
  rewrite P53 in Er2.
  assert (Q : 2 * Z.abs (M - n * D) < D).
  { apply (two_roundings 9007199254740992 n (x1 * t) y A B M D);
      try assumption; lia. }
  rewrite stored_small; fold M D.
  - f_equal. unfold nearest_fixed. rewrite Z.pow_0_r, Z.mul_1_r. symmetry.
    apply (Z.div_unique _ _ _ (2 * (M - n * D) + D)); lia.
  - exact C2.
  - change (10 ^ 21) with 1000000000000000000000. nia.
Qed.

(** An atomic amount [n < 2^52], divided by the scale factor [10^f] and
    shown with [f] digits, is the Number for [n / 10^f]. *)
Lemma decimal_shown sg n f ms es :
  0 < n < 2 ^ 52 -> 0 <= f <= 8 ->
  canonical (Finite false ms es) ->
  mag_num ms es = 10 ^ f * mag_den es ->
  shown (div (of_ratio sg n 1) (Finite false ms es)) f = of_ratio sg n (10 ^ f).
Proof.
  intros [Ln Un] Hf Cs Es.
  assert (B : 0 < n < 2 ^ prec).
  { change (2 ^ prec) with (2 * 2 ^ 52). lia. }
  destruct (of_ratio_small_integer sg n B) as (m & e & -> & C & V).
  cbn [div]. rewrite xorb_false_r.
  apply shown_quantized.
  - exact (conj Ln Un).
  - lia.
  - apply Z.mul_pos_pos; [ apply mag_den_pos | apply mag_num_pos ].
  - rewrite V, Es. ring.
Qed.

Lemma stored_zero s : stored (Zero s) = Zero false.
Proof. destruct s; vm_compute; reflexivity. Qed.

Lemma shown_zero s f : 0 <= f -> shown (Zero s) f = Zero false.
Proof.
  intros F. unfold shown. now rewrite parseFloat_toFixed by (exact I || exact F).
Qed.

(** What the constructor stores for a decimal amount and what [to]
    returns for it, for a code of the table. *)
Lemma decimal_constructed code scale precision n :
  known code scale precision -> Z.abs n < 2 ^ 51 ->
  new_Unit (of_decimal n (truncate precision)) (Code code) =
  Ok {| _value := Some (of_Z n) |}.
Proof.
  intros K Hn. pose proof (known_get _ _ _ K) as G.
  destruct (known_power_of_ten _ _ _ K) as (f & ms & es & F & -> & C & E & _ & ->).
  rewrite (new_Unit_known _ _ _ G). cbn [element nth_error ToNumber].
  do 3 f_equal. unfold of_decimal, of_Z.
  destruct (Z.eq_dec n 0) as [->|N].
  - reflexivity.
  - apply decimal_stored; try assumption. lia.
Qed.

Lemma decimal_converted code scale precision n s :
  known code scale precision -> 0 < n < 2 ^ 52 ->
  outcome (to (Code code)) {| _value := Some (of_ratio s n 1) |} =
  Ok (of_ratio s n (10 ^ truncate precision)).
Proof.
  intros K Hn. pose proof (known_get _ _ _ K) as G.
  destruct (known_power_of_ten _ _ _ K) as (f & ms & es & F & -> & C & E & T & ->).
  unfold outcome. cbn [to].
  rewrite (to_code_known _ _ f _ G) by (exact T || lia).
  cbn [fst element nth_error ToNumber _value]. f_equal.
  apply decimal_shown; assumption.
Qed.

Lemma zero_converted code scale precision s :
  known code scale precision ->
  outcome (to (Code code)) {| _value := Some (Zero s) |} = Ok (Zero false).
Proof.
  intros K. pose proof (known_get _ _ _ K) as G.
  destruct (known_power_of_ten _ _ _ K) as (f & ms & es & F & -> & C & E & T & _).
  unfold outcome. cbn [to].
  rewrite (to_code_known _ _ f _ G) by (exact T || lia).
  cbn [fst element nth_error ToNumber _value div]. f_equal.
  apply shown_zero. lia.
Qed.

(** X6. Decimal amounts are exact.  For a code of the table with
    display precision [p], an amount written with at most [p] decimals,
    [n / 10^p] with [|n| < 2^51], is stored as exactly [n] atoms, the
    same Unit is built from the amount [n / 10^p'] in any other code of
    the table, and converting it to a code with precision [p'] returns
    the Number for [n / 10^p']; in particular converting back to the
    code it came from returns the amount that was given.  The binary
    representation error of the literal never reaches the result. *)
Theorem decimal_amount_exact code scale precision code' scale' precision' n :
  known code scale precision ->
  known code' scale' precision' ->
  Z.abs n < 2 ^ 51 ->
  exists u,
    new_Unit (of_decimal n (truncate precision)) (Code code) = Ok u /\
    new_Unit (of_decimal n (truncate precision')) (Code code') = Ok u /\
    _value u = Some (of_Z n) /\
    outcome toAtoms u = Ok (of_Z n) /\
    outcome (to (Code code')) u = Ok (of_decimal n (truncate precision')) /\
    outcome (to (Code code)) u = Ok (of_decimal n (truncate precision)).
Proof.
  intros K K' Hn. eexists.
  split; [ apply (decimal_constructed _ _ _ _ K Hn) | ].
  split; [ apply (decimal_constructed _ _ _ _ K' Hn) | ].
  split; [ reflexivity | ].
  assert (A : known Unit_atoms (of_Z 1) (of_Z 0)).
  { unfold known, UNITS. cbn [In]. auto 10. }
  assert (T : forall c s p, known c s p ->
              outcome (to (Code c)) {| _value := Some (of_Z n) |} =
              Ok (of_decimal n (truncate p))).
  { intros c s p Kc. unfold of_Z, of_decimal.
    destruct (Z.eq_dec n 0) as [->|N].
    - apply (zero_converted _ _ _ _ Kc).
    - apply (decimal_converted _ _ _ _ _ Kc).
      change (2 ^ 52) with (2 * 2 ^ 51). lia. }
  split; [ | split ]; [ | eauto | eauto ].
  unfold toAtoms. rewrite (T _ _ _ A). reflexivity.
Qed.

Lemma decimal_amount_exact_witness :
  exists u,
    new_Unit (of_decimal 13 1) (Code "HC") = Ok u /\
    new_Unit (of_decimal 130000000 5) (Code "mHC") = Ok u /\
    _value u = Some (of_Z 130000000) /\
    outcome toAtoms u = Ok (of_Z 130000000) /\
    outcome (to (Code "mHC")) u = Ok (of_decimal 130000000 5) /\
    outcome (to (Code "HC")) u = Ok (of_decimal 13 1).
Proof.
  assert (K : known "HC" (of_Z 100000000) (of_Z 8)).
  { unfold known, UNITS. cbn [In]. auto 10. }
  assert (K' : known "mHC" (of_Z 100000) (of_Z 5)).
  { unfold known, UNITS. cbn [In]. auto 10. }
  assert (H : Z.abs 130000000 < 2 ^ 51) by (vm_compute; reflexivity).
  destruct (decimal_amount_exact _ _ _ _ _ _ _ K K' H)
    as (u & A & A' & B & C & D & E).
  exists u.
  replace (of_decimal 13 1) with (of_decimal 130000000 (truncate (of_Z 8)))
    by (vm_compute; reflexivity).
  repeat split; assumption.
Defined.

Lemma same_value_zero_cases x y :
  same_value_zero x y -> x = y \/ exists s s', x = Zero s /\ y = Zero s'.
Proof.
  unfold same_value_zero. destruct x, y; cbn [unsigned_zero]; intros H;
    try discriminate H; auto; right; eauto.
Qed.

(** [to] does not tell the two zeros apart. *)
Lemma shown_div_same x y scale f :
  0 <= f -> same_value_zero x y ->
  shown (div x scale) f = shown (div y scale) f.
Proof.
  intros F H. destruct (same_value_zero_cases _ _ H) as [->|(s & s' & -> & ->)];
    [ reflexivity | ].
  destruct scale as [t|t| |t m e]; cbn [div];
    rewrite ?shown_zero by exact F; reflexivity.
Qed.

(** A stored whole number is a zero or the Number for its integer. *)
Lemma integral_finite v n :
  integral v -> to_Z v = Some n ->
  (exists s, v = Zero s /\ n = 0) \/
  (exists s m e, v = Finite s m e /\ canonical (Finite s m e) /\
                 mag_num m e = Z.abs n * mag_den e /\ 0 < Z.abs n).
Proof.
  intros [C I] T. destruct v as [s|s| |s m e]; try discriminate T.
  - left. exists s. split; [ reflexivity | ]. now injection T.
  - right. destruct I as (k & Pk & E).
    rewrite (to_Z_value _ _ _ _ E) in T. injection T as <-.
    exists s, m, e. rewrite cond_Zopp_abs by lia. auto.
Qed.

Lemma integral_of_Z v n :
  integral v -> to_Z v = Some n ->
  (exists s, v = Zero s /\ n = 0) \/
  (exists s k, v = of_ratio s k 1 /\ 0 < k /\ Z.abs n = k).
Proof.
  intros I T.
  destruct (integral_finite v n I T) as [Z|(s & m & e & -> & C & E & P)];
    [ left; exact Z | right ].
  exists s, (Z.abs n). split; [ | split; [ exact P | reflexivity ] ].
  symmetry. now apply of_ratio_integer.
Qed.

(** X7. Converting and constructing again gives the amount back.  For
    a Unit the constructor returned whose atomic amount is a whole
    number [n] with [|n| < 2^51], and for every code of the table,
    [new Unit(u.to(code), code)] stores the same atomic amount, and so
    does [Unit.fromObject(u.toObject())], whose [toObject] is again the
    object it was built from. *)
Theorem conversion_round_trip a c u v n key scale precision :
  new_Unit a c = Ok u ->
  _value u = Some v -> to_Z v = Some n -> Z.abs n < 2 ^ 51 ->
  known key scale precision ->
  (exists x u',
      outcome (to (Code key)) u = Ok x /\
      new_Unit x (Code key) = Ok u' /\
      same_value_zero (ToNumber (_value u')) v) /\
  (exists o u',
      outcome toObject u = Ok o /\
      fromObject (Object (amount o) (Code (code o))) = Ok u' /\
      same_value_zero (ToNumber (_value u')) v /\
      outcome toObject u' = Ok o).
Proof.
  intros H V T Hn K.
  assert (I : integral v).
  { apply new_Unit_stored in H. rewrite V in H. injection H as ->.
    apply stored_integral, ingested_canonical. }
  assert (R : forall key scale precision,
             known key scale precision ->
             exists x,
               outcome (to (Code key)) u = Ok x /\
               exists u', new_Unit x (Code key) = Ok u' /\
                          same_value_zero (ToNumber (_value u')) v).
  { clear K key scale precision. intros key scale precision K.
    destruct u as [w]. cbn [_value] in V. subst w.
    destruct (integral_of_Z v n I T) as [(s & -> & ->)|(s & k & -> & Pk & Ek)].
    - exists (Zero false). split; [ apply (zero_converted _ _ _ _ K) | ].
      pose proof (decimal_constructed _ _ _ 0 K ltac:(reflexivity)) as D.
      replace (of_decimal 0 (truncate precision)) with (Zero false) in D
        by reflexivity.
      rewrite D. eexists. split; [ reflexivity | ]. reflexivity.
    - exists (of_ratio s k (10 ^ truncate precision)).
      split.
      + apply (decimal_converted _ _ _ _ _ K).
        change (2 ^ 52) with (2 * 2 ^ 51). lia.
      + pose proof (decimal_constructed _ _ _ (cond_Zopp s k) K) as D.
        rewrite cond_Zopp_abs in D by lia.
        unfold of_decimal, of_Z in D.
        replace (cond_Zopp s k <? 0) with s in D
          by (destruct s; cbn [cond_Zopp]; symmetry;
              [ apply Z.ltb_lt | apply Z.ltb_ge ]; lia).
        rewrite cond_Zopp_abs in D by lia.
        rewrite D by lia. eexists. split; reflexivity. }
  split.
  - destruct (R _ _ _ K) as (x & X & u' & U & S). eauto.
  - assert (KH : known "HC" (of_Z 100000000) (of_Z 8)).
    { unfold known, UNITS. cbn [In]. auto 10. }
    destruct (R _ _ _ KH) as (x & X & u' & U & S).
    exists {| amount := x; code := Unit_HC |}, u'.
    assert (O : forall w, outcome toObject w =
                  Ok {| amount := shown (div (ToNumber (_value w))
                                             (of_Z 100000000)) 8;
                        code := Unit_HC |}).
    { intros w. unfold toObject, outcome, bind, accessor.
      change (to_code "HC" w) with (to_code Unit_HC w).
      now rewrite to_HC_shown. }
    assert (X' : x = shown (div (ToNumber (_value u)) (of_Z 100000000)) 8).
    { unfold outcome in X. cbn [to] in X.
      change (to_code "HC" u) with (to_code Unit_HC u) in X.
      rewrite to_HC_shown in X. cbn [fst] in X. now injection X. }
    split; [ | split; [ exact U | split; [ exact S | ] ] ].
    + rewrite O, X'. reflexivity.
    + rewrite O, X', V. cbn [ToNumber]. do 2 f_equal.
      apply shown_div_same; [ lia | exact S ].
Qed.

Lemma conversion_round_trip_witness :
  exists x u',
    outcome (to (Code "mHC")) {| _value := Some (of_Z 130000000) |} = Ok x /\
    new_Unit x (Code "mHC") = Ok u' /\
    same_value_zero (ToNumber (_value u')) (of_Z 130000000).
Proof.
  assert (K : known "mHC" (of_Z 100000) (of_Z 5)).
  { unfold known, UNITS. cbn [In]. auto 10. }
  refine (proj1 (conversion_round_trip (of_decimal 13 1) (Code "HC")
                   {| _value := Some (of_Z 130000000) |} (of_Z 130000000)
                   130000000 "mHC" (of_Z 100000) (of_Z 5) _ _ _ _ K)).
  - vm_compute. reflexivity.
  - reflexivity.
  - vm_compute. reflexivity.
  - vm_compute. reflexivity.
Defined.

(** X11. Conversions are decimal shifts of the atomic amount.  For a
    Unit the constructor returned, from a code or from a rate, whose
    atomic amount is a whole number [n] with [|n| < 2^52], [to] with a
    code of the table of [p] decimals returns exactly the Number for
    the decimal [n / 10^p]: the division by the scale factor adds no
    error of its own. *)
Theorem conversions_are_decimal_shifts a c u v n key scale precision :
  new_Unit a c = Ok u ->
  _value u = Some v -> to_Z v = Some n -> Z.abs n < 2 ^ 52 ->
  known key scale precision ->
  outcome (to (Code key)) u = Ok (of_decimal n (truncate precision)).
Proof.
  intros H V T Hn K.
  assert (I : integral v).
  { apply new_Unit_stored in H. rewrite V in H. injection H as ->.
    apply stored_integral, ingested_canonical. }
  destruct u as [w]. cbn [_value] in V. subst w.
  destruct (integral_of_Z v n I T) as [(s & -> & ->)|(s & k & -> & Pk & Ek)].
  - apply (zero_converted _ _ _ _ K).
  - rewrite (decimal_converted _ _ _ _ _ K) by lia.
    unfold of_decimal. rewrite Ek. do 2 f_equal.
    assert (Pv : 0 < k < 2 ^ prec).
    { change (2 ^ prec) with (2 * 2 ^ 52). lia. }
    rewrite (to_Z_small s k) in T by lia. injection T as <-.
    destruct s; cbn [cond_Zopp]; symmetry;
      [ apply Z.ltb_lt | apply Z.ltb_ge ]; lia.
Qed.

Lemma conversions_are_decimal_shifts_witness :
  outcome (to (Code "bits")) {| _value := Some (of_Z 371429) |} =
  Ok (of_decimal 371429 (truncate (of_Z 2))).
Proof.
  apply (conversions_are_decimal_shifts (of_decimal 13 1) (Rate (of_Z 350))
           {| _value := Some (of_Z 371429) |} (of_Z 371429) 371429
           "bits" (of_Z 100) (of_Z 2)).
  - vm_compute. reflexivity.
  - reflexivity.
  - vm_compute. reflexivity.
  - vm_compute. reflexivity.
  - unfold known, UNITS. cbn [In]. auto 10.
Defined.

(** ** Negated amounts *)

Lemma of_ratio_opp neg a b : of_ratio (negb neg) a b = SFopp (of_ratio neg a b).
Proof.
  rewrite (of_ratio_sign (negb neg)), (of_ratio_sign neg).
  destruct (of_ratio false a b); reflexivity.
Qed.

Lemma mul_opp x y : mul (SFopp x) y = SFopp (mul x y).
Proof.
  destruct x as [sx|sx| |sx mx ex], y as [sy|sy| |sy my ey];
    cbn [SFopp mul]; try reflexivity;
    try (now destruct sx, sy).
  rewrite <- of_ratio_opp. f_equal. now destruct sx, sy.
Qed.

Lemma div_opp x y : div (SFopp x) y = SFopp (div x y).
Proof.
  destruct x as [sx|sx| |sx mx ex], y as [sy|sy| |sy my ey];
    cbn [SFopp div]; try reflexivity;
    try (now destruct sx, sy).
  rewrite <- of_ratio_opp. f_equal. now destruct sx, sy.
Qed.

Lemma canonical_opp x : canonical x -> canonical (SFopp x).
Proof. now destruct x. Qed.

(** The digit [parseInt] keeps of exponential notation does not depend
    on the sign. *)
Lemma parseInt_exponential_digit s n :
  0 <= s -> 21 < n ->
  exists d, 0 <= d <= 9 /\
    forall neg,
      parseInt_chars (sign_text neg ++ number_text s n) = of_ratio neg d 1.
Proof.
  intros Hs Hn. rewrite number_text_exponential by assumption.
  pose proof (decimal_digits s Hs) as D.
  pose proof (decimal_nonempty s) as N.
  destruct (decimal s) as [ | d [ | d' ds ] ]; [ congruence | | ];
    exists (digit_of d); (split; [ apply digit_of_range | intros neg ]).
  - rewrite parseInt_digits; auto using exponent_text_ends; discriminate.
  - change (d :: "."%char :: ?l) with ([d] ++ "."%char :: l).
    rewrite parseInt_digits; auto; try discriminate.
    + constructor; [ now inversion D | constructor ].
    + left. reflexivity.
Qed.

(** What [parseInt(x.toFixed())] keeps of a finite [x] is a magnitude
    that does not depend on the sign of [x]. *)
Lemma stored_magnitude m e :
  canonical (Finite false m e) ->
  exists N, 0 <= N /\
    (10 ^ 21 * mag_den e <= mag_num m e -> N <= 9) /\
    forall sg, stored (Finite sg m e) = of_ratio sg N 1.
Proof.
  intros C. unfold stored. cbn [toFixed_chars].
  destruct (Z.leb_spec (10 ^ 21 * mag_den e) (mag_num m e)) as [L|S].
  - destruct (ToString_large false m e C L) as (s & n & -> & Hs & Hn & E).
    destruct (parseInt_exponential_digit s n Hs Hn) as (d & D & P).
    exists d. split; [ lia | ]. split; [ lia | exact P ].
  - exists (nearest_fixed (mag_num m e) (mag_den e) 0).
    assert (0 <= nearest_fixed (mag_num m e) (mag_den e) 0) as Nn.
    { apply nearest_fixed_nonneg;
        [ pose proof (mag_num_pos m e); lia | apply mag_den_pos ]. }
    split; [ exact Nn | ]. split; [ lia | ].
    intros sg. now apply parseInt_fixed_text.
Qed.

Lemma stored_opp x :
  canonical x -> same_value_zero (stored (SFopp x)) (SFopp (stored x)).
Proof.
  intros C. destruct x as [s|s| |sg m e].
  - cbn [SFopp]. rewrite !stored_zero. reflexivity.
  - cbn [SFopp]. rewrite !stored_not_finite by reflexivity. reflexivity.
  - reflexivity.
  - destruct (stored_magnitude m e C) as (N & _ & _ & E).
    cbn [SFopp]. rewrite !E, of_ratio_opp. reflexivity.
Qed.

Lemma shown_opp x f :
  canonical x -> 0 <= f ->
  same_value_zero (shown (SFopp x) f) (SFopp (shown x f)).
Proof.
  intros C F. unfold shown.
  rewrite !parseFloat_toFixed by (auto using canonical_opp).
  destruct x as [s|s| |sg m e]; try reflexivity.
  cbn [SFopp fixed_value].
  destruct (10 ^ 21 * mag_den e <=? mag_num m e); [ reflexivity | ].
  unfold decimal_number. rewrite of_ratio_opp. reflexivity.
Qed.

(** X8. Rounding is symmetric.  Negating the amount negates the
    atomic amount that is stored, whatever the code or the rate, since
    [toFixed] rounds halves away from zero on either side; and every
    conversion of the negated Unit to a code of the table returns the
    negated result. *)
Theorem negation_symmetry a c u :
  new_Unit a c = Ok u ->
  exists u',
    new_Unit (SFopp a) c = Ok u' /\
    same_value_zero (ToNumber (_value u')) (SFopp (ToNumber (_value u))) /\
    forall key scale precision,
      known key scale precision ->
      exists x x',
        outcome (to (Code key)) u = Ok x /\
        outcome (to (Code key)) u' = Ok x' /\
        same_value_zero x' (SFopp x).
Proof.
  intros H.
  assert (I : ingested (SFopp a) c = SFopp (ingested a c)).
  { destruct c as [key|rate]; cbn [ingested].
    - destruct (UNITS_get key); [ apply mul_opp | reflexivity ].
    - rewrite div_opp. apply mul_opp. }
  assert (E : exists u', new_Unit (SFopp a) c = Ok u').
  { pose proof (errors_cases a c) as A. pose proof (errors_cases (SFopp a) c) as B.
    rewrite H in A.
    destruct (new_Unit (SFopp a) c) as [u'|e]; [ eauto | exfalso ].
    destruct c; destruct B as [_ B]; congruence. }
  destruct E as [u' H']. exists u'. split; [ exact H' | ].
  pose proof (new_Unit_stored _ _ _ H) as V.
  pose proof (new_Unit_stored _ _ _ H') as V'.
  rewrite I in V'. rewrite V, V'. cbn [ToNumber].
  pose proof (ingested_canonical a c) as C.
  set (p := ingested a c) in *.
  assert (S : same_value_zero (stored (SFopp p)) (SFopp (stored p)))
    by (apply stored_opp; exact C).
  split; [ exact S | ].
  intros key scale precision K. pose proof (known_get _ _ _ K) as G.
  destruct (known_power_of_ten _ _ _ K) as (f & ms & es & F & -> & _ & _ & T & _).
  unfold outcome. cbn [to].
  rewrite !(to_code_known _ _ f _ G) by (exact T || lia).
  cbn [fst element nth_error ToNumber]. rewrite V, V'. cbn [ToNumber].
  eexists. eexists. split; [ reflexivity | ]. split; [ reflexivity | ].
  unfold same_value_zero.
  transitivity (unsigned_zero (shown (div (SFopp (stored p)) (Finite false ms es)) f)).
  - f_equal. apply shown_div_same; [ lia | exact S ].
  - rewrite div_opp. apply shown_opp; [ apply div_canonical | lia ].
Qed.

Lemma negation_symmetry_witness :
  exists u',
    new_Unit (SFopp (of_decimal 25 1)) (Code "atoms") = Ok u' /\
    same_value_zero (ToNumber (_value u')) (SFopp (of_Z 3)).
Proof.
  destruct (negation_symmetry (of_decimal 25 1) (Code "atoms")
              {| _value := Some (of_Z 3) |}) as (u' & A & B & _).
  - vm_compute. reflexivity.
  - exists u'. split; [ exact A | exact B ].
Defined.

(** ** The text of a whole number *)

Lemma digits_le_short fuel :
  forall x j, 1 <= j -> 0 <= x < 10 ^ j ->
              Z.of_nat (List.length (digits_le fuel x)) <= j.
Proof.
  induction fuel as [ | fuel IH ]; intros x j Hj Hx; cbn [digits_le List.length].
  - lia.
  - destruct (Z.ltb_spec x 10) as [S|L]; cbn [List.length]; [ lia | ].
    assert (J : 2 <= j).
    { destruct (Z.eq_dec j 1) as [->|]; [ | lia ].
      change (10 ^ 1) with 10 in Hx. lia. }
    specialize (IH (x / 10) (j - 1) ltac:(lia)).
    assert (P : 10 ^ j = 10 * 10 ^ (j - 1)).
    { rewrite <- Z.pow_succ_r by lia. f_equal. lia. }
    assert (0 <= x / 10 < 10 ^ (j - 1)).
    { split; [ apply Z.div_pos; lia | ].
      apply Z.div_lt_upper_bound; lia. }
    specialize (IH ltac:(assumption)). lia.
Qed.

Lemma digit_count_short x j : 1 <= j -> 0 <= x < 10 ^ j -> digit_count x <= j.
Proof.
  intros. unfold digit_count, decimal. rewrite length_rev.
  now apply digits_le_short.
Qed.

Lemma digit_count_bound x : 0 <= x -> x < 10 ^ digit_count x.
Proof.
  intros Hx. destruct (Z.lt_ge_cases x (10 ^ digit_count x)) as [L|G]; [ exact L | ].
  pose proof (decimal_long x (digit_count x)) as D.
  unfold digit_count in *. lia.
Qed.

Lemma digit_count_pos x : 1 <= digit_count x.
Proof.
  unfold digit_count. pose proof (decimal_nonempty x).
  destruct (decimal x); [ congruence | cbn [List.length]; lia ].
Qed.

Lemma digit_count_pow10 k : 1 <= k -> digit_count (10 ^ (k - 1)) = k.
Proof.
  intros Hk.
  assert (0 < 10 ^ (k - 1)) by (apply Z.pow_pos_nonneg; lia).
  assert (10 ^ (k - 1) < 10 ^ k) by (apply Z.pow_lt_mono_r; lia).
  pose proof (digit_count_short (10 ^ (k - 1)) k Hk ltac:(lia)).
  pose proof (decimal_long (10 ^ (k - 1)) (k - 1) ltac:(lia) ltac:(lia)).
  unfold digit_count in *. lia.
Qed.

(** A candidate with [k] digits has at most [k] digits; when it carries
    into the next power of ten it is that power. *)
Lemma candidate_short x a b n k sn :
  0 <= a -> 0 < b -> 1 <= k <= n -> a < 10 ^ n * b ->
  candidate x a b n k = Some sn ->
  digit_count (fst sn) <= k /\
  (snd sn = n \/ (snd sn = n + 1 /\ fst sn = 10 ^ (k - 1))).
Proof.
  intros Ha Hb Hk Hn. unfold candidate.
  set (num := pow10_num a (k - n)). set (den := pow10_den b (k - n)).
  assert (Pk : 0 < 10 ^ k) by (apply Z.pow_pos_nonneg; lia).
  assert (Hlo : 0 <= num / den < 10 ^ k).
  { assert (0 < den) by now apply pow10_den_pos.
    split; [ apply Z.div_pos; [ now apply pow10_num_nonneg | assumption ] | ].
    apply Z.div_lt_upper_bound; [ assumption | ].
    unfold num, den, pow10_num, pow10_den.
    destruct (Z.ltb_spec (k - n) 0) as [S|L].
    - replace (b * 10 ^ (- (k - n)) * 10 ^ k) with (10 ^ n * b); [ exact Hn | ].
      replace n with (- (k - n) + k) at 1 by lia.
      rewrite Z.pow_add_r by lia. ring.
    - replace (k - n) with 0 by lia. replace k with n by lia.
      rewrite Z.pow_0_r. lia. }
  set (lo := num / den) in *.
  set (up := if lo + 1 =? 10 ^ k then (10 ^ (k - 1), n + 1) else (lo + 1, n)).
  assert (L : digit_count lo <= k) by (apply digit_count_short; lia).
  assert (U : digit_count (fst up) <= k /\
              (snd up = n \/ (snd up = n + 1 /\ fst up = 10 ^ (k - 1)))).
  { unfold up. destruct (Z.eqb_spec (lo + 1) (10 ^ k)); cbn [fst snd].
    - rewrite digit_count_pow10 by lia. split; [ lia | right; auto ].
    - split; [ apply digit_count_short; lia | left; reflexivity ]. }
  destruct (round_trips x lo n); destruct (round_trips x (fst up) (snd up));
    cbn [andb].
  - destruct (match _ ?= _ with Lt => _ | _ => _ end);
      intros E; injection E as <-; cbn [fst snd]; auto.
  - intros E; injection E as <-; cbn [fst snd]; auto.
  - intros E; injection E as <-; auto.
  - discriminate.
Qed.

(** With as many digits as the whole number has, the search succeeds. *)
Lemma candidate_exact x a b n N :
  0 < b -> a = N * b -> 0 <= N -> digit_count N = n ->
  of_ratio false N 1 = x ->
  candidate x a b n n <> None.
Proof.
  intros Hb Ea HN En Ex. unfold candidate.
  rewrite Z.sub_diag, pow10_num_zero.
  change (pow10_den b 0) with b.
  replace (a / b) with N by (subst a; now rewrite Z.div_mul by lia).
  assert (R : round_trips x N n = true).
  { unfold round_trips. rewrite En, Z.sub_diag, pow10_num_zero.
    change (pow10_den 1 0) with 1. rewrite Ex. apply number_eqb_refl. }
  rewrite R. cbn [andb].
  match goal with |- (if ?c then _ else _) <> None => destruct c end;
    intros Q; discriminate Q.
Qed.

Lemma shortest_plain x a b n N :
  0 < b -> a = N * b -> 0 <= N -> digit_count N = n ->
  of_ratio false N 1 = x ->
  forall fuel k,
    1 <= k <= n -> n <= k + Z.of_nat fuel ->
    plain_digits x n (shortest fuel x a b n k).
Proof.
  intros Hb Ea HN En Ex.
  assert (Ha : 0 <= a) by nia.
  assert (Hn : a < 10 ^ n * b).
  { pose proof (digit_count_bound N HN). rewrite En in *. nia. }
  induction fuel as [ | fuel IH ]; intros k Hk Hf.
  - assert (k = n) by lia. subst k. cbn [shortest].
    rewrite Z.sub_diag, pow10_num_zero. change (pow10_den b 0) with b.
    replace (a / b) with N by (subst a; now rewrite Z.div_mul by lia).
    unfold plain_digits. cbn [fst snd].
    split; [ | split; [ lia | split; [ lia | now left ] ] ].
    unfold round_trips. rewrite En, Z.sub_diag, pow10_num_zero.
    change (pow10_den 1 0) with 1. rewrite Ex. apply number_eqb_refl.
  - cbn [shortest]. destruct (candidate x a b n k) as [sn| ] eqn:C.
    + destruct (candidate_found x a b n k sn Ha Hb ltac:(lia) C) as (R & _ & P).
      destruct (candidate_short x a b n k sn Ha Hb Hk Hn C) as (D & W).
      unfold plain_digits.
      split; [ exact R | split; [ exact P | split; [ lia | ] ] ].
      destruct W as [W|[W1 W2]]; [ now left | right ]. eauto.
    + assert (k <> n).
      { intros ->. now apply (candidate_exact x a b n N Hb Ea HN En Ex). }
      apply IH; lia.
Qed.

Lemma digits_value_zeros j acc : 0 <= j -> digits_value acc (zeros j) = acc * 10 ^ j.
Proof.
  intros Hj. unfold zeros. rewrite <- (Z2Nat.id j) at 2 by exact Hj.
  generalize (Z.to_nat j). clear. intros k. revert acc.
  induction k as [ | k IH ]; intros acc.
  - cbn. lia.
  - cbn [repeat]. unfold digits_value in *. cbn [fold_left].
    rewrite IH. rewrite Nat2Z.inj_succ, Z.pow_succ_r by lia.
    change (digit_of "0") with 0. ring.
Qed.

(** Number::toString of a whole number below [10^21]: its sign and
    decimal digits, without a fraction or an exponent; the digits denote
    an integer whose Number value it is. *)
Lemma ToString_integer sg m e N :
  canonical (Finite false m e) ->
  mag_num m e = N * mag_den e -> 0 < N < 10 ^ 21 ->
  exists ds,
    ToString_chars (Finite sg m e) = sign_text sg ++ ds /\
    Forall is_digit ds /\ ds <> [] /\
    of_ratio sg (digits_value 0 ds) 1 = Finite sg m e.
Proof.
  intros C E [LN UN].
  pose proof (mag_den_pos e) as Pb.
  assert (Ex : of_ratio false N 1 = Finite false m e).
  { apply of_ratio_exact; [ exact C | lia | lia ]. }
  unfold ToString_chars.
  set (a := mag_num m e) in *. set (b := mag_den e) in *.
  assert (Dn : decimal_exponent a b = digit_count N).
  { unfold decimal_exponent, digit_count.
    destruct (Z.leb_spec b a); [ | nia ].
    rewrite E, Z.div_mul by lia. reflexivity. }
  rewrite Dn. set (n := digit_count N) in *.
  assert (H1 : 1 <= n) by apply digit_count_pos.
  assert (H21 : n <= 21) by (apply digit_count_short; lia).
  pose proof (shortest_plain (Finite false m e) a b n N Pb E ltac:(lia)
                eq_refl Ex
                (Z.to_nat (Z.max 1 (n + Z.max 0 (- e)) - 1)) 1
                ltac:(lia) ltac:(lia)) as P.
  destruct (shortest _ _ _ _ _ _) as [s n'].
  destruct P as (R & Hs & D & W). cbn [fst snd] in *.
  assert (H' : n' <= 21).
  { destruct W as [->|(-> & k & Hk & ->)]; [ exact H21 | ].
    destruct (Z.eq_dec n 21) as [E21|]; [ exfalso | lia ].
    unfold round_trips in R. rewrite digit_count_pow10 in R by lia.
    apply number_eqb_eq in R. rewrite E21 in R.
    unfold pow10_num, pow10_den in R.
    destruct (Z.ltb_spec (21 + 1 - k) 0); [ lia | ].
    rewrite <- Z.pow_add_r in R by lia.
    replace (k - 1 + (21 + 1 - k)) with 21 in R by lia.
    rewrite <- Ex in R.
    assert (T : to_Z (of_ratio false (10 ^ 21) 1) = Some (10 ^ 21))
      by (vm_compute; reflexivity).
    rewrite R, Ex, (to_Z_value _ _ _ _ E) in T.
    cbn [cond_Zopp] in T. injection T as T. lia. }
  unfold number_text. fold (digit_count s).
  assert (D' : digit_count s <= n') by (destruct W as [->|(-> & _)]; lia).
  destruct (Z.leb_spec (digit_count s) n'); [ | lia ].
  destruct (Z.leb_spec n' 21); [ | lia ]. cbn [andb].
  exists (decimal s ++ zeros (n' - digit_count s)).
  split; [ reflexivity | ].
  split; [ apply Forall_app; split;
           [ now apply decimal_digits | apply zeros_digits ] | ].
  split.
  { pose proof (decimal_nonempty s). destruct (decimal s); [ congruence | discriminate ]. }
  rewrite digits_value_app, decimal_value0 by exact Hs.
  rewrite digits_value_zeros by lia.
  unfold round_trips in R. apply number_eqb_eq in R.
  unfold pow10_num, pow10_den in R.
  destruct (Z.ltb_spec (n' - digit_count s) 0); [ lia | ].
  rewrite of_ratio_sign, R. reflexivity.
Qed.

Lemma atoms_shown u :
  accessor "atoms" u = (Ok (shown (ToNumber (_value u)) 0), u) \/
  exists v, _value u = Some v /\ ~ canonical v.
Proof.
  destruct u as [[v| ]]; cbn [_value ToNumber].
  - destruct v as [s|s| |s m e] eqn:E.
    1-3: left; unfold accessor;
      rewrite (to_code_known Unit_atoms (Entry [of_Z 1; of_Z 0]) 0)
        by (reflexivity || lia);
      cbn [fst _value ToNumber element nth_error];
      now rewrite div_one by exact I.
    assert (D : {Zpos m < 2 ^ prec /\ emin <= e <= emax_finite /\
                 (2 ^ (prec - 1) <= Zpos m \/ e = emin)} +
                {~ canonical (Finite s m e)}).
    { unfold canonical.
      destruct (Z_lt_dec (Zpos m) (2 ^ prec)); [ | right; tauto ].
      destruct (Z_le_dec emin e); [ | right; lia ].
      destruct (Z_le_dec e emax_finite); [ | right; lia ].
      destruct (Z_le_dec (2 ^ (prec - 1)) (Zpos m)); [ left; tauto | ].
      destruct (Z.eq_dec e emin); [ left; tauto | right; lia ]. }
    destruct D as [C|N]; [ left | right; eauto ].
    unfold accessor.
    rewrite (to_code_known Unit_atoms (Entry [of_Z 1; of_Z 0]) 0)
      by (reflexivity || lia).
    cbn [fst _value ToNumber element nth_error].
    now rewrite div_one by exact C.
  - left. reflexivity.
Qed.

(** X9. What [toString] and [inspect] print.  For a Unit the
    constructor returned, [toString] gives ["NaN atoms"] when the atomic
    amount is NaN, and otherwise an optional minus sign and decimal
    digits only, never a fraction or an exponent, followed by
    [" atoms"]; the whole number the digits denote has the atomic
    amount as its Number value, so the text reads back as the amount.
    [inspect] wraps the same text in ["<Unit: "] and [">"]. *)
Theorem toString_plain_integer a c u :
  new_Unit a c = Ok u ->
  (_value u = Some NaN /\
   outcome toString u = Ok "NaN atoms"%string /\
   outcome inspect u = Ok "<Unit: NaN atoms>"%string) \/
  (exists v neg ds,
      _value u = Some v /\ Forall is_digit ds /\ ds <> [] /\
      same_value_zero (of_ratio neg (digits_value 0 ds) 1) v /\
      outcome toString u =
      Ok (string_of_list_ascii (sign_text neg ++ ds) ++ " atoms")%string /\
      outcome inspect u =
      Ok ("<Unit: " ++ (string_of_list_ascii (sign_text neg ++ ds) ++ " atoms")
                    ++ ">")%string).
Proof.
  intros H. pose proof (new_Unit_stored _ _ _ H) as V.
  pose proof (ingested_canonical a c) as C.
  set (p := ingested a c) in *.
  assert (I : integral (stored p)) by now apply stored_integral.
  assert (T : forall text,
             ToString (shown (stored p) 0) = text ->
             outcome toString u = Ok (text ++ " atoms")%string /\
             outcome inspect u = Ok ("<Unit: " ++ (text ++ " atoms") ++ ">")%string).
  { intros text <-. unfold inspect, toString, outcome, bind.
    destruct (atoms_shown u) as [->|(v & V' & N)].
    - rewrite V. cbn [ToNumber fst ret]. split; reflexivity.
    - exfalso. apply N. rewrite V in V'. injection V' as <-. apply I. }
  destruct (is_finite p) eqn:F.
  - right. destruct (stored_whole p C F) as (n & W & B & _).
    destruct (integral_finite _ _ I W) as [(s & E & ->)|(s & m & e & E & Cv & M & P)].
    + exists (stored p), false, ["0"%char].
      split; [ exact V | ]. split; [ repeat constructor; discriminate | ].
      split; [ discriminate | ]. split; [ rewrite E; reflexivity | ].
      apply T. rewrite E. destruct s; reflexivity.
    + destruct (ToString_integer s m e (Z.abs n) Cv M ltac:(lia))
        as (ds & S & D & Ne & R).
      exists (stored p), s, ds.
      split; [ exact V | ]. split; [ exact D | ]. split; [ exact Ne | ].
      split; [ rewrite R, E; reflexivity | ].
      apply T. rewrite E in *.
      pose proof (shown_integral _ I) as Q. unfold same_value_zero in Q.
      destruct (shown (Finite s m e) 0); try discriminate Q.
      cbn [unsigned_zero] in Q. rewrite Q. unfold ToString. now rewrite S.
  - left. rewrite V. rewrite stored_not_finite in * by exact F.
    split; [ reflexivity | ]. apply (T "NaN"%string). reflexivity.
Qed.

Lemma toString_plain_integer_witness :
  (_value {| _value := Some (of_Z 150000000) |} = Some NaN /\
   outcome toString {| _value := Some (of_Z 150000000) |} = Ok "NaN atoms"%string /\
   outcome inspect {| _value := Some (of_Z 150000000) |} =
   Ok "<Unit: NaN atoms>"%string) \/
  (exists v neg ds,
      _value {| _value := Some (of_Z 150000000) |} = Some v /\
      Forall is_digit ds /\ ds <> [] /\
      same_value_zero (of_ratio neg (digits_value 0 ds) 1) v /\
      outcome toString {| _value := Some (of_Z 150000000) |} =
      Ok (string_of_list_ascii (sign_text neg ++ ds) ++ " atoms")%string /\
      outcome inspect {| _value := Some (of_Z 150000000) |} =
      Ok ("<Unit: " ++ (string_of_list_ascii (sign_text neg ++ ds) ++ " atoms")
                    ++ ">")%string).
Proof.
  apply (toString_plain_integer (of_decimal 15 1) (Code "HC")).
  vm_compute. reflexivity.
Defined.

(** ** Atoms in, atoms out *)

Lemma mul_one x : canonical x -> mul x (of_Z 1) = x.
Proof.
  replace (of_Z 1) with (Finite false 4503599627370496 (-52))
    by (vm_compute; reflexivity).
  destruct x as [s|s| |s m e]; intros C; cbn [mul];
    rewrite ?xorb_false_r; try reflexivity.
  apply of_ratio_exact; [ exact C | apply mag_den_pos | ].
  pose proof (mag_product m e 4503599627370496 (-52)) as P.
  change (mag_den (-52)) with 4503599627370496 in P.
  change (mag_num 4503599627370496 (-52)) with 4503599627370496 in P.
  lia.
Qed.

(** A whole number below [10^21] is stored as it is. *)
Lemma stored_integer s m e k :
  canonical (Finite s m e) ->
  mag_num m e = k * mag_den e -> k < 10 ^ 21 ->
  stored (Finite s m e) = Finite s m e.
Proof.
  intros C E B. pose proof (mag_den_pos e) as D.
  rewrite stored_small; [ | exact C | rewrite E; nia ].
  rewrite E, nearest_fixed_integer by exact D.
  now apply of_ratio_integer.
Qed.

(** X10. The atomic amount goes through [toAtoms] and [fromAtoms]
    unchanged: for every Unit the constructor returned, whatever its
    size, [Unit.fromAtoms(u.toAtoms())] stores the atomic amount of [u]
    and answers [toAtoms] alike. *)
Theorem atoms_round_trip a c u :
  new_Unit a c = Ok u ->
  exists x u',
    outcome toAtoms u = Ok x /\
    fromAtoms x = Ok u' /\
    same_value_zero (ToNumber (_value u')) (ToNumber (_value u)) /\
    outcome toAtoms u' = Ok x.
Proof.
  intros H. pose proof (new_Unit_stored _ _ _ H) as V.
  pose proof (ingested_canonical a c) as C.
  set (p := ingested a c) in *.
  assert (I : integral (stored p)) by now apply stored_integral.
  assert (A : forall w, canonical w ->
              outcome toAtoms {| _value := Some w |} = Ok (shown w 0)).
  { intros w Cw. unfold toAtoms, outcome. cbn [to].
    rewrite (to_code_known Unit_atoms (Entry [of_Z 1; of_Z 0]) 0)
      by (reflexivity || lia).
    cbn [fst _value ToNumber element nth_error].
    now rewrite div_one by exact Cw. }
  assert (F : forall x, fromAtoms x =
                        Ok {| _value := Some (stored (mul x (of_Z 1))) |}).
  { intros x. unfold fromAtoms.
    now rewrite (new_Unit_known _ Unit_atoms (Entry [of_Z 1; of_Z 0])). }
  destruct u as [w]. cbn [_value] in V. subst w. cbn [_value ToNumber].
  exists (shown (stored p) 0). eexists.
  split; [ apply A, I | ]. split; [ apply F | ]. cbn [_value ToNumber].
  assert (R : stored (mul (shown (stored p) 0) (of_Z 1)) = unsigned_zero (stored p)).
  { destruct (is_finite p) eqn:Fp.
    - destruct (stored_whole p C Fp) as (n & W & B & _).
      destruct (integral_finite _ _ I W) as [(s & E & ->)|(s & m & e & E & Cv & M & P)].
      + rewrite E. rewrite shown_zero by lia. reflexivity.
      + rewrite E in *.
        pose proof (shown_integral _ I) as Q. unfold same_value_zero in Q.
        destruct (shown (Finite s m e) 0); try discriminate Q.
        cbn [unsigned_zero] in Q. rewrite Q.
        rewrite mul_one by exact Cv. cbn [unsigned_zero].
        now apply (stored_integer s m e (Z.abs n)).
    - rewrite (stored_not_finite p) by exact Fp. reflexivity. }
  split.
  - unfold same_value_zero. rewrite R. now destruct (stored p).
  - rewrite R. rewrite A by (destruct (stored p); try exact I; apply I).
    f_equal. destruct (stored p); reflexivity.
Qed.

Lemma atoms_round_trip_witness :
  exists x u',
    outcome toAtoms {| _value := Some (of_Z 1) |} = Ok x /\
    fromAtoms x = Ok u' /\
    same_value_zero (ToNumber (_value u'))
                    (ToNumber (_value {| _value := Some (of_Z 1) |})) /\
    outcome toAtoms u' = Ok x.
Proof.
  apply (atoms_round_trip (of_Z (10 ^ 13)) (Code "HC")).
  vm_compute. reflexivity.
Defined.

(** ** The embedding at work

    Values the language is known to produce, recomputed by the
    definitions above; the arithmetic is also compared with the
    standard library's reference implementation of binary64. *)

Module Examples.

Import Number Builtin.
Local Open Scope string_scope.

Example multiply_as_IEEE :
  mul (of_decimal 13 1) (of_Z 100000000) =
  SFmul 53 1024 (of_decimal 13 1) (of_Z 100000000) /\
  mul (of_decimal 15 3) (of_Z 100) =
  SFmul 53 1024 (of_decimal 15 3) (of_Z 100) /\
  mul (of_Z (10 ^ 308)) (of_Z 100000000) = Infinity false.
Proof. vm_compute. auto. Qed.

Example divide_as_IEEE :
  div (of_decimal 13 1) (of_Z 350) =
  SFdiv 53 1024 (of_decimal 13 1) (of_Z 350) /\
  div (of_Z 371429) (of_Z 100000000) =
  SFdiv 53 1024 (of_Z 371429) (of_Z 100000000) /\
  div (of_Z 1) (of_Z 3) = SFdiv 53 1024 (of_Z 1) (of_Z 3).
Proof. vm_compute. auto. Qed.

Example literals_are_doubles :
  of_decimal 13 1 = Finite false 5854679515581645 (-52) /\
  valid_binary 53 1024 (of_decimal 13 1) = true /\
  valid_binary 53 1024 (of_Z (10 ^ 21)) = true /\
  valid_binary 53 1024 (of_decimal 25 9) = true.
Proof. vm_compute. auto. Qed.

Example toFixed_rounds_the_exact_value :
  toFixed (of_decimal 1005 3) (Some (of_Z 2)) = Ok "1.00" /\
  toFixed (of_decimal 8345 3) (Some (of_Z 2)) = Ok "8.35" /\
  toFixed (of_decimal 25 1) undefined = Ok "3" /\
  toFixed (of_decimal (-25) 1) undefined = Ok "-3" /\
  toFixed (of_decimal (-1) 1) undefined = Ok "-0" /\
  toFixed (of_Z 130000000) (Some (of_Z 8)) = Ok "130000000.00000000".
Proof. vm_compute. auto 10. Qed.

Example toFixed_of_large_and_special_values :
  toFixed (of_Z (10 ^ 21)) undefined = Ok "1e+21" /\
  toFixed (of_Z (2 ^ 70)) undefined = Ok "1.1805916207174113e+21" /\
  toFixed (of_Z (10 ^ 21 - 100000)) undefined = Ok "999999999999999868928" /\
  toFixed (Infinity false) undefined = Ok "Infinity" /\
  toFixed NaN (Some (of_Z 2)) = Ok "NaN" /\
  toFixed (of_Z 1) (Some (of_Z 101)) = Throw RangeError.
Proof. vm_compute. auto 10. Qed.

Example parseInt_reads_leading_digits :
  parseInt "1e+21" = of_Z 1 /\
  parseInt "-0" = Zero true /\
  parseInt "Infinity" = NaN /\
  parseInt "NaN" = NaN /\
  parseInt "130000000" = of_Z 130000000 /\
  parseInt "0x1F" = of_Z 31.
Proof. vm_compute. auto 10. Qed.

Example parseFloat_reads_decimals :
  parseFloat "0.0013" = of_decimal 13 4 /\
  parseFloat "1e+21" = of_Z (10 ^ 21) /\
  parseFloat "-0.00" = Zero true /\
  parseFloat "Infinity" = Infinity false /\
  parseFloat "NaN" = NaN /\
  parseFloat "3714.29" = of_decimal 371429 2.
Proof. vm_compute. auto 10. Qed.

Example unit_at_work :
  (exists u, fromFiat (of_decimal 13 1) (of_Z 350) = Ok u /\
             outcome (accessor "bits") u = Ok (of_decimal 371429 2)) /\
  (exists u, fromHC (of_decimal 13 1) = Ok u /\
             outcome (atRate (of_Z 350)) u = Ok (of_Z 455)) /\
  (exists u, fromHC (of_decimal 15 1) = Ok u /\
             outcome toString u = Ok "150000000 atoms" /\
             outcome inspect u = Ok "<Unit: 150000000 atoms>") /\
  new_Unit (of_Z 1) (Code "XYZ") = Throw (UnknownCode "XYZ") /\
  new_Unit (of_Z 1) (Rate (of_Z 0)) = Throw (InvalidRate (of_Z 0)).
Proof.
  split; [ eexists; split; [ vm_compute; reflexivity | vm_compute; reflexivity ] | ].
  split; [ eexists; split; [ vm_compute; reflexivity | vm_compute; reflexivity ] | ].
  split; [ eexists; split;
           [ vm_compute; reflexivity
           | split; [ vm_compute; reflexivity | vm_compute; reflexivity ] ] | ].
  split; vm_compute; reflexivity.
Qed.

Example fiat_of_large_amounts :
  (exists u, fromFiat (of_Z 50000000) (of_Z 1) = Ok u /\
             _value u = Some (of_Z 5000000000000000) /\
             outcome toHC u = Ok (of_Z 50000000)) /\
  (exists u, fromFiat (of_Z (-7000000000000)) (of_Z 1) = Ok u /\
             _value u = Some (of_Z (-700000000000000000000)) /\
             outcome toHC u = Ok (of_Z (-7000000000000)) /\
             round_to_precision (div (of_Z (-7000000000000)) (of_Z 1)) 8 =
             of_Z (-7000000000000)).
Proof.
  split; eexists; (split; [ vm_compute; reflexivity | ]); vm_compute; auto.
Qed.

End Examples.
